(** * Room-state coordinator of the video-conference backend (server.js)

    A shallow embedding of the Socket.IO event handlers of [server.js]:
    the three in-memory stores ([rooms], [whiteboardData], [taskBoards]),
    the transport's view of the sockets (connected flag, joined transport
    rooms, registered listeners), the [Message] collection, and the
    handlers themselves.  Every handler is a function from a state to a
    new state and the list of emissions it performed.  The two handlers
    that [await] the message store are split at the [await]: the part
    before it runs with the client event, the part after it runs when the
    store settles, and other events may run in between.

    The three stores are plain objects ([{}]) used as maps from room id to
    value.  A plain object answers a read of a name it does not hold with
    what [Object.prototype] has under that name, and an assignment to
    [__proto__] replaces its prototype: both are modelled ([inherits],
    [pushable], [taskBoards_get], [taskBoards_set]).  The arrays kept in
    [whiteboardData] are objects that several keys can refer to and that
    [push] changes in place: each log is kept with the number of the array
    object it is ([whiteboardArray]).

    A handler can throw.  server.js catches nothing outside the two store
    calls, so the error leaves the handler; it is recorded in [escaped], and
    what the handler did before stays done.  What Node then does with the
    process is decided by its version and flags, not by server.js: the
    model goes on, so every run of the server is a run of the model up to
    the point where the process ends, if it does. *)

From stdpp Require Import gmap strings list fin_maps sorting pretty.

Open Scope string_scope.
Open Scope list_scope.

(** ** Data *)

(** Opaque client payloads (strokes, boards, SDP blobs, ICE candidates):
    JSON values, plus [undefined] for an absent argument or field.
    [VFunction] is a built-in function, as read from a prototype; a client
    payload is parsed JSON and holds none. *)
#[local] Unset Elimination Schemes.
Inductive value :=
| VUndefined
| VNull
| VBool (b : bool)
| VNum (n : Z)
| VStr (s : string)
| VArr (items : list value)
| VObj (fields : list (string * value))
| VFunction (name : string).
#[local] Set Elimination Schemes.

(** JavaScript truthiness, as tested by [!tasks]. *)
Definition truthy (v : value) : bool :=
  match v with
  | VUndefined | VNull => false
  | VBool b => b
  | VNum n => negb (n =? 0)%Z
  | VStr s => negb (String.eqb s "")
  | VArr _ | VObj _ | VFunction _ => true
  end.

(** Identifiers (room ids, user names, targets, senders, texts) are strings
    or absent; [!x] holds for an absent field and for the empty string. *)
Definition present (o : option string) : bool :=
  match o with
  | Some s => negb (String.eqb s "")
  | None => false
  end.

(** [x || d] on an optional string. *)
Definition or_else (o : option string) (d : string) : string :=
  match o with
  | Some s => if String.eqb s "" then d else s
  | None => d
  end.

(** An entry of [rooms[roomId]]: [{ socketId, username }]. *)
Record member := Member { socketId : string; username : string }.

(** A document of the [Message] collection (models/Message.js). *)
Record message := Message {
  msg_roomId : string;
  msg_sender : string;
  msg_text : string;
  msg_createdAt : nat
}.

#[global] Instance member_eq_dec : EqDecision member.
Proof. solve_decision. Defined.

#[global] Instance message_eq_dec : EqDecision message.
Proof. solve_decision. Defined.

(** [{ todo: [], inprogress: [], done: [] }] *)
Definition default_board : value :=
  VObj [("todo", VArr []); ("inprogress", VArr []); ("done", VArr [])].

(** What the transport keeps for a socket object: whether it is connected,
    the transport rooms it entered with [socket.join], and the room ids of
    the closures whose listeners were registered on it with [socket.on], in
    registration order.  The room named by the socket's own id, which every
    socket is in from its connection, is not stored: see [in_room]. *)
Record socket := Socket {
  sock_connected : bool;
  sock_rooms : gset string;
  sock_listeners : list string
}.

(** A handler suspended at an [await] on the message store. *)
Inductive continuation :=
| AwaitFind (sid roomId : string)
    (* join-room, at [await Message.find(...)] *)
| AwaitCreate (r sender text : string).
    (* send-message, at [await Message.create(...)] *)

#[global] Instance continuation_eq_dec : EqDecision continuation.
Proof. solve_decision. Defined.

(** An error that left a handler of socket [sid]: an exception thrown out
    of the emitter by a synchronous listener, or the rejected promise an
    [async] listener returned. *)
Inductive escape :=
| UncaughtException (sid : string)
| UnhandledRejection (sid : string).

(** [rooms], [whiteboardData] and [taskBoards] hold the own properties of
    the three stores.  [whiteboardArray] gives, for every key of
    [whiteboardData], the number of the array object stored under it, and
    [arrays] counts the array objects numbered so far: two keys with the
    same number refer to one array.  [taskBoardsProto] is the prototype of
    [taskBoards] once an assignment has replaced it; [None] stands for
    [Object.prototype], the prototype of every [{}]. *)
Record state := State {
  rooms : gmap string (list member);
  whiteboardData : gmap string (list value);
  whiteboardArray : gmap string nat;
  arrays : nat;
  taskBoards : gmap string value;
  taskBoardsProto : option value;
  sockets : gmap string socket;
  collection : list message;
  pending : list continuation;
  escaped : list escape
}.

Definition init : state :=
  {| rooms := ∅; whiteboardData := ∅; whiteboardArray := ∅; arrays := 0;
     taskBoards := ∅; taskBoardsProto := None;
     sockets := ∅; collection := []; pending := []; escaped := [] |}.

(** Events the server emits, with the argument [emit] is called with.  (An
    argument that is a function, which only [tasks:update] can get, is taken
    by Socket.IO for an acknowledgement callback and not sent.) *)
Inductive server_event :=
| UsersUpdate (users : list member)
| UserJoined (who : member)
| UserLeft (sid : string)
| MessagesInitial (msgs : list message)
| WhiteboardInitial (strokes : list value)
| WhiteboardDrawEcho (stroke : value)
| WhiteboardUndoEcho (strokes : option (list value))
| WhiteboardRedoEcho (strokes : option (list value))
| WhiteboardClearEcho
| MessageNew (msg : message)
| TasksUpdateOut (board : value)
| OfferOut (sdp : value) (caller : string)
| AnswerOut (sdp : value) (caller : string)
| IceCandidateOut (candidate : value) (from : string).

(** The three ways the handlers address an emission. *)
Inductive scope :=
| ToRoom (r : string)                 (* io.to(r).emit *)
| ToRoomExcept (sender r : string)    (* socket.to(r).emit *)
| ToSocket (sid : string).            (* socket.emit *)

Record emission := Emission {
  em_scope : scope;
  em_event : server_event;
  em_to : gset string
}.

(** The events whose listener takes its argument apart
    ([({ roomId, username }) => ...]). *)
Inductive event_name :=
| JoinRoomEvent
| SendMessageEvent
| TasksGetEvent
| TasksUpdateEvent
| OfferEvent
| AnswerEvent
| IceCandidateEvent.

(** Events a client emits, with their payload fields.  [NoPayload name] is
    the event [name] sent without argument, or with [null]; the whiteboard
    events sent without argument are [WhiteboardDraw VUndefined],
    [WhiteboardUndo None] and [WhiteboardRedo None]. *)
Inductive client_event :=
| JoinRoom (roomId username : option string)
| WhiteboardDraw (stroke : value)
| WhiteboardUndo (strokes : option (list value))
| WhiteboardRedo (strokes : option (list value))
| WhiteboardClear
| SendMessage (r sender text : option string)
| TasksGet (r : option string)
| TasksUpdate (r : option string) (tasks : value)
| Offer (target : option string) (sdp : value)
| Answer (target : option string) (sdp : value)
| IceCandidate (target : option string) (candidate : value)
| NoPayload (name : event_name).

(** How the store settles an awaited operation.  [Resolved stamp]: the
    operation succeeded; for a create, [stamp] is the [createdAt] of the new
    document (the schema's [Date.now] default). *)
Inductive outcome :=
| Resolved (stamp : nat)
| Rejected.

(** What the event loop processes, one at a time. *)
Inductive input :=
| Connection (sid : string)
| Receive (sid : string) (e : client_event)
| Disconnect (sid : string)
| Settle (i : nat) (o : outcome).

(** ** State access *)

Definition with_rooms (f : gmap string (list member) → gmap string (list member))
    (st : state) : state :=
  {| rooms := f (rooms st); whiteboardData := whiteboardData st;
     whiteboardArray := whiteboardArray st; arrays := arrays st;
     taskBoards := taskBoards st; taskBoardsProto := taskBoardsProto st;
     sockets := sockets st; collection := collection st;
     pending := pending st; escaped := escaped st |}.

Definition with_whiteboardData (f : gmap string (list value) → gmap string (list value))
    (st : state) : state :=
  {| rooms := rooms st; whiteboardData := f (whiteboardData st);
     whiteboardArray := whiteboardArray st; arrays := arrays st;
     taskBoards := taskBoards st; taskBoardsProto := taskBoardsProto st;
     sockets := sockets st; collection := collection st;
     pending := pending st; escaped := escaped st |}.

Definition with_whiteboardArray (f : gmap string nat → gmap string nat)
    (st : state) : state :=
  {| rooms := rooms st; whiteboardData := whiteboardData st;
     whiteboardArray := f (whiteboardArray st); arrays := arrays st;
     taskBoards := taskBoards st; taskBoardsProto := taskBoardsProto st;
     sockets := sockets st; collection := collection st;
     pending := pending st; escaped := escaped st |}.

Definition with_arrays (f : nat → nat) (st : state) : state :=
  {| rooms := rooms st; whiteboardData := whiteboardData st;
     whiteboardArray := whiteboardArray st; arrays := f (arrays st);
     taskBoards := taskBoards st; taskBoardsProto := taskBoardsProto st;
     sockets := sockets st; collection := collection st;
     pending := pending st; escaped := escaped st |}.

Definition with_taskBoards (f : gmap string value → gmap string value)
    (st : state) : state :=
  {| rooms := rooms st; whiteboardData := whiteboardData st;
     whiteboardArray := whiteboardArray st; arrays := arrays st;
     taskBoards := f (taskBoards st); taskBoardsProto := taskBoardsProto st;
     sockets := sockets st; collection := collection st;
     pending := pending st; escaped := escaped st |}.

Definition with_taskBoardsProto (f : option value → option value)
    (st : state) : state :=
  {| rooms := rooms st; whiteboardData := whiteboardData st;
     whiteboardArray := whiteboardArray st; arrays := arrays st;
     taskBoards := taskBoards st; taskBoardsProto := f (taskBoardsProto st);
     sockets := sockets st; collection := collection st;
     pending := pending st; escaped := escaped st |}.

Definition with_sockets (f : gmap string socket → gmap string socket)
    (st : state) : state :=
  {| rooms := rooms st; whiteboardData := whiteboardData st;
     whiteboardArray := whiteboardArray st; arrays := arrays st;
     taskBoards := taskBoards st; taskBoardsProto := taskBoardsProto st;
     sockets := f (sockets st); collection := collection st;
     pending := pending st; escaped := escaped st |}.

Definition with_collection (f : list message → list message) (st : state) : state :=
  {| rooms := rooms st; whiteboardData := whiteboardData st;
     whiteboardArray := whiteboardArray st; arrays := arrays st;
     taskBoards := taskBoards st; taskBoardsProto := taskBoardsProto st;
     sockets := sockets st; collection := f (collection st);
     pending := pending st; escaped := escaped st |}.

Definition with_pending (f : list continuation → list continuation)
    (st : state) : state :=
  {| rooms := rooms st; whiteboardData := whiteboardData st;
     whiteboardArray := whiteboardArray st; arrays := arrays st;
     taskBoards := taskBoards st; taskBoardsProto := taskBoardsProto st;
     sockets := sockets st; collection := collection st;
     pending := f (pending st); escaped := escaped st |}.

Definition with_escaped (f : list escape → list escape) (st : state) : state :=
  {| rooms := rooms st; whiteboardData := whiteboardData st;
     whiteboardArray := whiteboardArray st; arrays := arrays st;
     taskBoards := taskBoards st; taskBoardsProto := taskBoardsProto st;
     sockets := sockets st; collection := collection st;
     pending := pending st; escaped := f (escaped st) |}.

(** ** Plain objects used as maps *)

(** The functions every object inherits from [Object.prototype]. *)
Definition Object_prototype_functions : list string :=
  [ "constructor"; "__defineGetter__"; "__defineSetter__"; "hasOwnProperty";
    "__lookupGetter__"; "__lookupSetter__"; "isPrototypeOf";
    "propertyIsEnumerable"; "toString"; "valueOf"; "toLocaleString" ].

(** The names of [Object.prototype]: its functions and the accessor
    [__proto__]. *)
Definition Object_prototype : list string :=
  "__proto__" :: Object_prototype_functions.

(** [k] names something a [{}] that holds no [k] of its own still
    answers with. *)
Definition inherits (k : string) : bool := bool_decide (k ∈ Object_prototype).

(** The names of [Array.prototype] (ECMAScript 2023; an older engine lacks
    the newest of them). *)
Definition Array_prototype : list string :=
  [ "at"; "concat"; "constructor"; "copyWithin"; "entries"; "every"; "fill";
    "filter"; "find"; "findIndex"; "findLast"; "findLastIndex"; "flat";
    "flatMap"; "forEach"; "includes"; "indexOf"; "join"; "keys";
    "lastIndexOf"; "map"; "pop"; "push"; "reduce"; "reduceRight"; "reverse";
    "shift"; "slice"; "some"; "sort"; "splice"; "toLocaleString";
    "toReversed"; "toSorted"; "toSpliced"; "toString"; "unshift"; "values";
    "with" ].

(** The field named [k] of a parsed object; of two fields with one name
    [JSON.parse] keeps the later. *)
Fixpoint field (k : string) (fields : list (string * value)) : option value :=
  match fields with
  | [] => None
  | (k', v) :: rest =>
      match field k rest with
      | Some w => Some w
      | None => if String.eqb k' k then Some v else None
      end
  end.

(** The element of a parsed array under the name [k], the first element
    having index [i]. *)
Fixpoint element (k : string) (i : nat) (items : list value) : option value :=
  match items with
  | [] => None
  | v :: rest => if String.eqb (pretty i) k then Some v else element k (S i) rest
  end.

(** The own property [k] of a parsed value. *)
Definition own_property (v : value) (k : string) : option value :=
  match v with
  | VObj fields => field k fields
  | VArr items =>
      if String.eqb k "length" then Some (VNum (Z.of_nat (length items)))
      else element k 0 items
  | _ => None
  end.

(** What [Object.prototype.__proto__ = v] accepts as a prototype. *)
Definition is_object (v : value) : bool :=
  match v with
  | VArr _ | VObj _ => true
  | _ => false
  end.

(** [o[k]] for an object [o] that has no own property [k]: the value found
    along its prototype chain.  [proto] is the prototype of [o]: a parsed
    value an assignment put there, or [None] for [Object.prototype].  The
    accessor [__proto__] of [Object.prototype] answers with the prototype of
    the object it is read on; [Object.prototype] itself is an object without
    fields. *)
Definition inherited (proto : option value) (k : string) : value :=
  let from_Object_prototype (prototype_of_o : value) :=
    if String.eqb k "__proto__" then prototype_of_o
    else if inherits k then VFunction k
    else VUndefined in
  match proto with
  | None => from_Object_prototype (VObj [])
  | Some p =>
      match own_property p k with
      | Some v => v
      | None =>
          match p with
          | VArr _ =>
              if bool_decide (k ∈ Array_prototype) then VFunction k
              else from_Object_prototype p
          | _ => from_Object_prototype p
          end
      end
  end.

(** ** Reading the stores *)

(** [rooms[r]], read as a sequence: empty for an unknown room. *)
Definition members (st : state) (r : string) : list member :=
  default [] (rooms st !! r).

(** [rooms[r]] can take a [push]: it is the room's own list, or there is
    nothing under [r] and line 64 puts [[]] there.  Under a name of
    [Object.prototype] that [rooms] does not hold itself, [rooms[r]] is a
    function or [Object.prototype]: truthy, and without [push]. *)
Definition pushable (st : state) (r : string) : bool :=
  match rooms st !! r with
  | Some _ => true
  | None => negb (inherits r)
  end.

(** [whiteboardData[r] || []], for the room [r] of a closure (the name of a
    closure's room is not inherited: [closure_rooms_not_inherited]). *)
Definition strokes_of (st : state) (r : string) : list value :=
  default [] (whiteboardData st !! r).

(** [taskBoards[r]] *)
Definition taskBoards_get (st : state) (r : string) : value :=
  match taskBoards st !! r with
  | Some v => v
  | None => inherited (taskBoardsProto st) r
  end.

(** [taskBoards[r] || { todo: [], inprogress: [], done: [] }] *)
Definition board_of (st : state) (r : string) : value :=
  if truthy (taskBoards_get st r) then taskBoards_get st r else default_board.

(** An assignment to [taskBoards.__proto__] reaches the accessor of
    [Object.prototype]: neither [taskBoards] nor a prototype put in its
    place has a property of that name itself. *)
Definition proto_is_accessor (st : state) : bool :=
  match taskBoards st !! "__proto__" with
  | Some _ => false
  | None =>
      match taskBoardsProto st with
      | Some p => match own_property p "__proto__" with
                  | Some _ => false
                  | None => true
                  end
      | None => true
      end
  end.

(** [taskBoards[r] = tasks].  Under every name but [__proto__] this defines
    or overwrites the own property [r]; under [__proto__] it calls the
    accessor, which makes an object the new prototype of [taskBoards] and
    ignores any other value. *)
Definition taskBoards_set (r : string) (tasks : value) (st : state) : state :=
  if String.eqb r "__proto__" && proto_is_accessor st
  then (if is_object tasks then with_taskBoardsProto (λ _, Some tasks) st else st)
  else with_taskBoards (<[r := tasks]>) st.

Definition is_connected (st : state) (sid : string) : bool :=
  match sockets st !! sid with
  | Some sk => sock_connected sk
  | None => false
  end.

Definition listeners_of (st : state) (sid : string) : list string :=
  match sockets st !! sid with
  | Some sk => sock_listeners sk
  | None => []
  end.

(** The connection entered room [r] with [socket.join] and is still
    connected. *)
Definition joined (st : state) (sid r : string) : Prop :=
  ∃ sk, sockets st !! sid = Some sk ∧ sock_connected sk = true ∧ r ∈ sock_rooms sk.

(** ** The transport: who receives an emission *)

(** A connected socket is in the transport room named by its own id and in
    every room it entered with [socket.join]. *)
Definition in_room (r : string) (sid : string) (sk : socket) : bool :=
  sock_connected sk && (bool_decide (sid = r) || bool_decide (r ∈ sock_rooms sk)).

Definition room_sockets (st : state) (r : string) : gset string :=
  dom (filter (λ kv, in_room r kv.1 kv.2 = true) (sockets st)).

Definition recipients (st : state) (sc : scope) : gset string :=
  match sc with
  | ToRoom r => room_sockets st r
  | ToRoomExcept sender r => room_sockets st r ∖ {[sender]}
  | ToSocket sid => if is_connected st sid then {[sid]} else ∅
  end.

(** ** Handlers as actions *)

Definition action := state → state * list emission.

Definition skip : action := λ st, (st, []).

Definition and_then (a b : action) : action :=
  λ st, let '(st1, out1) := a st in
        let '(st2, out2) := b st1 in
        (st2, out1 ++ out2).

Infix ">>>" := and_then (at level 61, left associativity).

Definition modify (f : state → state) : action := λ st, (f st, []).

Definition emit (sc : scope) (ev : server_event) : action :=
  λ st, (st, [ {| em_scope := sc; em_event := ev; em_to := recipients st sc |} ]).

(** An emission whose payload is read from the state at the time of the
    emission. *)
Definition emit_read (sc : scope) (ev : state → server_event) : action :=
  λ st, emit sc (ev st) st.

Definition for_each {A} (f : A → action) (l : list A) : action :=
  foldr (λ x rest, f x >>> rest) skip l.

(** The handler ends here with an error nothing catches. *)
Definition throw (e : escape) : action :=
  modify (with_escaped (λ l, l ++ [e])).

(** The three changes the handlers and the transport make to a socket
    object: entering a transport room, getting the listeners of one more
    closure, and being closed (out of every room, listeners kept). *)
Definition enter_room (r : string) (sk : socket) : socket :=
  {| sock_connected := sock_connected sk;
     sock_rooms := {[r]} ∪ sock_rooms sk;
     sock_listeners := sock_listeners sk |}.

Definition add_listener (r : string) (sk : socket) : socket :=
  {| sock_connected := sock_connected sk; sock_rooms := sock_rooms sk;
     sock_listeners := sock_listeners sk ++ [r] |}.

Definition leave_all (sk : socket) : socket :=
  {| sock_connected := false; sock_rooms := ∅; sock_listeners := sock_listeners sk |}.

(** [socket.join(r)] *)
Definition socket_join (sid r : string) : action :=
  modify (with_sockets (alter (enter_room r) sid)).

(** The [socket.on(...)] calls of one run of the join-room handler: one
    listener per event name, all closed over the same [roomId]. *)
Definition register_listeners (sid r : string) : action :=
  modify (with_sockets (alter (add_listener r) sid)).

(** [if (!rooms[r]) rooms[r] = []; rooms[r].push(m)], where [rooms[r]] can
    take the [push] ([pushable]). *)
Definition rooms_push (r : string) (m : member) : action :=
  modify (with_rooms (λ R, <[r := default [] (R !! r) ++ [m]]> R)).

(** [await]: the rest of the handler is queued until the store settles. *)
Definition suspend (k : continuation) : action :=
  modify (with_pending (λ p, p ++ [k])).

(** ** The arrays of [whiteboardData] *)

(** [whiteboardData[r] = strokes], where [strokes] is the array object
    numbered [a]. *)
Definition store_log (r : string) (a : nat) (strokes : list value) (st : state) : state :=
  with_arrays (Nat.max (S a))
    (with_whiteboardArray (<[r := a]>)
       (with_whiteboardData (<[r := strokes]>) st)).

(** [whiteboardData[r] = []]: a new array object. *)
Definition new_log (r : string) (st : state) : state :=
  store_log r (arrays st) [] st.

(** [whiteboardData[r].push(x)]: the array under [r] grows in place, and
    with it the log under every key that refers to the same array. *)
Definition push_stroke (r : string) (x : value) (st : state) : state :=
  match whiteboardArray st !! r with
  | Some a =>
      with_whiteboardData
        (map_imap (λ k log,
           Some (if bool_decide (whiteboardArray st !! k = Some a)
                 then log ++ [x] else log))) st
  | None => st
  end.

(** [delete whiteboardData[r]] *)
Definition delete_log (r : string) (st : state) : state :=
  with_whiteboardArray (delete r) (with_whiteboardData (delete r) st).

(** ** The message store *)

(** Insertion into a sequence sorted by ascending [createdAt]; a document
    goes after those with the same stamp. *)
Fixpoint insert_by_createdAt (m : message) (l : list message) : list message :=
  match l with
  | [] => [m]
  | x :: l' =>
      if decide (msg_createdAt m < msg_createdAt x)
      then m :: x :: l'
      else x :: insert_by_createdAt m l'
  end.

(** [.sort({ createdAt: 1 })] *)
Definition sort_createdAt_asc (l : list message) : list message :=
  foldr insert_by_createdAt [] (reverse l).

(** [Message.find({ roomId }).sort({ createdAt: 1 }).limit(200).lean()] *)
Definition find_messages (r : string) (docs : list message) : list message :=
  take 200 (sort_createdAt_asc (filter (λ m, msg_roomId m = r) docs)).

(** ** The handlers of server.js *)

(** join-room, lines 53-70: up to the [await].  When [rooms[roomId]] cannot
    take the [push] of line 65, the handler ends there, after
    [socket.join]: being [async], with a rejected promise. *)
Definition on_join_room (sid : string) (roomId username : option string) : action :=
  match roomId, username with
  | Some r, Some u =>
      if negb (present roomId) || negb (present username) then skip
      else
        socket_join sid r >>>
        (λ st,
           if pushable st r then
             (rooms_push r {| socketId := sid; username := u |} >>>
              emit_read (ToRoom r) (λ st, UsersUpdate (members st r)) >>>
              emit (ToRoomExcept sid r) (UserJoined {| socketId := sid; username := u |}) >>>
              suspend (AwaitFind sid r)) st
           else throw (UnhandledRejection sid) st)
  | _, _ => skip
  end.

(** join-room, lines 76-184: from the settling of [Message.find] on.  The
    query is taken to read the collection at the time it settles. *)
Definition resume_join_room (sid r : string) (o : outcome) : action :=
  emit_read (ToSocket sid) (λ st,
    match o with
    | Resolved _ => MessagesInitial (find_messages r (collection st))
    | Rejected => MessagesInitial []
    end) >>>
  emit_read (ToSocket sid) (λ st, WhiteboardInitial (strokes_of st r)) >>>
  emit_read (ToSocket sid) (λ st, TasksUpdateOut (board_of st r)) >>>
  register_listeners sid r.

(** whiteboard:draw, lines 98-102 *)
Definition on_whiteboard_draw (sid roomId : string) (stroke : value) : action :=
  (λ st, match whiteboardData st !! roomId with
         | Some _ => skip st
         | None => modify (new_log roomId) st
         end) >>>
  modify (push_stroke roomId stroke) >>>
  emit (ToRoomExcept sid roomId) (WhiteboardDrawEcho stroke).

(** whiteboard:undo, lines 105-108.  [payload] is the number of the array
    object the event carries: every listener called for the event gets that
    one object.  A missing payload makes each listener store an array of its
    own, [[]]. *)
Definition on_whiteboard_undo (payload : nat) (sid roomId : string)
    (strokes : option (list value)) : action :=
  modify (match strokes with
          | Some s => store_log roomId payload s
          | None => new_log roomId
          end) >>>
  emit (ToRoomExcept sid roomId) (WhiteboardUndoEcho strokes).

(** whiteboard:redo, lines 111-114 *)
Definition on_whiteboard_redo (payload : nat) (sid roomId : string)
    (strokes : option (list value)) : action :=
  modify (match strokes with
          | Some s => store_log roomId payload s
          | None => new_log roomId
          end) >>>
  emit (ToRoomExcept sid roomId) (WhiteboardRedoEcho strokes).

(** whiteboard:clear, lines 117-120 *)
Definition on_whiteboard_clear (sid roomId : string) : action :=
  modify (new_log roomId) >>>
  emit (ToRoom roomId) WhiteboardClearEcho.

(** send-message, lines 125-128: up to the [await]. *)
Definition on_send_message (sid roomId : string) (r sender text : option string) : action :=
  match r, text with
  | Some r', Some text' =>
      if negb (present r) || negb (present text) then skip
      else suspend (AwaitCreate r' (or_else sender "Guest") text')
  | _, _ => skip
  end.

(** send-message, lines 128-132: from the settling of [Message.create] on. *)
Definition resume_send_message (r sender text : string) (o : outcome) : action :=
  match o with
  | Resolved stamp =>
      let msg := {| msg_roomId := r; msg_sender := sender;
                    msg_text := text; msg_createdAt := stamp |} in
      modify (with_collection (λ c, c ++ [msg])) >>>
      emit (ToRoom r) (MessageNew msg)
  | Rejected => skip
  end.

(** tasks:get, lines 140-142.  A missing room id reads [taskBoards[undefined]],
    the property named "undefined". *)
Definition on_tasks_get (sid roomId : string) (r : option string) : action :=
  emit_read (ToSocket sid) (λ st,
    TasksUpdateOut (board_of st (default "undefined" r))).

(** tasks:update, lines 144-148 *)
Definition on_tasks_update (sid roomId : string) (r : option string) (tasks : value) : action :=
  match r with
  | Some r' =>
      if negb (present r) || negb (truthy tasks) then skip
      else
        modify (taskBoards_set r' tasks) >>>
        emit (ToRoom r') (TasksUpdateOut tasks)
  | None => skip
  end.

(** offer, lines 154-156 *)
Definition on_offer (sid roomId : string) (target : option string) (sdp : value) : action :=
  match target with
  | Some t => if present target then emit (ToRoom t) (OfferOut sdp sid) else skip
  | None => skip
  end.

(** answer, lines 158-160 *)
Definition on_answer (sid roomId : string) (target : option string) (sdp : value) : action :=
  match target with
  | Some t => if present target then emit (ToRoom t) (AnswerOut sdp sid) else skip
  | None => skip
  end.

(** ice-candidate, lines 162-164 *)
Definition on_ice_candidate (sid roomId : string) (target : option string)
    (candidate : value) : action :=
  match target with
  | Some t => if present target then emit (ToRoom t) (IceCandidateOut candidate sid) else skip
  | None => skip
  end.

(** [rooms[roomId].filter((u) => u.socketId !== socket.id)] *)
Definition without_socket (sid : string) (l : list member) : list member :=
  filter (λ u, socketId u ≠ sid) l.

(** disconnect, lines 169-184 *)
Definition on_disconnect (sid roomId : string) : action :=
  λ st,
  match rooms st !! roomId with
  | Some l =>
      (modify (with_rooms (<[roomId := without_socket sid l]>)) >>>
       emit_read (ToRoom roomId) (λ st, UsersUpdate (members st roomId)) >>>
       emit (ToRoomExcept sid roomId) (UserLeft sid) >>>
       (λ st, if bool_decide (length (members st roomId) = 0)
              then modify (λ st,
                     with_taskBoards (delete roomId)
                       (delete_log roomId
                          (with_rooms (delete roomId) st))) st
              else skip st)) st
  | None => skip st
  end.

(** The listeners one closure (one completed join of [sid] to [roomId])
    registered, by event name, called with an event that has a payload;
    [payload] numbers the array object an undo or redo carries.  The
    join-room listener itself is registered once per socket, on connection;
    an event without payload is [on_no_payload]'s. *)
Definition closure_handler (payload : nat) (sid roomId : string) (e : client_event) : action :=
  match e with
  | JoinRoom _ _ => skip
  | WhiteboardDraw stroke => on_whiteboard_draw sid roomId stroke
  | WhiteboardUndo strokes => on_whiteboard_undo payload sid roomId strokes
  | WhiteboardRedo strokes => on_whiteboard_redo payload sid roomId strokes
  | WhiteboardClear => on_whiteboard_clear sid roomId
  | SendMessage r sender text => on_send_message sid roomId r sender text
  | TasksGet r => on_tasks_get sid roomId r
  | TasksUpdate r tasks => on_tasks_update sid roomId r tasks
  | Offer target sdp => on_offer sid roomId target sdp
  | Answer target sdp => on_answer sid roomId target sdp
  | IceCandidate target candidate => on_ice_candidate sid roomId target candidate
  | NoPayload _ => skip
  end.

(** An event sent without argument: every listener that takes its argument
    apart throws on it, before its first statement.  A synchronous listener
    throws out of the emitter, which ends the emit, so the listeners
    registered after the first are not called; an [async] listener returns a
    rejected promise and the next one is called. *)
Definition on_no_payload (sid : string) (name : event_name) : action :=
  λ st,
  match name with
  | JoinRoomEvent => throw (UnhandledRejection sid) st
  | SendMessageEvent =>
      for_each (λ _ : string, throw (UnhandledRejection sid)) (listeners_of st sid) st
  | TasksGetEvent | TasksUpdateEvent | OfferEvent | AnswerEvent | IceCandidateEvent =>
      match listeners_of st sid with
      | [] => skip st
      | _ :: _ => throw (UncaughtException sid) st
      end
  end.

(** ** The event loop *)

(** A client event runs the listeners registered for its name, in
    registration order: join-room has the one listener of line 53, every
    other event one listener per closure.  The packet is decoded once, so an
    array it carries is one object, the next to be numbered, for all of
    them. *)
Definition dispatch (sid : string) (e : client_event) : action :=
  λ st,
  match e with
  | JoinRoom roomId username => on_join_room sid roomId username st
  | NoPayload name => on_no_payload sid name st
  | _ => for_each (λ r, closure_handler (arrays st) sid r e) (listeners_of st sid) st
  end.

(** Transport-level close: the socket leaves every transport room and is
    marked disconnected; its disconnect listeners run after that. *)
Definition close_socket (sid : string) : action :=
  modify (with_sockets (alter leave_all sid)).

(** One turn of the event loop.  Events of a socket that is not connected
    do not arrive; the settling of a store operation resumes the handler
    that awaits it. *)
Definition handle (i : input) : action :=
  λ st,
  match i with
  | Connection sid =>
      (* ids are unique per connection: a used id never connects again *)
      match sockets st !! sid with
      | Some _ => skip st
      | None =>
          modify (with_sockets (<[sid := {| sock_connected := true; sock_rooms := ∅;
                                            sock_listeners := [] |}]>)) st
      end
  | Receive sid e =>
      if is_connected st sid then dispatch sid e st else skip st
  | Disconnect sid =>
      if is_connected st sid
      then (close_socket sid >>>
            for_each (on_disconnect sid) (listeners_of st sid)) st
      else skip st
  | Settle i o =>
      match pending st !! i with
      | Some k =>
          (modify (with_pending (delete i)) >>>
           match k with
           | AwaitFind sid r => resume_join_room sid r o
           | AwaitCreate r sender text => resume_send_message r sender text o
           end) st
      | None => skip st
      end
  end.

(** The state after a sequence of inputs, and everything emitted on the
    way. *)
Definition run_from (st : state) (tr : list input) : state * list emission :=
  foldl (λ acc i, let '(st', out) := handle i acc.1 in (st', acc.2 ++ out)) (st, []) tr.

Definition run (tr : list input) : state := (run_from init tr).1.

Definition reachable (st : state) : Prop := ∃ tr, st = run tr.
(** * Vocabulary of the statements *)

(** ** Closed forms of handler results *)

(** The state the accepted part of join-room (lines 59-65) leaves, with the
    rest of the handler queued. *)
Definition after_join (sid r u : string) (st : state) : state :=
  with_pending (λ p, p ++ [AwaitFind sid r])
    (with_rooms (λ R, <[r := default [] (R !! r) ++ [Member sid u]]> R)
       (with_sockets (alter (enter_room r) sid) st)).

(** The state line 65 leaves when [rooms[r]] cannot take the [push]: the
    socket is in the transport room, and the handler has ended with a
    rejected promise. *)
Definition after_failed_join (sid r : string) (st : state) : state :=
  with_escaped (λ l, l ++ [UnhandledRejection sid])
    (with_sockets (alter (enter_room r) sid) st).

(** Lines 179-181: the three deletes. *)
Definition reclaim (r : string) (st : state) : state :=
  with_taskBoards (delete r) (delete_log r (with_rooms (delete r) st)).

(** ** The invariant of the coordinator *)

(** What holds of [rooms], [whiteboardData], the sockets and the queued
    joins between any two inputs.  A room that has a membership list, a
    queued join or a closure has a name that is not inherited: for the
    others join-room ends at line 65. *)
Record inv (st : state) : Prop := {
  inv_nonempty : ∀ r l, rooms st !! r = Some l → l ≠ [];
  inv_entry_known : ∀ r m, m ∈ members st r → is_Some (sockets st !! socketId m);
  inv_joined_entry : ∀ s sk r,
    sockets st !! s = Some sk → sock_connected sk = true → r ∈ sock_rooms sk →
    inherits r = false → ∃ m, m ∈ members st r ∧ socketId m = s;
  inv_entry_joined : ∀ r m sk,
    m ∈ members st r → sockets st !! socketId m = Some sk →
    sock_connected sk = true → r ∈ sock_rooms sk;
  inv_listener_joined : ∀ s sk r,
    sockets st !! s = Some sk → sock_connected sk = true →
    r ∈ sock_listeners sk → r ∈ sock_rooms sk;
  inv_pending_known : ∀ s r, AwaitFind s r ∈ pending st → is_Some (sockets st !! s);
  inv_pending_joined : ∀ s sk r,
    AwaitFind s r ∈ pending st → sockets st !! s = Some sk →
    sock_connected sk = true → r ∈ sock_rooms sk;
  inv_whiteboard_room : ∀ r,
    is_Some (whiteboardData st !! r) → is_Some (rooms st !! r);
  inv_room_not_inherited : ∀ r, is_Some (rooms st !! r) → inherits r = false;
  inv_pending_not_inherited : ∀ s r, AwaitFind s r ∈ pending st → inherits r = false;
  inv_listener_not_inherited : ∀ s sk r,
    sockets st !! s = Some sk → r ∈ sock_listeners sk → inherits r = false
}.

(** A disconnected socket, still referenced by closures and continuations. *)
Definition gone (st : state) (sid : string) : Prop :=
  ∃ sk, sockets st !! sid = Some sk ∧ sock_connected sk = false.

(** ** Membership *)

(** The spec's [leave]: remove the first entry matching the connection
    id. *)
Fixpoint remove_first_entry (sid : string) (l : list member) : list member :=
  match l with
  | [] => []
  | m :: l' => if decide (socketId m = sid) then l' else m :: remove_first_entry sid l'
  end.

(** How one input changes the membership list of room [r]: a join-room
    for [r] that gets past line 65 appends one entry, the disconnect of a
    connection that has a closure for [r] removes that connection's entries,
    and nothing else changes the list. *)
Definition members_after_input (st : state) (i : input) (r : string) : list member :=
  match i with
  | Receive sid (JoinRoom (Some r') (Some u)) =>
      if is_connected st sid && bool_decide (r' = r ∧ r' ≠ "" ∧ u ≠ "") && pushable st r
      then members st r ++ [Member sid u]
      else members st r
  | Disconnect sid =>
      if is_connected st sid && bool_decide (r ∈ listeners_of st sid)
      then without_socket sid (members st r)
      else members st r
  | _ => members st r
  end.

(** A join of room [r]: a join-room event for [r] that passes the guard of
    line 54. *)
Definition counts_as_join (r : string) (st : state) (i : input) : bool :=
  match i with
  | Receive sid (JoinRoom rid un) =>
      is_connected st sid && present rid && present un && bool_decide (rid = Some r)
  | _ => false
  end.

(** A leave of room [r]: the disconnect of a connection joined to [r]. *)
Definition counts_as_leave (r : string) (st : state) (i : input) : bool :=
  match i with
  | Disconnect sid =>
      match sockets st !! sid with
      | Some sk => sock_connected sk && bool_decide (r ∈ sock_rooms sk)
      | None => false
      end
  | _ => false
  end.

(** Counts the inputs of a trace that satisfy [f] in the state they
    arrive in. *)
Fixpoint count_along (f : state → input → bool) (st : state) (tr : list input) : nat :=
  match tr with
  | [] => 0
  | i :: tr' => (if f st i then 1 else 0) + count_along f (handle i st).1 tr'
  end.

(** Number of closures for room [r] in a listener list. *)
Definition occurrences (r : string) (l : list string) : nat :=
  length (filter (λ r', r' = r) l).

(** Number of entries of connection [sid] in a membership list. *)
Definition entries_of (sid : string) (l : list member) : nat :=
  length (filter (λ m, socketId m = sid) l).

(** Number of joins of [sid] to [r] that still await the store. *)
Definition pending_joins (st : state) (sid r : string) : nat :=
  length (filter (λ k, k = AwaitFind sid r) (pending st)).

(** A connected socket has as many entries in a room's membership list
    as it has closures for the room plus joins to it that still await the
    store. *)
Definition entries_accounted (st : state) : Prop :=
  ∀ sid r, is_connected st sid = true →
    entries_of sid (members st r) =
      occurrences r (listeners_of st sid) + pending_joins st sid r.







(** ** Whiteboard *)

(** The logs of [r] and [r'] are one array object, so that a [push] through
    the key [r'] shows in the log of [r]. *)
Definition shares (st : state) (r r' : string) : bool :=
  bool_decide (r' = r) ||
  match whiteboardArray st !! r, whiteboardArray st !! r' with
  | Some a, Some a' => bool_decide (a = a')
  | _, _ => false
  end.


(** [whiteboardArray] numbers the logs of [whiteboardData], with numbers
    already given out, and two logs with one number are equal. *)
Record arrays_coherent (st : state) : Prop := {
  ac_numbered : ∀ r, is_Some (whiteboardArray st !! r) ↔ is_Some (whiteboardData st !! r);
  ac_given_out : ∀ r a, whiteboardArray st !! r = Some a → a < arrays st;
  ac_one_array : ∀ r r' a,
    whiteboardArray st !! r = Some a → whiteboardArray st !! r' = Some a →
    whiteboardData st !! r = whiteboardData st !! r'
}.

(** The array an undo or redo carries, numbered [a], is the log of every
    key that has that number. *)
Definition payload_stored (a : nat) (e : client_event) (st : state) : Prop :=
  match e with
  | WhiteboardUndo (Some s) | WhiteboardRedo (Some s) =>
      ∀ r, whiteboardArray st !! r = Some a → whiteboardData st !! r = Some s
  | _ => True
  end.

(** Inputs that carry strokes. *)
Definition carries_strokes (i : input) : bool :=
  match i with
  | Receive _ (WhiteboardDraw _) | Receive _ (WhiteboardUndo _)
  | Receive _ (WhiteboardRedo _) => true
  | _ => false
  end.

(** ** Broadcast scopes *)

(** The socket an input comes from. *)
Definition sender_of (i : input) : option string :=
  match i with
  | Receive sid _ | Disconnect sid => Some sid
  | _ => None
  end.



(** ** Chat history *)

(** The spec's [loadRecent]: the most recent up-to-[n] messages of the
    room, ascending by creation time. *)
Definition most_recent_ascending (n : nat) (r : string) (docs : list message)
    : list message :=
  let sorted := sort_createdAt_asc (filter (λ m, msg_roomId m = r) docs) in
  drop (length sorted - n) sorted.

(** ** Example runs *)

(** Connections a and b in room r1; a joined twice. *)
Definition twice_joined_trace : list input :=
  [ Connection "a"; Connection "b";
    Receive "a" (JoinRoom (Some "r1") (Some "alice"));
    Settle 0 (Resolved 0);
    Receive "b" (JoinRoom (Some "r1") (Some "bob"));
    Settle 0 (Resolved 0);
    Receive "a" (JoinRoom (Some "r1") (Some "alice"));
    Settle 0 (Resolved 0) ].

(** Connections a and b in room r1, one join each. *)
Definition two_in_room_trace : list input :=
  [ Connection "a"; Connection "b";
    Receive "a" (JoinRoom (Some "r1") (Some "alice"));
    Settle 0 (Resolved 0);
    Receive "b" (JoinRoom (Some "r1") (Some "bob"));
    Settle 0 (Resolved 0) ].

(** Connection a in room r1, a chat message queued for the store. *)
Definition one_sender_trace : list input :=
  [ Connection "a";
    Receive "a" (JoinRoom (Some "r1") (Some "alice"));
    Settle 0 (Resolved 0);
    Receive "a" (SendMessage (Some "r1") None (Some "hello")) ].

(** Connection a in room A, nothing else. *)
Definition joined_A_trace : list input :=
  [ Connection "a";
    Receive "a" (JoinRoom (Some "A") (Some "alice"));
    Settle 0 (Resolved 0) ].

(** A non-default task board. *)
Definition board1 : value :=
  VObj [("todo", VArr [VStr "write report"]); ("inprogress", VArr []); ("done", VArr [])].



(** Connection a in room r1 after a draw and an undo. *)
Definition drawn_trace : list input :=
  [ Connection "a";
    Receive "a" (JoinRoom (Some "r1") (Some "alice"));
    Settle 0 (Resolved 0);
    Receive "a" (WhiteboardDraw (VStr "s1"));
    Receive "a" (WhiteboardUndo (Some [VStr "s0"; VStr "s1"])) ].

(** The message stamped [k]. *)
Definition chat_message (k : nat) : message :=
  {| msg_roomId := "r1"; msg_sender := "alice"; msg_text := "msg";
     msg_createdAt := k |}.

(** Messages stamped [1..n]. *)
Definition chat_history (n : nat) : list message := chat_message <$> seq 1 n.

(** One chat message sent by a and stored with stamp [k]. *)
Definition send_and_store (k : nat) : list input :=
  [ Receive "a" (SendMessage (Some "r1") (Some "alice") (Some "msg"));
    Settle 0 (Resolved k) ].

(** Room r1 after 201 stored messages, stamped 1..201. *)
Definition long_chat_trace : list input :=
  [ Connection "a";
    Receive "a" (JoinRoom (Some "r1") (Some "alice"));
    Settle 0 (Resolved 0) ] ++
  (seq 1 201 ≫= send_and_store).

(** A later joiner of room r1. *)
Definition join_r1_trace : list input :=
  [ Connection "b";
    Receive "b" (JoinRoom (Some "r1") (Some "bob"));
    Settle 0 (Resolved 0) ].

(** Connection a tries to join the room named "constructor", twice. *)
Definition constructor_trace : list input :=
  [ Connection "a";
    Receive "a" (JoinRoom (Some "constructor") (Some "alice"));
    Receive "a" (JoinRoom (Some "constructor") (Some "alice")) ].

(** Connection a disconnects while its join to r1 awaits the store. *)
Definition interrupted_join_trace : list input :=
  [ Connection "a";
    Receive "a" (JoinRoom (Some "r1") (Some "alice"));
    Disconnect "a" ].



(** Connection a joins r1 twice and r2 once, then sends an undo: the array
    of the undo is now the log of r1 and of r2. *)
Definition shared_log_trace : list input :=
  [ Connection "a";
    Receive "a" (JoinRoom (Some "r1") (Some "alice"));
    Receive "a" (JoinRoom (Some "r1") (Some "alice"));
    Receive "a" (JoinRoom (Some "r2") (Some "alice"));
    Settle 0 (Resolved 0); Settle 0 (Resolved 0); Settle 0 (Resolved 0);
    Receive "a" (WhiteboardUndo (Some [VStr "s0"])) ].

(** ** Further vocabulary *)

(** The four whiteboard events. *)
Definition whiteboard_event (e : client_event) : bool :=
  match e with
  | WhiteboardDraw _ | WhiteboardUndo _ | WhiteboardRedo _ | WhiteboardClear => true
  | _ => false
  end.

Definition is_join_room (e : client_event) : bool :=
  match e with
  | JoinRoom _ _ | NoPayload JoinRoomEvent => true
  | _ => false
  end.

Definition is_draw (e : client_event) : bool :=
  match e with
  | WhiteboardDraw _ => true
  | _ => false
  end.


(** What the [Message] schema requires of a document: room id, sender and
    text present. *)
Definition well_formed_message (m : message) : Prop :=
  msg_roomId m ≠ "" ∧ msg_sender m ≠ "" ∧ msg_text m ≠ "".

(** Every stored document, and every create still awaited, has the
    required fields. *)
Definition store_well_formed (st : state) : Prop :=
  Forall well_formed_message (collection st) ∧
  ∀ r sender text, AwaitCreate r sender text ∈ pending st →
    r ≠ "" ∧ sender ≠ "" ∧ text ≠ "".

(** Ascending order of creation time. *)
Definition created_before (a b : message) : Prop :=
  (msg_createdAt a ≤ msg_createdAt b)%nat.

(** * Authentication routes (routes/auth.js) *)

(** A document of the [User] collection (models/User.js), with the fields
    the routes read or write. *)
Record user := User {
  user_id : nat;
  user_username : string;
  user_passwordHash : option string
}.

(** What [jwt.sign(payload, secret, options)] is given to sign. *)
Record token := Token {
  tok_id : nat;
  tok_username : string;
  tok_secret : string;
  tok_expiresIn : string
}.

(** The JSON bodies the routes answer with. *)
Inductive body :=
| ErrorBody (error : string)
| AuthBody (tok : token) (name : string) (id : nat).

Record response := Response { res_status : nat; res_body : body }.

(** How an awaited promise settles. *)
Inductive settled (A : Type) :=
| Fulfilled (a : A)
| Failed.

Arguments Fulfilled {A} a.
Arguments Failed {A}.

(** A route handler: it answers, or awaits one operation of the store or
    of bcrypt and goes on with what the operation settles to. *)
Inductive route :=
| Respond (res : response)
| AwaitUserFindOne (name : string) (k : settled (option user) → route)
| AwaitBcryptHash (password : string) (rounds : nat) (k : settled string → route)
| AwaitBcryptCompare (password hash : string) (k : settled bool → route)
| AwaitUserCreate (name passwordHash : string) (k : settled user → route).

(** [process.env.JWT_SECRET || 'devsecret'] *)
Definition JWT_SECRET (env : option string) : string := or_else env "devsecret".

(** [res.status(400).json({ error })] *)
Definition bad_request (error : string) : route :=
  Respond {| res_status := 400; res_body := ErrorBody error |}.

(** The [catch] branch: [res.status(500).json({ error: 'Server error' })] *)
Definition server_error : route :=
  Respond {| res_status := 500; res_body := ErrorBody "Server error" |}.

(** [jwt.sign({ id: user._id, username: user.username }, JWT_SECRET,
    { expiresIn: '7d' })] *)
Definition sign_token (secret : string) (u : user) : token :=
  {| tok_id := user_id u; tok_username := user_username u;
     tok_secret := secret; tok_expiresIn := "7d" |}.

(** [res.json({ token, username: user.username, id: user._id })] *)
Definition authenticated (secret : string) (u : user) : route :=
  Respond {| res_status := 200;
             res_body := AuthBody (sign_token secret u) (user_username u) (user_id u) |}.

(** POST /signup, lines 11-28 *)
Definition signup (secret : string) (username password : option string) : route :=
  match username, password with
  | Some u, Some p =>
      if negb (present username) || negb (present password)
      then bad_request "Missing fields"
      else
        AwaitUserFindOne u (λ existing,
          match existing with
          | Failed => server_error
          | Fulfilled (Some _) => bad_request "User exists"
          | Fulfilled None =>
              AwaitBcryptHash p 10 (λ hash,
                match hash with
                | Failed => server_error
                | Fulfilled h =>
                    AwaitUserCreate u h (λ created,
                      match created with
                      | Failed => server_error
                      | Fulfilled usr => authenticated secret usr
                      end)
                end)
          end)
  | _, _ => bad_request "Missing fields"
  end.

(** POST /login, lines 31-48 *)
Definition login (secret : string) (username password : option string) : route :=
  match username, password with
  | Some u, Some p =>
      if negb (present username) || negb (present password)
      then bad_request "Missing fields"
      else
        AwaitUserFindOne u (λ found,
          match found with
          | Failed => server_error
          | Fulfilled None => bad_request "Invalid credentials"
          | Fulfilled (Some usr) =>
              AwaitBcryptCompare p (or_else (user_passwordHash usr) "") (λ ok,
                match ok with
                | Failed => server_error
                | Fulfilled false => bad_request "Invalid credentials"
                | Fulfilled true => authenticated secret usr
                end)
          end)
  | _, _ => bad_request "Missing fields"
  end.

(** The two bcrypt operations the routes use. *)
Record bcrypt := Bcrypt {
  bcrypt_hash : string → nat → string;
  bcrypt_compare : string → string → bool
}.

(** [User.findOne({ username })]: the first document with that name. *)
Definition findOne (name : string) (users : list user) : option user :=
  head (filter (λ x, user_username x = name) users).

(** Serves one request against the user collection, with no other request
    in between.  [id] is the [_id] the store gives a created document;
    [fail_at = Some n] makes the [n]-th awaited operation (from 0) reject,
    [None] lets all succeed. *)
Fixpoint serve (B : bcrypt) (id : nat) (fail_at : option nat) (rt : route)
    (users : list user) : response * list user :=
  let failing := match fail_at with Some 0 => true | _ => false end in
  let later := match fail_at with Some (S n) => Some n | _ => None end in
  match rt with
  | Respond res => (res, users)
  | AwaitUserFindOne name k =>
      if failing then serve B id None (k Failed) users
      else serve B id later (k (Fulfilled (findOne name users))) users
  | AwaitBcryptHash password rounds k =>
      if failing then serve B id None (k Failed) users
      else serve B id later (k (Fulfilled (bcrypt_hash B password rounds))) users
  | AwaitBcryptCompare password hash k =>
      if failing then serve B id None (k Failed) users
      else serve B id later (k (Fulfilled (bcrypt_compare B password hash))) users
  | AwaitUserCreate name passwordHash k =>
      if failing then serve B id None (k Failed) users
      else
        let usr := {| user_id := id; user_username := name;
                      user_passwordHash := Some passwordHash |} in
        serve B id later (k (Fulfilled usr)) (users ++ [usr])
  end.

(** The answers of the two routes. *)
Definition refused (error : string) : response :=
  {| res_status := 400; res_body := ErrorBody error |}.

Definition failed_500 : response :=
  {| res_status := 500; res_body := ErrorBody "Server error" |}.

Definition granted (secret : string) (u : user) : response :=
  {| res_status := 200;
     res_body := AuthBody (sign_token secret u) (user_username u) (user_id u) |}.

(** A toy bcrypt for examples: the hash is the password behind a marker. *)
Definition toy_bcrypt : bcrypt :=
  {| bcrypt_hash := λ p _, "$2b$" +:+ p;
     bcrypt_compare := λ p h, String.eqb h ("$2b$" +:+ p) |}.

(** * Proofs *)

(** ** Tactics *)

(** Unfolds the combinators of a handler applied to a state. *)
Ltac step_action :=
  unfold and_then, emit_read, emit, modify, skip, suspend, socket_join,
    rooms_push, register_listeners, close_socket; simpl.

Ltac unfold_handlers :=
  unfold on_whiteboard_draw, on_whiteboard_undo, on_whiteboard_redo,
    on_whiteboard_clear, on_send_message, on_tasks_get, on_tasks_update,
    on_offer, on_answer, on_ice_candidate.


(** ** Basic facts about actions and runs *)

Lemma and_then_state (a b : action) st :
  ((a >>> b) st).1 = (b (a st).1).1.
Proof. unfold and_then. destruct (a st) as [st1 o1]. simpl. by destruct (b st1). Qed.

Lemma and_then_out (a b : action) st :
  ((a >>> b) st).2 = (a st).2 ++ (b (a st).1).2.
Proof. unfold and_then. destruct (a st) as [st1 o1]. simpl. by destruct (b st1). Qed.

Lemma for_each_nil {A} (f : A → action) st : for_each f [] st = (st, []).
Proof. done. Qed.

Lemma for_each_cons {A} (f : A → action) x l :
  for_each f (x :: l) = f x >>> for_each f l.
Proof. done. Qed.

(** A property kept by every iteration is kept by the loop. *)
Lemma for_each_preserves {A} (P : state → Prop) (f : A → action) (l : list A) :
  (∀ x st, x ∈ l → P st → P (f x st).1) →
  ∀ st, P st → P (for_each f l st).1.
Proof.
  induction l as [|x l IH]; intros Hf st HP; [done|].
  rewrite for_each_cons, and_then_state.
  apply IH.
  - intros y st' Hy. apply Hf. by right.
  - apply Hf; [by left | done].
Qed.

Lemma run_from_snoc st tr i :
  run_from st (tr ++ [i]) =
    ((handle i (run_from st tr).1).1,
     (run_from st tr).2 ++ (handle i (run_from st tr).1).2).
Proof.
  unfold run_from. rewrite foldl_app. simpl.
  by destruct (handle i _).
Qed.

Lemma run_snoc tr i : run (tr ++ [i]) = (handle i (run tr)).1.
Proof. unfold run. by rewrite run_from_snoc. Qed.

Lemma run_nil : run [] = init.
Proof. done. Qed.

Lemma run_from_app st tr1 tr2 :
  (run_from st (tr1 ++ tr2)).1 = (run_from (run_from st tr1).1 tr2).1.
Proof.
  revert tr1. induction tr2 as [|i tr2 IH] using rev_ind; intros tr1.
  - by rewrite app_nil_r.
  - rewrite app_assoc, !run_from_snoc. simpl. by rewrite IH.
Qed.



Lemma run_app tr1 tr2 : run (tr1 ++ tr2) = (run_from (run tr1) tr2).1.
Proof. apply run_from_app. Qed.


Lemma reachable_step st i : reachable st → reachable (handle i st).1.
Proof. intros [tr ->]. exists (tr ++ [i]). by rewrite run_snoc. Qed.

Lemma reachable_run_from st tr : reachable st → reachable (run_from st tr).1.
Proof.
  intros Hst. induction tr as [|i tr IH] using rev_ind; [done|].
  rewrite run_from_snoc. simpl. by apply reachable_step.
Qed.

(** Induction over the reachable states. *)
Lemma reachable_induction (P : state → Prop) :
  P init →
  (∀ st i, reachable st → P st → P (handle i st).1) →
  ∀ st, reachable st → P st.
Proof.
  intros Hinit Hstep st [tr ->].
  induction tr as [|i tr IH] using rev_ind; [done|].
  rewrite run_snoc. apply Hstep; [by exists tr | done].
Qed.

(** ** What the operations on the stores leave alone *)

Lemma with_escaped_same st : with_escaped (λ _, escaped st) st = st.
Proof. by destruct st. Qed.

Lemma throw_eq e st : throw e st = (with_escaped (λ _, escaped st ++ [e]) st, []).
Proof. done. Qed.

(** A loop of listeners that all throw on their argument changes [escaped]
    only. *)
Lemma for_each_throw {A} (e : escape) (l : list A) st :
  ∃ es, for_each (λ _, throw e) l st = (with_escaped (λ _, es) st, []).
Proof.
  revert st. induction l as [|x l IH]; intros st.
  - exists (escaped st). by rewrite for_each_nil, with_escaped_same.
  - rewrite for_each_cons. unfold and_then. rewrite throw_eq.
    destruct (IH (with_escaped (λ _, escaped st ++ [e]) st)) as [es ->].
    by exists es.
Qed.

Lemma on_no_payload_eq sid name st :
  ∃ es, on_no_payload sid name st = (with_escaped (λ _, es) st, []).
Proof.
  destruct name; unfold on_no_payload;
    try (destruct (listeners_of st sid);
         [exists (escaped st); unfold skip; by rewrite with_escaped_same
         |eexists; by rewrite throw_eq]).
  - eexists. by rewrite throw_eq.
  - apply for_each_throw.
Qed.

Lemma whiteboardData_push_stroke r x st r' :
  whiteboardData (push_stroke r x st) !! r' =
    match whiteboardArray st !! r with
    | Some a =>
        (λ log, if bool_decide (whiteboardArray st !! r' = Some a)
                then log ++ [x] else log) <$> whiteboardData st !! r'
    | None => whiteboardData st !! r'
    end.
Proof.
  unfold push_stroke. destruct (whiteboardArray st !! r) as [a|]; [|done].
  simpl. rewrite map_lookup_imap. by destruct (whiteboardData st !! r').
Qed.

Lemma push_stroke_keeps_keys r x st r' :
  is_Some (whiteboardData (push_stroke r x st) !! r') ↔ is_Some (whiteboardData st !! r').
Proof.
  rewrite whiteboardData_push_stroke. destruct (whiteboardArray st !! r); [|done].
  by rewrite fmap_is_Some.
Qed.

(** [push] changes the logs and nothing else. *)
Lemma push_stroke_frame r x st :
  ∃ W, push_stroke r x st = with_whiteboardData (λ _, W) st.
Proof.
  unfold push_stroke. destruct (whiteboardArray st !! r); [by eexists|].
  exists (whiteboardData st). by destruct st.
Qed.

(** The state the three whiteboard writes leave. *)
Lemma on_whiteboard_draw_state sid r x st :
  (on_whiteboard_draw sid r x st).1 =
    push_stroke r x (match whiteboardData st !! r with
                     | Some _ => st
                     | None => new_log r st
                     end).
Proof.
  unfold on_whiteboard_draw, and_then, modify, emit, skip.
  by destruct (whiteboardData st !! r).
Qed.

Lemma on_whiteboard_undo_state a sid r strokes st :
  (on_whiteboard_undo a sid r strokes st).1 =
    match strokes with
    | Some s => store_log r a s st
    | None => new_log r st
    end.
Proof. by destruct strokes. Qed.

Lemma on_whiteboard_redo_state a sid r strokes st :
  (on_whiteboard_redo a sid r strokes st).1 =
    match strokes with
    | Some s => store_log r a s st
    | None => new_log r st
    end.
Proof. by destruct strokes. Qed.

Lemma on_whiteboard_clear_state sid r st :
  (on_whiteboard_clear sid r st).1 = new_log r st.
Proof. done. Qed.

(** An assignment to [taskBoards] changes [taskBoards] or its prototype. *)
Lemma taskBoards_set_frame r b st :
  ∃ T P, taskBoards_set r b st =
         with_taskBoardsProto (λ _, P) (with_taskBoards (λ _, T) st).
Proof.
  unfold taskBoards_set.
  destruct (String.eqb r "__proto__" && proto_is_accessor st).
  - destruct (is_object b).
    + exists (taskBoards st), (Some b). by destruct st.
    + exists (taskBoards st), (taskBoardsProto st). by destruct st.
  - exists (<[r := b]> (taskBoards st)), (taskBoardsProto st). by destruct st.
Qed.

Lemma taskBoards_set_own r b st :
  r ≠ "__proto__" → taskBoards_set r b st = with_taskBoards (<[r := b]>) st.
Proof.
  intros Hr%String.eqb_neq. unfold taskBoards_set. by rewrite Hr.
Qed.

(** What a closure's listener leaves of the state: the membership lists, the
    sockets, the collection and the errors as they were; the queue with at
    most a create added; no stroke log but that of its own room added. *)
Lemma closure_handler_frame a sid r e st :
  let st' := (closure_handler a sid r e st).1 in
  rooms st' = rooms st ∧ sockets st' = sockets st ∧
  collection st' = collection st ∧ escaped st' = escaped st ∧
  (pending st' = pending st ∨ ∃ r' s t, pending st' = pending st ++ [AwaitCreate r' s t]) ∧
  (∀ r', is_Some (whiteboardData st' !! r') → r' = r ∨ is_Some (whiteboardData st !! r')).
Proof.
  assert (∀ st1 : state,
    rooms st1 = rooms st → sockets st1 = sockets st →
    collection st1 = collection st → escaped st1 = escaped st →
    pending st1 = pending st →
    (∀ r', is_Some (whiteboardData st1 !! r') → r' = r ∨ is_Some (whiteboardData st !! r')) →
    rooms st1 = rooms st ∧ sockets st1 = sockets st ∧
    collection st1 = collection st ∧ escaped st1 = escaped st ∧
    (pending st1 = pending st ∨
     ∃ r' s t, pending st1 = pending st ++ [AwaitCreate r' s t]) ∧
    (∀ r', is_Some (whiteboardData st1 !! r') → r' = r ∨ is_Some (whiteboardData st !! r')))
    as Hquiet by (intros; split_and!; auto).
  assert (∀ r' : string, is_Some (whiteboardData (new_log r st) !! r') →
            r' = r ∨ is_Some (whiteboardData st !! r')) as Hnew.
  { intros r0. simpl. rewrite lookup_insert_is_Some'. intros [<-|?]; auto. }
  destruct e as [rid un|x|xs|xs| |r' sender text|r'|r' b|t sdp|t sdp|t c|name];
    cbn [closure_handler]; cbn zeta.
  - apply Hquiet; auto.
  - rewrite on_whiteboard_draw_state.
    destruct (push_stroke_frame r x (match whiteboardData st !! r with
                                     | Some _ => st | None => new_log r st end))
      as [W HW].
    apply Hquiet; try (rewrite HW; by destruct (whiteboardData st !! r)).
    intros r0. rewrite push_stroke_keeps_keys.
    destruct (whiteboardData st !! r) eqn:Hr; [by right|]. apply Hnew.
  - rewrite on_whiteboard_undo_state. destruct xs; apply Hquiet; auto.
    intros r0. simpl. rewrite lookup_insert_is_Some'. intros [<-|?]; auto.
  - rewrite on_whiteboard_redo_state. destruct xs; apply Hquiet; auto.
    intros r0. simpl. rewrite lookup_insert_is_Some'. intros [<-|?]; auto.
  - rewrite on_whiteboard_clear_state. apply Hquiet; auto.
  - unfold on_send_message. destruct r' as [r'|], text as [text|];
      try (apply Hquiet; by auto).
    destruct (negb _ || negb _); [apply Hquiet; by auto|].
    split_and!; auto. right. by eexists _, _, _.
  - apply Hquiet; auto.
  - unfold on_tasks_update. destruct r' as [r'|]; [|apply Hquiet; by auto].
    destruct (negb _ || negb _); [apply Hquiet; by auto|].
    unfold and_then, modify, emit. cbn [fst].
    destruct (taskBoards_set_frame r' b st) as (T & P & ->).
    apply Hquiet; auto.
  - unfold on_offer. destruct t; [|apply Hquiet; by auto].
    destruct (present _); apply Hquiet; auto.
  - unfold on_answer. destruct t; [|apply Hquiet; by auto].
    destruct (present _); apply Hquiet; auto.
  - unfold on_ice_candidate. destruct t; [|apply Hquiet; by auto].
    destruct (present _); apply Hquiet; auto.
  - apply Hquiet; auto.
Qed.

Lemma closure_handler_rooms a sid r e st :
  rooms (closure_handler a sid r e st).1 = rooms st.
Proof. apply closure_handler_frame. Qed.

Lemma closure_handler_sockets a sid r e st :
  sockets (closure_handler a sid r e st).1 = sockets st.
Proof. apply closure_handler_frame. Qed.

Lemma closure_handler_collection a sid r e st :
  collection (closure_handler a sid r e st).1 = collection st.
Proof. apply closure_handler_frame. Qed.

Lemma closure_handler_awaited_joins a sid r e st s r' :
  AwaitFind s r' ∈ pending (closure_handler a sid r e st).1 ↔
  AwaitFind s r' ∈ pending st.
Proof.
  destruct (closure_handler_frame a sid r e st)
    as (_ & _ & _ & _ & [->|(r0 & s0 & t0 & ->)] & _); [done|].
  rewrite elem_of_app, list_elem_of_singleton. split; [by intros [?|?]|by left].
Qed.

Lemma closures_keep_rooms a sid e l st :
  rooms (for_each (λ r, closure_handler a sid r e) l st).1 = rooms st.
Proof.
  apply (for_each_preserves (λ st', rooms st' = rooms st)
           (λ r, closure_handler a sid r e)); [|done].
  intros r st' _ <-. apply closure_handler_rooms.
Qed.

Lemma closures_keep_sockets a sid e l st :
  sockets (for_each (λ r, closure_handler a sid r e) l st).1 = sockets st.
Proof.
  apply (for_each_preserves (λ st', sockets st' = sockets st)
           (λ r, closure_handler a sid r e)); [|done].
  intros r st' _ <-. apply closure_handler_sockets.
Qed.

Lemma closures_keep_collection a sid e l st :
  collection (for_each (λ r, closure_handler a sid r e) l st).1 = collection st.
Proof.
  apply (for_each_preserves (λ st', collection st' = collection st)
           (λ r, closure_handler a sid r e)); [|done].
  intros r st' _ <-. apply closure_handler_collection.
Qed.

(** The three shapes of a client event: join-room runs the listener of line
    53; an event without payload ends in errors; every other event runs the
    listeners of the sender's closures. *)
Lemma dispatch_cases sid e st :
  (∃ rid un, e = JoinRoom rid un ∧
             dispatch sid e st = on_join_room sid rid un st) ∨
  (∃ name es, e = NoPayload name ∧
              dispatch sid e st = (with_escaped (λ _, es) st, [])) ∨
  (is_join_room e = false ∧
   dispatch sid e st =
     for_each (λ r, closure_handler (arrays st) sid r e) (listeners_of st sid) st).
Proof.
  destruct e as [rid un| | | | | | | | | | |name];
    try (right; right; by split).
  - left. by exists rid, un.
  - right. left. destruct (on_no_payload_eq sid name st) as [es Hes].
    by exists name, es.
Qed.

(** ** Preservation of the invariant *)

Lemma members_lookup st r l : rooms st !! r = Some l → members st r = l.
Proof. unfold members. by intros ->. Qed.

Lemma members_None st r : rooms st !! r = None → members st r = [].
Proof. unfold members. by intros ->. Qed.

Lemma members_elem_lookup st r m :
  m ∈ members st r → ∃ l, rooms st !! r = Some l ∧ m ∈ l.
Proof.
  unfold members. destruct (rooms st !! r) as [l|]; simpl.
  - intros. by exists l.
  - by intros ?%not_elem_of_nil.
Qed.

Lemma is_connected_true st sid :
  is_connected st sid = true ↔
  ∃ sk, sockets st !! sid = Some sk ∧ sock_connected sk = true.
Proof.
  unfold is_connected. destruct (sockets st !! sid) as [sk|]; split.
  - intros. by exists sk.
  - by intros (sk' & [= <-] & ?).
  - done.
  - by intros (? & ? & ?).
Qed.

(** The invariant reads the membership lists, the keys of the stroke logs,
    the sockets and the queued joins. *)
Lemma inv_frame st st' :
  rooms st' = rooms st → sockets st' = sockets st →
  (∀ s r, AwaitFind s r ∈ pending st' → AwaitFind s r ∈ pending st) →
  (∀ r, is_Some (whiteboardData st' !! r) → is_Some (rooms st !! r)) →
  inv st → inv st'.
Proof.
  intros HR HS HP HW [].
  split; unfold members in *; rewrite ?HR, ?HS; eauto.
Qed.

Lemma inv_same_fields st st' :
  rooms st' = rooms st → whiteboardData st' = whiteboardData st →
  sockets st' = sockets st →
  (∀ s r, AwaitFind s r ∈ pending st' → AwaitFind s r ∈ pending st) →
  inv st → inv st'.
Proof.
  intros HR HW HS HP Hinv. apply (inv_frame st); try done.
  rewrite HW. apply (inv_whiteboard_room _ Hinv).
Qed.

Lemma inv_init : inv init.
Proof.
  split; unfold members; simpl; intros *; rewrite ?lookup_empty;
    try done; try (by intros ?%not_elem_of_nil); by intros [].
Qed.

Lemma inv_connection st sid :
  inv st → sockets st !! sid = None →
  inv (with_sockets (<[sid := {| sock_connected := true; sock_rooms := ∅;
                                  sock_listeners := [] |}]>) st).
Proof.
  intros [] Hfresh. split; unfold members in *; simpl.
  - eauto.
  - intros r m Hm. rewrite lookup_insert_is_Some'. right. eauto.
  - intros s sk r. rewrite lookup_insert. case_decide; [|by eauto].
    intros [= <-]. simpl. set_solver.
  - intros r m sk Hm. rewrite lookup_insert. case_decide as Heq; [|by eauto].
    apply inv_entry_known0 in Hm. rewrite <-Heq, Hfresh in Hm. by destruct Hm.
  - intros s sk r. rewrite lookup_insert. case_decide; [|by eauto].
    intros [= <-]. simpl. by intros _ ?%not_elem_of_nil.
  - intros s r Hp. rewrite lookup_insert_is_Some'. right. eauto.
  - intros s sk r Hp. rewrite lookup_insert. case_decide as Heq; [|by eauto].
    apply inv_pending_known0 in Hp. rewrite <-Heq, Hfresh in Hp. by destruct Hp.
  - eauto.
  - eauto.
  - eauto.
  - intros s sk r. rewrite lookup_insert. case_decide; [|by eauto].
    intros [= <-]. simpl. by intros ?%not_elem_of_nil.
Qed.

(** *** join-room, before the await *)

Lemma present_Some s : present (Some s) = true ↔ s ≠ "".
Proof.
  simpl. rewrite negb_true_iff. split.
  - intros H ->. by rewrite String.eqb_refl in H.
  - intros H. by apply String.eqb_neq.
Qed.

(** The guard of line 54. *)
Lemma join_room_fields (roomId username : option string) :
  (present roomId = false ∨ present username = false) ∨
  ∃ r u, roomId = Some r ∧ username = Some u ∧ r ≠ "" ∧ u ≠ "".
Proof.
  destruct roomId as [r|]; [|by left; left].
  destruct username as [u|]; [|by left; right].
  destruct (present (Some r)) eqn:Hr; [|by left; left].
  destruct (present (Some u)) eqn:Hu; [|by left; right].
  right. exists r, u. by rewrite <-!present_Some.
Qed.

Lemma pushable_not_inherited st r : inv st → pushable st r = true → inherits r = false.
Proof.
  intros Hinv. unfold pushable. destruct (rooms st !! r) eqn:Hr.
  - intros _. apply (inv_room_not_inherited _ Hinv). by rewrite Hr.
  - by intros ?%negb_true_iff.
Qed.

Lemma not_pushable st r :
  pushable st r = false → rooms st !! r = None ∧ inherits r = true.
Proof.
  unfold pushable. destruct (rooms st !! r); [done|]. by intros ?%negb_false_iff.
Qed.

Lemma not_inherited_pushable st r : inherits r = false → pushable st r = true.
Proof. unfold pushable. intros ->. by destruct (rooms st !! r). Qed.

Lemma on_join_room_accepted sid r u st :
  r ≠ "" → u ≠ "" → pushable st r = true →
  on_join_room sid (Some r) (Some u) st =
    (after_join sid r u st,
     [ {| em_scope := ToRoom r;
          em_event := UsersUpdate (members st r ++ [Member sid u]);
          em_to := room_sockets (after_join sid r u st) r |};
       {| em_scope := ToRoomExcept sid r;
          em_event := UserJoined (Member sid u);
          em_to := room_sockets (after_join sid r u st) r ∖ {[sid]} |} ]).
Proof.
  intros Hr%present_Some Hu%present_Some Hp.
  unfold on_join_room. rewrite Hr, Hu. cbn [negb orb].
  unfold and_then at 1, socket_join, modify at 1.
  change (pushable (with_sockets (alter (enter_room r) sid) st) r)
    with (pushable st r).
  rewrite Hp. step_action.
  unfold after_join, members. simpl. by rewrite lookup_insert_eq.
Qed.

Lemma on_join_room_failed sid r u st :
  r ≠ "" → u ≠ "" → pushable st r = false →
  on_join_room sid (Some r) (Some u) st = (after_failed_join sid r st, []).
Proof.
  intros Hr%present_Some Hu%present_Some Hp.
  unfold on_join_room. rewrite Hr, Hu. cbn [negb orb].
  unfold and_then at 1, socket_join, modify at 1.
  change (pushable (with_sockets (alter (enter_room r) sid) st) r)
    with (pushable st r).
  by rewrite Hp.
Qed.

Lemma on_join_room_rejected sid roomId username st :
  present roomId = false ∨ present username = false →
  on_join_room sid roomId username st = (st, []).
Proof.
  unfold on_join_room.
  destruct roomId, username; try done.
  intros [-> | ->]; by rewrite ?orb_true_r.
Qed.

(** Case analysis on a join-room event: refused by the guard, accepted, or
    ended at line 65. *)
Ltac join_cases rid un st :=
  let r := fresh "r" in
  let u := fresh "u" in
  let Hr := fresh "Hr" in
  let Hu := fresh "Hu" in
  let Hp := fresh "Hp" in
  destruct (join_room_fields rid un) as [?|(r & u & -> & -> & Hr & Hu)];
  [ rewrite on_join_room_rejected by assumption
  | destruct (pushable st r) eqn:Hp;
    [ rewrite (on_join_room_accepted _ r u st Hr Hu Hp)
    | rewrite (on_join_room_failed _ r u st Hr Hu Hp) ] ].

Lemma members_after_join sid r u st r' :
  members (after_join sid r u st) r' =
    if decide (r = r') then members st r ++ [Member sid u] else members st r'.
Proof.
  unfold members, after_join. simpl. rewrite lookup_insert.
  by case_decide; subst.
Qed.

Lemma sockets_after_join sid r u st s :
  sockets (after_join sid r u st) !! s =
    if decide (sid = s) then enter_room r <$> sockets st !! sid else sockets st !! s.
Proof. unfold after_join. simpl. apply lookup_alter. Qed.

Lemma inv_after_join sid r u st :
  inv st → is_connected st sid = true → pushable st r = true →
  inv (after_join sid r u st).
Proof.
  intros Hinv (sk0 & Hsk0 & Hc0)%is_connected_true Hpush.
  pose proof (pushable_not_inherited _ _ Hinv Hpush) as Hplain.
  destruct Hinv as [Hne Hek Hje Hej Hlj Hpk Hpj Hwr Hrn Hpn Hln].
  split.
  - intros r' l. unfold after_join. simpl. rewrite lookup_insert.
    case_decide; [|by eauto]. intros [= <-]. by destruct (default _ _).
  - intros r' m. rewrite members_after_join, sockets_after_join.
    assert (∀ m', m' ∈ members st r' →
      is_Some (if decide (sid = socketId m') then enter_room r <$> sockets st !! sid
               else sockets st !! socketId m')) as Hold.
    { intros m' Hm'. case_decide; [rewrite Hsk0; by eexists | by eauto]. }
    case_decide; subst; [|by auto].
    intros [?| ->%list_elem_of_singleton]%elem_of_app; [by auto|].
    simpl. rewrite decide_True by done. rewrite Hsk0. by eexists.
  - intros s sk r'. rewrite sockets_after_join, members_after_join.
    case_decide as Hs.
    + subst s. rewrite Hsk0. intros [= <-]. simpl. intros Hc.
      rewrite elem_of_union, elem_of_singleton. intros [->|Hin] Hni.
      * rewrite decide_True by done. exists (Member sid u).
        split; [|done]. apply elem_of_app. right. by left.
      * destruct (Hje _ _ _ Hsk0 Hc Hin Hni) as (m & Hm & Hms).
        exists m. split; [|done]. case_decide; subst; [|done].
        apply elem_of_app. by left.
    + intros Hsk Hc Hin Hni. destruct (Hje _ _ _ Hsk Hc Hin Hni) as (m & Hm & Hms).
      exists m. split; [|done]. case_decide; subst; [|done].
      apply elem_of_app. by left.
  - intros r' m sk. rewrite sockets_after_join, members_after_join.
    intros Hm Hsk Hc.
    assert (r' = r ∧ socketId m = sid ∨ m ∈ members st r') as [[-> Hs]|Hold].
    { destruct (decide (r = r')) as [->|]; [|by right].
      apply elem_of_app in Hm as [?| ->%list_elem_of_singleton]; [by right|by left]. }
    + rewrite decide_True in Hsk by done. rewrite Hsk0 in Hsk.
      injection Hsk as <-. simpl. set_solver.
    + case_decide as Hs.
      * rewrite Hsk0 in Hsk. injection Hsk as <-. simpl. simpl in Hc.
        assert (sockets st !! socketId m = Some sk0) as Hsk1 by (by rewrite <-Hs).
        specialize (Hej _ _ _ Hold Hsk1 Hc). set_solver.
      * eauto.
  - intros s sk r'. rewrite sockets_after_join. case_decide as Hs; [|by eauto].
    subst s. rewrite Hsk0. intros [= <-]. simpl. intros Hc Hl.
    specialize (Hlj _ _ _ Hsk0 Hc Hl). set_solver.
  - intros s r'. rewrite sockets_after_join. unfold after_join. simpl.
    intros [Hp|Hp%list_elem_of_singleton]%elem_of_app.
    + case_decide; [rewrite Hsk0; by eexists | by eauto].
    + injection Hp as -> ->. rewrite decide_True by done. rewrite Hsk0. by eexists.
  - intros s sk r'. rewrite sockets_after_join. unfold after_join. simpl.
    intros [Hp|Hp%list_elem_of_singleton]%elem_of_app.
    + case_decide as Hs; [|by eauto]. subst s. rewrite Hsk0. intros [= <-]. simpl.
      intros Hc. specialize (Hpj _ _ _ Hp Hsk0 Hc). set_solver.
    + injection Hp as -> ->. rewrite decide_True by done. rewrite Hsk0.
      intros [= <-]. simpl. set_solver.
  - intros r'. unfold after_join. simpl. rewrite lookup_insert_is_Some'.
    intros ?. right. eauto.
  - intros r'. unfold after_join. simpl. rewrite lookup_insert_is_Some'.
    intros [<-|?]; eauto.
  - intros s r'. unfold after_join. simpl.
    intros [Hp|Hp%list_elem_of_singleton]%elem_of_app; [by eauto|].
    by injection Hp as -> ->.
  - intros s sk r'. rewrite sockets_after_join. case_decide as Hs; [|by eauto].
    subst s. rewrite Hsk0. intros [= <-]. simpl. eauto.
Qed.

(** A socket that entered a transport room whose name is inherited: the
    invariant asks nothing of that room. *)
Lemma inv_after_failed_join sid r st :
  inv st → inherits r = true → inv (after_failed_join sid r st).
Proof.
  intros [Hne Hek Hje Hej Hlj Hpk Hpj Hwr Hrn Hpn Hln] Hinh.
  assert (∀ s sk, alter (enter_room r) sid (sockets st) !! s = Some sk →
          ∃ sk0, sockets st !! s = Some sk0 ∧
                 sock_connected sk = sock_connected sk0 ∧
                 sock_listeners sk = sock_listeners sk0 ∧
                 sock_rooms sk0 ⊆ sock_rooms sk ∧
                 (∀ r', r' ∈ sock_rooms sk → r' = r ∨ r' ∈ sock_rooms sk0)) as Hlook.
  { intros s sk. rewrite lookup_alter. case_decide as Hs.
    - subst s. destruct (sockets st !! sid) as [sk0|]; [|done]. simpl.
      intros [= <-]. exists sk0. simpl. split_and!; try done; set_solver.
    - intros Hsk. exists sk. split_and!; try done. auto. }
  split; unfold after_failed_join, members in *; simpl; try done.
  - intros r' m Hm. rewrite lookup_alter_is_Some. eauto.
  - intros s sk r' (sk0 & Hsk0 & Hc & _ & _ & Hback)%Hlook. rewrite Hc.
    intros Hc0 [->|Hin]%Hback Hni; [congruence|eauto].
  - intros r' m sk Hm (sk0 & Hsk0 & Hc & _ & Hsub & _)%Hlook. rewrite Hc.
    intros Hc0. apply Hsub. eauto.
  - intros s sk r' (sk0 & Hsk0 & Hc & Hl & Hsub & _)%Hlook. rewrite Hc, Hl.
    intros Hc0 Hin. apply Hsub. eauto.
  - intros s r' Hp. rewrite lookup_alter_is_Some. eauto.
  - intros s sk r' Hp (sk0 & Hsk0 & Hc & _ & Hsub & _)%Hlook. rewrite Hc.
    intros Hc0. apply Hsub. eauto.
  - intros s sk r' (sk0 & Hsk0 & _ & Hl & _)%Hlook. rewrite Hl. eauto.
Qed.

(** *** The listeners of a closure *)

Lemma closure_handler_inv a sid r e st :
  inv st → is_Some (rooms st !! r) → inv (closure_handler a sid r e st).1.
Proof.
  intros Hinv Hr.
  destruct (closure_handler_frame a sid r e st) as (HR & HS & _ & _ & _ & HW).
  apply (inv_frame st); try done.
  - intros s r'. by rewrite closure_handler_awaited_joins.
  - intros r' [->|?]%HW; [done|]. by apply (inv_whiteboard_room _ Hinv).
Qed.

(** A connected socket's closures are closures of rooms that have a
    membership list. *)
Lemma listener_room_exists st sid r :
  inv st → is_connected st sid = true → r ∈ listeners_of st sid →
  ∃ m, m ∈ members st r ∧ socketId m = sid.
Proof.
  intros Hinv (sk & Hsk & Hc)%is_connected_true. unfold listeners_of.
  rewrite Hsk. intros Hl.
  eapply inv_joined_entry; eauto using inv_listener_joined, inv_listener_not_inherited.
Qed.

Lemma elem_members_is_Some st r m : m ∈ members st r → is_Some (rooms st !! r).
Proof. intros (l & -> & _)%members_elem_lookup. by eexists. Qed.

Lemma dispatch_closures_inv a sid e l st :
  inv st → (∀ r, r ∈ l → is_Some (rooms st !! r)) →
  inv (for_each (λ r, closure_handler a sid r e) l st).1.
Proof.
  intros Hinv Hl.
  apply (for_each_preserves (λ st', inv st' ∧ rooms st' = rooms st)
           (λ r, closure_handler a sid r e) l); [|done].
  intros r st' Hr [Hinv' HR]. split.
  - apply closure_handler_inv; [done|]. rewrite HR. auto.
  - by rewrite closure_handler_rooms.
Qed.

Lemma inv_with_escaped f st : inv st → inv (with_escaped f st).
Proof. by apply inv_same_fields. Qed.

Lemma dispatch_inv sid e st :
  inv st → is_connected st sid = true → inv (dispatch sid e st).1.
Proof.
  intros Hinv Hc.
  destruct (dispatch_cases sid e st)
    as [(rid & un & -> & ->)|[(name & es & -> & ->)|[He ->]]].
  - join_cases rid un st.
    + done.
    + by apply inv_after_join.
    + apply inv_after_failed_join; [done|]. by apply not_pushable in Hp as [_ ?].
  - by apply inv_with_escaped.
  - apply dispatch_closures_inv; [done|]. intros r Hr.
    destruct (listener_room_exists st sid r) as (m & Hm & _); try done.
    by eapply elem_members_is_Some.
Qed.

(** *** disconnect *)

Lemma on_disconnect_unknown sid r st :
  rooms st !! r = None → on_disconnect sid r st = (st, []).
Proof. unfold on_disconnect. by intros ->. Qed.

Lemma on_disconnect_known sid r l st :
  rooms st !! r = Some l →
  on_disconnect sid r st =
    (let st1 := with_rooms (<[r := without_socket sid l]>) st in
     if bool_decide (length (without_socket sid l) = 0) then reclaim r st1 else st1,
     [ {| em_scope := ToRoom r;
          em_event := UsersUpdate (without_socket sid l);
          em_to := room_sockets st r |};
       {| em_scope := ToRoomExcept sid r;
          em_event := UserLeft sid;
          em_to := room_sockets st r ∖ {[sid]} |} ]).
Proof.
  unfold on_disconnect. intros ->. step_action.
  unfold members. simpl. rewrite lookup_insert_eq. simpl.
  by destruct (bool_decide _).
Qed.

Lemma on_disconnect_sockets sid r st :
  sockets (on_disconnect sid r st).1 = sockets st.
Proof.
  destruct (rooms st !! r) as [l|] eqn:Hl.
  - rewrite (on_disconnect_known _ _ l) by done. simpl. by destruct (bool_decide _).
  - by rewrite on_disconnect_unknown.
Qed.

Lemma on_disconnect_pending sid r st :
  pending (on_disconnect sid r st).1 = pending st.
Proof.
  destruct (rooms st !! r) as [l|] eqn:Hl.
  - rewrite (on_disconnect_known _ _ l) by done. simpl. by destruct (bool_decide _).
  - by rewrite on_disconnect_unknown.
Qed.

Lemma on_disconnect_collection sid r st :
  collection (on_disconnect sid r st).1 = collection st.
Proof.
  destruct (rooms st !! r) as [l|] eqn:Hl.
  - rewrite (on_disconnect_known _ _ l) by done. simpl. by destruct (bool_decide _).
  - by rewrite on_disconnect_unknown.
Qed.

(** What the handler leaves in [rooms]. *)
Lemma on_disconnect_rooms sid r st r' :
  rooms (on_disconnect sid r st).1 !! r' =
    if decide (r = r') then
      match rooms st !! r with
      | Some l => if decide (without_socket sid l = []) then None
                  else Some (without_socket sid l)
      | None => None
      end
    else rooms st !! r'.
Proof.
  destruct (rooms st !! r) as [l|] eqn:Hl.
  - rewrite (on_disconnect_known _ _ l) by done. simpl.
    case_bool_decide as Hlen; simpl.
    + apply length_zero_iff_nil in Hlen.
      rewrite (decide_True (P := without_socket sid l = [])) by done.
      rewrite lookup_delete, lookup_insert. by repeat case_decide.
    + rewrite (decide_False (P := without_socket sid l = []))
        by (by rewrite <-length_zero_iff_nil).
      rewrite lookup_insert. by case_decide.
  - rewrite on_disconnect_unknown by done. case_decide; by subst.
Qed.

Lemma on_disconnect_members sid r st r' :
  members (on_disconnect sid r st).1 r' =
    if decide (r = r') then without_socket sid (members st r) else members st r'.
Proof.
  unfold members. rewrite on_disconnect_rooms.
  case_decide; [|done]. destruct (rooms st !! r) as [l|]; [|done].
  simpl. case_decide as Hl; [by rewrite Hl | done].
Qed.

(** The stroke log and the task board go exactly when the membership list
    goes. *)
Lemma on_disconnect_whiteboardData sid r st r' :
  whiteboardData (on_disconnect sid r st).1 !! r' =
    if decide (r = r' ∧ is_Some (rooms st !! r) ∧ rooms (on_disconnect sid r st).1 !! r = None)
    then None else whiteboardData st !! r'.
Proof.
  rewrite on_disconnect_rooms. rewrite (decide_True (P := r = r)) by done.
  destruct (rooms st !! r) as [l|] eqn:Hl.
  - rewrite (on_disconnect_known _ _ l) by done. simpl.
    case_bool_decide as Hlen; simpl.
    + apply length_zero_iff_nil in Hlen. rewrite (decide_True _ _ Hlen).
      rewrite lookup_delete. case_decide; subst.
      * by rewrite decide_True.
      * rewrite decide_False; [done|]. by intros [? _].
    + rewrite (decide_False (P := without_socket sid l = []))
        by (by rewrite <-length_zero_iff_nil).
      rewrite decide_False; [done|]. by intros (_ & _ & ?).
  - rewrite on_disconnect_unknown by done.
    rewrite decide_False; [done|]. by intros (_ & [] & _).
Qed.

Lemma on_disconnect_taskBoards sid r st r' :
  taskBoards (on_disconnect sid r st).1 !! r' =
    if decide (r = r' ∧ is_Some (rooms st !! r) ∧ rooms (on_disconnect sid r st).1 !! r = None)
    then None else taskBoards st !! r'.
Proof.
  rewrite on_disconnect_rooms. rewrite (decide_True (P := r = r)) by done.
  destruct (rooms st !! r) as [l|] eqn:Hl.
  - rewrite (on_disconnect_known _ _ l) by done. simpl.
    case_bool_decide as Hlen; simpl.
    + apply length_zero_iff_nil in Hlen. rewrite (decide_True _ _ Hlen).
      rewrite lookup_delete. case_decide; subst.
      * by rewrite decide_True.
      * rewrite decide_False; [done|]. by intros [? _].
    + rewrite (decide_False (P := without_socket sid l = []))
        by (by rewrite <-length_zero_iff_nil).
      rewrite decide_False; [done|]. by intros (_ & _ & ?).
  - rewrite on_disconnect_unknown by done.
    rewrite decide_False; [done|]. by intros (_ & [] & _).
Qed.

Lemma elem_of_without_socket sid l m :
  m ∈ without_socket sid l ↔ socketId m ≠ sid ∧ m ∈ l.
Proof. unfold without_socket. by rewrite list_elem_of_filter. Qed.

Lemma on_disconnect_inv sid r st :
  inv st → is_connected st sid = false → inv (on_disconnect sid r st).1.
Proof.
  intros [Hne Hek Hje Hej Hlj Hpk Hpj Hwr Hrn Hpn Hln] Hgone.
  assert (∀ r' m, m ∈ members (on_disconnect sid r st).1 r' → m ∈ members st r')
    as Hsub.
  { intros r' m. rewrite on_disconnect_members. case_decide; subst; [|done].
    by intros [_ ?]%elem_of_without_socket. }
  split.
  - intros r' l. rewrite on_disconnect_rooms. case_decide; [|by eauto].
    destruct (rooms st !! r); [|done]. case_decide; [done|]. by intros [= <-].
  - intros r' m Hm. rewrite on_disconnect_sockets. eauto.
  - intros s sk r'. rewrite on_disconnect_sockets. intros Hsk Hc Hin Hni.
    destruct (Hje _ _ _ Hsk Hc Hin Hni) as (m & Hm & Hms).
    exists m. split; [|done]. rewrite on_disconnect_members.
    destruct (decide (r = r')) as [->|]; [|done].
    apply elem_of_without_socket. split; [|done].
    rewrite Hms. intros ->. unfold is_connected in Hgone.
    rewrite Hsk in Hgone. congruence.
  - intros r' m sk Hm. rewrite on_disconnect_sockets. eauto.
  - intros s sk r'. rewrite on_disconnect_sockets. eauto.
  - intros s r'. rewrite on_disconnect_sockets, on_disconnect_pending. eauto.
  - intros s sk r'. rewrite on_disconnect_sockets, on_disconnect_pending. eauto.
  - intros r'. rewrite on_disconnect_whiteboardData.
    case_decide as Hcase; [by intros []|]. intros Hw%Hwr.
    rewrite on_disconnect_rooms. case_decide as Hrr; [|done]. subst r'.
    destruct (rooms st !! r) as [l|] eqn:Hl; [|done].
    case_decide as Hemp; [|by eexists].
    destruct Hcase. split; [done|]. split; [by eexists|].
    rewrite on_disconnect_rooms, decide_True, Hl by done. by rewrite decide_True.
  - intros r'. rewrite on_disconnect_rooms. case_decide as Hrr; [|by eauto].
    subst r'. destruct (rooms st !! r) as [l|] eqn:Hl; [|by intros []].
    intros _. apply Hrn. by eexists.
  - intros s r'. rewrite on_disconnect_pending. eauto.
  - intros s sk r'. rewrite on_disconnect_sockets. eauto.
Qed.

Lemma inv_close_socket sid st :
  inv st → inv (with_sockets (alter leave_all sid) st).
Proof.
  intros [Hne Hek Hje Hej Hlj Hpk Hpj Hwr Hrn Hpn Hln].
  assert (∀ s sk, alter leave_all sid (sockets st) !! s = Some sk →
                  sock_connected sk = true → sockets st !! s = Some sk) as Hlive.
  { intros s sk. rewrite lookup_alter. case_decide; [|done].
    destruct (sockets st !! sid); [|done]. simpl. by intros [= <-]. }
  split; simpl; try done.
  - intros r m Hm. rewrite lookup_alter_is_Some. eauto.
  - intros s sk r Hsk Hc. eauto.
  - intros r m sk Hm Hsk Hc. eauto.
  - intros s sk r Hsk Hc. eauto.
  - intros s r Hp. rewrite lookup_alter_is_Some. eauto.
  - intros s sk r Hp Hsk Hc. eauto.
  - intros s sk r. rewrite lookup_alter. case_decide; [|by eauto].
    destruct (sockets st !! sid) as [sk0|] eqn:Hsk0; [|done]. simpl.
    intros [= <-]. simpl. subst. eauto.
Qed.

Lemma is_connected_close_socket sid st :
  is_connected (with_sockets (alter leave_all sid) st) sid = false.
Proof.
  unfold is_connected. simpl. rewrite lookup_alter_eq.
  by destruct (sockets st !! sid).
Qed.

Lemma disconnect_inv sid l st :
  inv st →
  inv ((close_socket sid >>> for_each (on_disconnect sid) l) st).1.
Proof.
  intros Hinv. rewrite and_then_state.
  apply (for_each_preserves (λ st', inv st' ∧ is_connected st' sid = false)).
  - intros r st' _ [Hi Hg]. split; [by apply on_disconnect_inv|].
    unfold is_connected. by rewrite on_disconnect_sockets.
  - split; [by apply inv_close_socket | apply is_connected_close_socket].
Qed.

(** *** Settling an awaited store operation *)

Lemma resume_join_room_eq sid r o st :
  resume_join_room sid r o st =
    (with_sockets (alter (add_listener r) sid) st,
     [ {| em_scope := ToSocket sid;
          em_event := match o with
                      | Resolved _ => MessagesInitial (find_messages r (collection st))
                      | Rejected => MessagesInitial []
                      end;
          em_to := recipients st (ToSocket sid) |};
       {| em_scope := ToSocket sid;
          em_event := WhiteboardInitial (strokes_of st r);
          em_to := recipients st (ToSocket sid) |};
       {| em_scope := ToSocket sid;
          em_event := TasksUpdateOut (board_of st r);
          em_to := recipients st (ToSocket sid) |} ]).
Proof. done. Qed.

Lemma resume_send_message_resolved r sender text stamp st :
  resume_send_message r sender text (Resolved stamp) st =
    (with_collection (λ c, c ++ [Message r sender text stamp]) st,
     [ {| em_scope := ToRoom r;
          em_event := MessageNew (Message r sender text stamp);
          em_to := room_sockets st r |} ]).
Proof. done. Qed.

Lemma resume_send_message_rejected r sender text st :
  resume_send_message r sender text Rejected st = (st, []).
Proof. done. Qed.

Lemma inv_drop_pending i st : inv st → inv (with_pending (delete i) st).
Proof.
  intros Hinv. apply (inv_same_fields st); try done. simpl.
  intros s r. apply list_elem_of_delete_inv.
Qed.

Lemma inv_add_listener sid r st :
  inv st →
  (∀ sk, sockets st !! sid = Some sk → sock_connected sk = true → r ∈ sock_rooms sk) →
  inherits r = false →
  inv (with_sockets (alter (add_listener r) sid) st).
Proof.
  intros [Hne Hek Hje Hej Hlj Hpk Hpj Hwr Hrn Hpn Hln] Hr Hplain.
  assert (∀ s sk, alter (add_listener r) sid (sockets st) !! s = Some sk →
          ∃ sk0, sockets st !! s = Some sk0 ∧
                 sock_connected sk = sock_connected sk0 ∧
                 sock_rooms sk = sock_rooms sk0 ∧
                 (sock_listeners sk = sock_listeners sk0 ∨
                  s = sid ∧ sock_listeners sk = sock_listeners sk0 ++ [r])) as Hlook.
  { intros s sk. rewrite lookup_alter. case_decide as Hs.
    - subst s. destruct (sockets st !! sid) as [sk0|]; [|done]. simpl.
      intros [= <-]. exists sk0. simpl. eauto 10.
    - intros Hsk. exists sk. eauto. }
  split; simpl; try done.
  - intros r' m Hm. rewrite lookup_alter_is_Some. eauto.
  - intros s sk r' (sk0 & Hsk0 & Hc & HR & _)%Hlook. rewrite Hc, HR. eauto.
  - intros r' m sk Hm (sk0 & Hsk0 & Hc & HR & _)%Hlook. rewrite Hc, HR. eauto.
  - intros s sk r' (sk0 & Hsk0 & Hc & HR & Hl)%Hlook. rewrite Hc, HR.
    destruct Hl as [-> | [-> ->]]; [by eauto|].
    intros Hc0 [?| ->%list_elem_of_singleton]%elem_of_app; eauto.
  - intros s r' Hp. rewrite lookup_alter_is_Some. eauto.
  - intros s sk r' Hp (sk0 & Hsk0 & Hc & HR & _)%Hlook. rewrite Hc, HR. eauto.
  - intros s sk r' (sk0 & Hsk0 & _ & _ & Hl)%Hlook.
    destruct Hl as [-> | [-> ->]]; [by eauto|].
    intros [?| ->%list_elem_of_singleton]%elem_of_app; eauto.
Qed.

Lemma settle_inv i o st : inv st → inv (handle (Settle i o) st).1.
Proof.
  intros Hinv. simpl. destruct (pending st !! i) as [k|] eqn:Hk; [|done].
  rewrite and_then_state. simpl.
  destruct k as [sid r | r sender text].
  - rewrite resume_join_room_eq. simpl.
    apply (inv_add_listener sid r (with_pending (delete i) st)).
    + by apply inv_drop_pending.
    + simpl. intros sk. eapply inv_pending_joined; [done|].
      by eapply list_elem_of_lookup_2.
    + eapply inv_pending_not_inherited; [done|]. by eapply list_elem_of_lookup_2.
  - destruct o as [stamp|].
    + rewrite resume_send_message_resolved. simpl.
      apply (inv_same_fields st); try done. simpl.
      intros s r0. apply list_elem_of_delete_inv.
    + rewrite resume_send_message_rejected. by apply inv_drop_pending.
Qed.

Lemma handle_inv i st : inv st → inv (handle i st).1.
Proof.
  intros Hinv. destruct i as [sid | sid e | sid | i o].
  - simpl. destruct (sockets st !! sid) eqn:Hs; [done|].
    by apply inv_connection.
  - simpl. destruct (is_connected st sid) eqn:Hc; [|done].
    by apply dispatch_inv.
  - simpl. destruct (is_connected st sid); [|done].
    by apply disconnect_inv.
  - by apply settle_inv.
Qed.

(** Every reachable state satisfies the invariant. *)
Lemma reachable_inv st : reachable st → inv st.
Proof.
  apply reachable_induction; [exact inv_init|].
  intros st' i _. apply handle_inv.
Qed.

(** The room of a closure, of a queued join and of a membership list has a
    name that is not inherited: reading [rooms], [whiteboardData] or
    [taskBoards] under it finds the store's own property or none. *)
Lemma closure_rooms_not_inherited st sid r :
  reachable st → r ∈ listeners_of st sid → inherits r = false.
Proof.
  intros Hinv%reachable_inv. unfold listeners_of.
  destruct (sockets st !! sid) as [sk|] eqn:Hsk; [|by intros ?%not_elem_of_nil].
  by apply (inv_listener_not_inherited _ Hinv sid).
Qed.

(** * Leaving a room (disconnect handler, lines 172-182) *)

(** C3, as stated, fails: with two entries for connection a in r1's list,
    a's leave removes both, where removing the first match only would keep
    the later duplicate. *)
Lemma leave_first_match_only_refuted :
  let st := run twice_joined_trace in
  members st "r1" = [Member "a" "alice"; Member "b" "bob"; Member "a" "alice"] ∧
  members (on_disconnect "a" "r1" st).1 "r1" = [Member "b" "bob"] ∧
  remove_first_entry "a" (members st "r1") = [Member "b" "bob"; Member "a" "alice"] ∧
  members (on_disconnect "a" "r1" st).1 "r1" ≠ remove_first_entry "a" (members st "r1").
Proof. vm_compute. repeat split; try reflexivity. discriminate. Qed.

(** C3, amended: for a room that has a membership list, the leave handler
    removes every entry of the leaving connection (all duplicates), keeps
    the other entries in their order, and reclaims the room (membership
    list, stroke log and task board deleted) exactly when the resulting
    list is empty; otherwise the stroke log and task board are untouched. *)
Theorem leave_removes_all_entries (st : state) (sid r : string) (l : list member) :
  rooms st !! r = Some l →
  let st' := (on_disconnect sid r st).1 in
  members st' r = without_socket sid l ∧
  (∀ m, m ∈ members st' r ↔ m ∈ l ∧ socketId m ≠ sid) ∧
  (without_socket sid l = [] →
     rooms st' !! r = None ∧ whiteboardData st' !! r = None ∧
     taskBoards st' !! r = None) ∧
  (without_socket sid l ≠ [] →
     rooms st' !! r = Some (without_socket sid l) ∧
     whiteboardData st' = whiteboardData st ∧ taskBoards st' = taskBoards st).
Proof.
  intros Hl st'. subst st'.
  assert (rooms (on_disconnect sid r st).1 !! r =
          if decide (without_socket sid l = []) then None
          else Some (without_socket sid l)) as Hrooms.
  { rewrite on_disconnect_rooms. rewrite (decide_True (P := r = r)) by done.
    by rewrite Hl. }
  assert (members (on_disconnect sid r st).1 r = without_socket sid l) as Hmem.
  { rewrite on_disconnect_members, decide_True by done.
    by rewrite (members_lookup _ _ l). }
  split; [exact Hmem|]. split; [|split].
  - intros m. rewrite Hmem, elem_of_without_socket. tauto.
  - intros Hnil. rewrite decide_True in Hrooms by done.
    rewrite on_disconnect_whiteboardData, on_disconnect_taskBoards.
    rewrite !decide_True; [done| |]; (split; [done|split; [by eexists|done]]).
  - intros Hnil. rewrite decide_False in Hrooms by done. split; [done|].
    rewrite (on_disconnect_known _ _ l) by done. simpl.
    rewrite bool_decide_eq_false_2; [done|]. by rewrite length_zero_iff_nil.
Qed.

Lemma leave_removes_all_entries_witness :
  let st := run twice_joined_trace in
  let l := [Member "a" "alice"; Member "b" "bob"; Member "a" "alice"] in
  rooms st !! "r1" = Some l ∧
  members (on_disconnect "a" "r1" st).1 "r1" = without_socket "a" l.
Proof.
  intros st l.
  assert (rooms st !! "r1" = Some l) as Hl by (vm_compute; reflexivity).
  split; [exact Hl|].
  exact (proj1 (leave_removes_all_entries st "a" "r1" l Hl)).
Defined.

(** * Loops over the closures of a socket *)


Lemma for_each_state_ext {A} (f g : A → action) (l : list A) st :
  (∀ x st', (f x st').1 = (g x st').1) →
  (for_each f l st).1 = (for_each g l st).1.
Proof.
  intros Hfg. revert st. induction l as [|x l IH]; intros st; [done|].
  by rewrite !for_each_cons, !and_then_state, Hfg, IH.
Qed.

(** * Chat: send-message (lines 125-133) *)

Lemma on_send_message_rejected sid roomId r sender text st :
  present r = false ∨ present text = false →
  on_send_message sid roomId r sender text st = (st, []).
Proof.
  unfold on_send_message. destruct r, text; try done.
  intros [-> | ->]; by rewrite ?orb_true_r.
Qed.

Lemma on_send_message_accepted sid roomId r sender text st :
  r ≠ "" → text ≠ "" →
  on_send_message sid roomId (Some r) sender (Some text) st =
    (with_pending (λ p, p ++ [AwaitCreate r (or_else sender "Guest") text]) st, []).
Proof.
  intros Hr%present_Some Ht%present_Some. unfold on_send_message.
  by rewrite Hr, Ht.
Qed.



(** * Task board: tasks:update (lines 144-148) *)

Lemma on_tasks_update_accepted sid roomId r b st :
  r ≠ "" → truthy b = true →
  on_tasks_update sid roomId (Some r) b st =
    (taskBoards_set r b st,
     [ {| em_scope := ToRoom r; em_event := TasksUpdateOut b;
          em_to := room_sockets st r |} ]).
Proof.
  intros Hr%present_Some Hb. unfold on_tasks_update. rewrite Hr, Hb.
  unfold and_then, modify, emit. cbn [negb orb fst snd app recipients].
  by destruct (taskBoards_set_frame r b st) as (T & P & ->).
Qed.

Lemma with_taskBoards_insert_twice r b st :
  with_taskBoards (<[r := b]>) (with_taskBoards (<[r := b]>) st) =
  with_taskBoards (<[r := b]>) st.
Proof. unfold with_taskBoards. simpl. by rewrite insert_insert_eq. Qed.

Lemma tasks_update_loop sid r b l st :
  r ≠ "" → r ≠ "__proto__" → truthy b = true → l ≠ [] →
  for_each (λ roomId, on_tasks_update sid roomId (Some r) b) l st =
    (with_taskBoards (<[r := b]>) st,
     replicate (length l)
       {| em_scope := ToRoom r; em_event := TasksUpdateOut b;
          em_to := room_sockets st r |}).
Proof.
  intros Hr Hown Hb. revert st. induction l as [|x l IH]; intros st Hl; [done|].
  rewrite for_each_cons. unfold and_then.
  rewrite on_tasks_update_accepted, taskBoards_set_own by done.
  destruct l as [|y l].
  - done.
  - rewrite IH by done. by rewrite with_taskBoards_insert_twice.
Qed.

(** C9 at the room id "__proto__", where the code departs from it.
    Connection a, joined to room A, sends tasks:update for "__proto__".  With the board 5, which
    the guard lets pass, the assignment of line 146 is ignored: the state is
    as before, nothing is stored under that key, and a tasks:get for it is
    answered with [Object.prototype], not with 5.  With a board that is an
    object, no property is stored either: the board becomes the prototype of
    [taskBoards], and the room "todo", which had no board, now reads the
    board's own [todo] field as its task board. *)
Lemma tasks_update_prototype_key_refuted :
  let st := run joined_A_trace in
  let st1 := (handle (Receive "a" (TasksUpdate (Some "__proto__") (VNum 5))) st).1 in
  let st2 := (handle (Receive "a" (TasksUpdate (Some "__proto__") board1)) st).1 in
  is_connected st "a" = true ∧ listeners_of st "a" = ["A"] ∧ truthy (VNum 5) = true ∧
  st1 = st ∧ taskBoards st1 !! "__proto__" = None ∧
  (handle (Receive "a" (TasksGet (Some "__proto__"))) st1).2 =
    [ {| em_scope := ToSocket "a"; em_event := TasksUpdateOut (VObj []);
         em_to := {["a"]} |} ] ∧
  taskBoards st2 !! "__proto__" = None ∧ taskBoardsProto st2 = Some board1 ∧
  board_of st "todo" = default_board ∧
  board_of st2 "todo" = VArr [VStr "write report"].
Proof. vm_compute. repeat split; reflexivity. Qed.

(** X21: a tasks:update with a room id [r] other than "__proto__" and a
    board [b], sent by a connected socket that completed a join to any
    room, stores [b] as the task board of [r] and emits tasks:update with
    [b] to the transport room [r] (once per closure of the sender), changing
    nothing else; the handler reads no membership, so [r] may be a room the
    sender never joined, also one that has no membership list. *)
Theorem tasks_update_any_room (st : state) (sid r : string) (b : value) :
  is_connected st sid = true → listeners_of st sid ≠ [] →
  r ≠ "" → r ≠ "__proto__" → truthy b = true →
  handle (Receive sid (TasksUpdate (Some r) b)) st =
    (with_taskBoards (<[r := b]>) st,
     replicate (length (listeners_of st sid))
       {| em_scope := ToRoom r; em_event := TasksUpdateOut b;
          em_to := room_sockets st r |}) ∧
  taskBoards (handle (Receive sid (TasksUpdate (Some r) b)) st).1 !! r = Some b.
Proof.
  intros Hc Hl Hr Hown Hb. unfold handle, dispatch. rewrite Hc.
  change (for_each _ (listeners_of st sid) st)
    with (for_each (λ roomId, on_tasks_update sid roomId (Some r) b)
            (listeners_of st sid) st).
  rewrite tasks_update_loop by done. split; [done|].
  simpl. apply lookup_insert_eq.
Qed.

(** A connection joined to room A only writes the board of room B, which
    has no members. *)
Lemma tasks_update_any_room_witness :
  let st := run joined_A_trace in
  listeners_of st "a" = ["A"] ∧ rooms st !! "B" = None ∧
  taskBoards st !! "B" = None ∧
  taskBoards (handle (Receive "a" (TasksUpdate (Some "B") board1)) st).1 !! "B"
    = Some board1.
Proof.
  intros st.
  assert (is_connected st "a" = true) as Hc by (vm_compute; reflexivity).
  assert (listeners_of st "a" = ["A"]) as Hl by (vm_compute; reflexivity).
  split; [exact Hl|].
  split; [vm_compute; reflexivity|].
  split; [vm_compute; reflexivity|].
  refine (proj2 (tasks_update_any_room st "a" "B" board1 Hc _ _ _ _)).
  - rewrite Hl. discriminate.
  - discriminate.
  - discriminate.
  - reflexivity.
Defined.

(** * Whiteboard: draw, undo, redo, clear (lines 98-120) *)

Lemma occurrences_app r l1 l2 :
  occurrences r (l1 ++ l2) = occurrences r l1 + occurrences r l2.
Proof. unfold occurrences. by rewrite filter_app, length_app. Qed.

Lemma occurrences_cons r r' l :
  occurrences r (r' :: l) = (if decide (r' = r) then 1 else 0) + occurrences r l.
Proof.
  unfold occurrences. rewrite filter_cons. by case_decide.
Qed.

Lemma occurrences_not_elem r l : r ∉ l → occurrences r l = 0.
Proof.
  induction l as [|r' l IH]; [done|].
  rewrite not_elem_of_cons, occurrences_cons. intros [Hne Hl].
  rewrite decide_False by done. by rewrite IH.
Qed.

(** ** The array objects behind the logs *)

Lemma arrays_coherent_init : arrays_coherent init.
Proof.
  split; simpl; intros *; rewrite ?lookup_empty; done.
Qed.

Lemma arrays_coherent_same st st' :
  whiteboardData st' = whiteboardData st → whiteboardArray st' = whiteboardArray st →
  arrays st' = arrays st → arrays_coherent st → arrays_coherent st'.
Proof. intros HD HA HN []. split; rewrite ?HD, ?HA, ?HN; eauto. Qed.

(** Storing the array numbered [a] under one more key keeps the logs
    coherent when the keys that have that number already hold [s]. *)
Lemma store_log_coherent r a s st :
  arrays_coherent st →
  (∀ r', whiteboardArray st !! r' = Some a → whiteboardData st !! r' = Some s) →
  arrays_coherent (store_log r a s st) ∧
  (∀ r', whiteboardArray (store_log r a s st) !! r' = Some a →
         whiteboardData (store_log r a s st) !! r' = Some s).
Proof.
  intros [Hnum Hout Hone] Hs. split; [split|]; simpl.
  - intros r'. rewrite !lookup_insert_is_Some'. by rewrite Hnum.
  - intros r' a'. rewrite lookup_insert. case_decide.
    + intros [= <-]. lia.
    + intros Ha'%Hout. lia.
  - intros r1 r2 a'. rewrite !lookup_insert.
    destruct (decide (r = r1)), (decide (r = r2)).
    + done.
    + intros [= <-] Ha. by rewrite (Hs _ Ha).
    + intros Ha [= <-]. by rewrite (Hs _ Ha).
    + eauto.
  - intros r'. rewrite !lookup_insert. case_decide; [done|]. apply Hs.
Qed.

Lemma new_log_coherent r st : arrays_coherent st → arrays_coherent (new_log r st).
Proof.
  intros Hco. apply store_log_coherent; [done|].
  intros r' Ha%(ac_given_out _ Hco). lia.
Qed.

Lemma push_stroke_coherent r x st :
  arrays_coherent st → arrays_coherent (push_stroke r x st).
Proof.
  intros [Hnum Hout Hone].
  destruct (push_stroke_frame r x st) as [W HW].
  split.
  - intros r'. rewrite push_stroke_keeps_keys.
    rewrite HW. simpl. rewrite <-Hnum. done.
  - rewrite HW. simpl. exact Hout.
  - intros r1 r2 a. rewrite !whiteboardData_push_stroke.
    rewrite HW. simpl. intros H1 H2.
    destruct (whiteboardArray st !! r) as [a0|]; [|by eauto].
    rewrite H1, H2, (Hone _ _ _ H1 H2). done.
Qed.

Lemma delete_log_coherent r st : arrays_coherent st → arrays_coherent (delete_log r st).
Proof.
  intros [Hnum Hout Hone]. split; simpl.
  - intros r'. rewrite !lookup_delete_is_Some. by rewrite Hnum.
  - intros r' a. rewrite lookup_delete_Some. intros [_ ?]. eauto.
  - intros r1 r2 a. rewrite !lookup_delete_Some. intros [? H1] [? H2].
    rewrite !lookup_delete_ne by done. eauto.
Qed.

Lemma closure_handler_keeps_logs a sid r e st :
  whiteboard_event e = false →
  whiteboardData (closure_handler a sid r e st).1 = whiteboardData st ∧
  whiteboardArray (closure_handler a sid r e st).1 = whiteboardArray st ∧
  arrays (closure_handler a sid r e st).1 = arrays st.
Proof.
  destruct e as [rid un|x|xs|xs| |r' sender text|r'|r' b|t sdp|t sdp|t c|name];
    try done; intros _; cbn [closure_handler].
  - unfold on_send_message. destruct r', text; try done.
    by destruct (negb _ || negb _).
  - unfold on_tasks_update. destruct r' as [r'|]; [|done].
    destruct (negb _ || negb _); [done|].
    unfold and_then, modify, emit. cbn [fst].
    by destruct (taskBoards_set_frame r' b st) as (T & P & ->).
  - unfold on_offer. destruct t; [|done]. by destruct (present _).
  - unfold on_answer. destruct t; [|done]. by destruct (present _).
  - unfold on_ice_candidate. destruct t; [|done]. by destruct (present _).
Qed.

Lemma closure_handler_coherent a sid r e st :
  arrays_coherent st → payload_stored a e st →
  arrays_coherent (closure_handler a sid r e st).1 ∧
  payload_stored a e (closure_handler a sid r e st).1.
Proof.
  intros Hco Hpay.
  destruct (whiteboard_event e) eqn:He.
  - destruct e as [|x|xs|xs| | | | | | | |]; try done; cbn [closure_handler].
    + rewrite on_whiteboard_draw_state. split; [|done].
      apply push_stroke_coherent.
      destruct (whiteboardData st !! r); [done|]. by apply new_log_coherent.
    + rewrite on_whiteboard_undo_state. destruct xs as [s|].
      * by apply store_log_coherent.
      * split; [|done]. by apply new_log_coherent.
    + rewrite on_whiteboard_redo_state. destruct xs as [s|].
      * by apply store_log_coherent.
      * split; [|done]. by apply new_log_coherent.
    + rewrite on_whiteboard_clear_state. split; [|done]. by apply new_log_coherent.
  - destruct (closure_handler_keeps_logs a sid r e st He) as (HD & HA & HN).
    split; [by apply (arrays_coherent_same st)|].
    destruct e as [| | | | | | | | | | |]; done.
Qed.

Lemma dispatch_coherent sid e st :
  arrays_coherent st → arrays_coherent (dispatch sid e st).1.
Proof.
  intros Hco.
  destruct (dispatch_cases sid e st)
    as [(rid & un & -> & ->)|[(name & es & -> & ->)|[He ->]]].
  - join_cases rid un st; by apply (arrays_coherent_same st).
  - by apply (arrays_coherent_same st).
  - apply (for_each_preserves
             (λ st', arrays_coherent st' ∧ payload_stored (arrays st) e st')
             (λ r, closure_handler (arrays st) sid r e)).
    + intros r st' _ [??]. by apply closure_handler_coherent.
    + split; [done|]. destruct e as [| |[s|]|[s|]| | | | | | | |]; try done.
      all: intros r Ha%(ac_given_out _ Hco); lia.
Qed.

Lemma on_disconnect_coherent sid r st :
  arrays_coherent st → arrays_coherent (on_disconnect sid r st).1.
Proof.
  intros Hco. destruct (rooms st !! r) as [l|] eqn:Hl.
  - rewrite (on_disconnect_known _ _ l) by done. cbn [fst].
    case_bool_decide; [|by apply (arrays_coherent_same st)].
    apply (arrays_coherent_same (delete_log r st)); try done.
    by apply delete_log_coherent.
  - by rewrite on_disconnect_unknown.
Qed.

Lemma handle_coherent i st : arrays_coherent st → arrays_coherent (handle i st).1.
Proof.
  intros Hco. destruct i as [sid | sid e | sid | i o].
  - simpl. destruct (sockets st !! sid); [done|]. by apply (arrays_coherent_same st).
  - unfold handle. destruct (is_connected st sid); [|done].
    by apply dispatch_coherent.
  - unfold handle. destruct (is_connected st sid); [|done].
    rewrite and_then_state.
    apply (for_each_preserves arrays_coherent).
    + intros r st' _. apply on_disconnect_coherent.
    + by apply (arrays_coherent_same st).
  - simpl. destruct (pending st !! i) as [[sid r|r sender text]|]; try done.
    + by apply (arrays_coherent_same st).
    + destruct o; by apply (arrays_coherent_same st).
Qed.

(** In every reachable state the numbering of the logs is coherent: the
    logs that were stored as one array are equal. *)
Lemma reachable_coherent st : reachable st → arrays_coherent st.
Proof.
  apply reachable_induction; [exact arrays_coherent_init|].
  intros st' i _. apply handle_coherent.
Qed.

(** ** One draw, through one closure and through all of them *)









(** A draw gives its room a log of its own at most, so it changes nothing in
    which logs are one array. *)
Lemma shares_after_draw sid r' x st r1 r2 :
  arrays_coherent st →
  shares (on_whiteboard_draw sid r' x st).1 r1 r2 = shares st r1 r2.
Proof.
  intros [Hnum Hout Hone]. rewrite on_whiteboard_draw_state.
  destruct (push_stroke_frame r' x (match whiteboardData st !! r' with
                                    | Some _ => st | None => new_log r' st end))
    as [W ->].
  destruct (whiteboardData st !! r') as [l'|] eqn:Hl'; [done|].
  assert (whiteboardArray st !! r' = None) as Ha'.
  { destruct (whiteboardArray st !! r') eqn:Ha; [|done].
    destruct (proj1 (Hnum r')); [by eexists|congruence]. }
  unfold shares. simpl. rewrite !lookup_insert.
  destruct (decide (r2 = r1)) as [->|Hne];
    [by rewrite !bool_decide_eq_true_2|].
  rewrite !(bool_decide_eq_false_2 (r2 = r1)) by done. simpl.
  destruct (decide (r' = r1)) as [E1|H1], (decide (r' = r2)) as [E2|H2].
  - congruence.
  - subst r1. rewrite Ha'.
    destruct (whiteboardArray st !! r2) as [a2|] eqn:Ha2; [|done].
    apply bool_decide_eq_false_2. intros <-. apply Hout in Ha2. lia.
  - subst r2. rewrite Ha'.
    destruct (whiteboardArray st !! r1) as [a1|] eqn:Ha1; [|done].
    apply bool_decide_eq_false_2. intros ->. apply Hout in Ha1. lia.
  - done.
Qed.



(** The state a write of [v] to the log of every closure's room leaves. *)
Lemma replace_loop (h : string → action) (v : list value) l st r :
  (∀ r' st', whiteboardData (h r' st').1 = <[r' := v]> (whiteboardData st')) →
  whiteboardData (for_each h l st).1 !! r =
    if decide (r ∈ l) then Some v else whiteboardData st !! r.
Proof.
  intros Hh. revert st. induction l as [|r' l IH]; intros st.
  - rewrite for_each_nil.
    destruct (decide (r ∈ [])) as [?%not_elem_of_nil|]; done.
  - rewrite for_each_cons, and_then_state, IH, Hh.
    destruct (decide (r ∈ l)) as [Hin|Hnin].
    + rewrite decide_True; [done|]. by right.
    + rewrite lookup_insert. case_decide as Heq.
      * subst. rewrite decide_True; [done|]. by left.
      * rewrite decide_False; [done|]. rewrite not_elem_of_cons. by split.
Qed.

Lemma undo_replaces a sid strokes r' st' :
  whiteboardData (on_whiteboard_undo a sid r' strokes st').1 =
    <[r' := default [] strokes]> (whiteboardData st').
Proof. by destruct strokes. Qed.

Lemma redo_replaces a sid strokes r' st' :
  whiteboardData (on_whiteboard_redo a sid r' strokes st').1 =
    <[r' := default [] strokes]> (whiteboardData st').
Proof. by destruct strokes. Qed.



Lemma handle_settle_find_eq st i sid r o :
  pending st !! i = Some (AwaitFind sid r) →
  handle (Settle i o) st = resume_join_room sid r o (with_pending (delete i) st).
Proof. intros Hk. unfold handle. by rewrite Hk. Qed.

Lemma is_connected_after_join sid r u st s :
  is_connected (after_join sid r u st) s = is_connected st s.
Proof.
  unfold is_connected. rewrite sockets_after_join. case_decide; [|done].
  subst. by destruct (sockets st !! s).
Qed.

Lemma listeners_after_join sid r u st s :
  listeners_of (after_join sid r u st) s = listeners_of st s.
Proof.
  unfold listeners_of. rewrite sockets_after_join. case_decide; [|done].
  subst. by destruct (sockets st !! s).
Qed.

Lemma is_connected_after_failed_join sid r st s :
  is_connected (after_failed_join sid r st) s = is_connected st s.
Proof.
  unfold is_connected, after_failed_join. simpl. rewrite lookup_alter.
  case_decide; [|done]. subst. by destruct (sockets st !! s).
Qed.

Lemma listeners_after_failed_join sid r st s :
  listeners_of (after_failed_join sid r st) s = listeners_of st s.
Proof.
  unfold listeners_of, after_failed_join. simpl. rewrite lookup_alter.
  case_decide; [|done]. subst. by destruct (sockets st !! s).
Qed.

Lemma is_connected_add_listener sid r st s :
  is_connected (with_sockets (alter (add_listener r) sid) st) s = is_connected st s.
Proof.
  unfold is_connected. simpl. rewrite lookup_alter. case_decide; [|done].
  subst. by destruct (sockets st !! s).
Qed.

Lemma listeners_add_listener sid r st :
  is_Some (sockets st !! sid) →
  listeners_of (with_sockets (alter (add_listener r) sid) st) sid =
    listeners_of st sid ++ [r].
Proof.
  unfold listeners_of. simpl. rewrite lookup_alter_eq. by intros [sk ->].
Qed.

Lemma closures_keep_whiteboardData a sid e l st :
  whiteboard_event e = false →
  whiteboardData (for_each (λ r, closure_handler a sid r e) l st).1 = whiteboardData st.
Proof.
  intros He.
  apply (for_each_preserves (λ st', whiteboardData st' = whiteboardData st)
           (λ r, closure_handler a sid r e)); [|done].
  intros r st' _ <-. by apply closure_handler_keeps_logs.
Qed.

Lemma strokes_empty_kept i st r :
  carries_strokes i = false →
  strokes_of st r = [] → strokes_of (handle i st).1 r = [].
Proof.
  intros Hq Hr. destruct i as [sid | sid e | sid | i o].
  - simpl. by destruct (sockets st !! sid).
  - unfold handle. destruct (is_connected st sid) eqn:Hc; [|done].
    destruct (dispatch_cases sid e st)
      as [(rid & un & -> & ->)|[(name & es & -> & ->)|[He ->]]].
    + by join_cases rid un st.
    + done.
    + destruct (whiteboard_event e) eqn:Hw.
      * destruct e as [| | | | | | | | | | |]; try done.
        unfold strokes_of.
        change (for_each _ (listeners_of st sid) st)
          with (for_each (on_whiteboard_clear sid) (listeners_of st sid) st).
        rewrite (replace_loop _ []) by done. by case_decide.
      * unfold strokes_of. by rewrite closures_keep_whiteboardData.
  - unfold handle. destruct (is_connected st sid); [|done].
    rewrite and_then_state.
    apply (for_each_preserves (λ st', strokes_of st' r = [])); [|done].
    intros r0 st' _ Hst'. unfold strokes_of.
    rewrite on_disconnect_whiteboardData. by case_decide.
  - simpl. destruct (pending st !! i) as [[sid' r'|r' sender text]|]; try done.
    by destruct o.
Qed.

Lemma strokes_empty_kept_run tr st r :
  Forall (λ i, carries_strokes i = false) tr →
  strokes_of st r = [] → strokes_of (run_from st tr).1 r = [].
Proof.
  induction tr as [|i tr IH] using rev_ind; [done|].
  rewrite Forall_app, Forall_singleton. intros [Htr Hi] Hr.
  rewrite run_from_snoc. simpl. apply strokes_empty_kept; [exact Hi|by apply IH].
Qed.

(** C6: an undo and a redo carrying the same sequence leave the same
    state, in which the log of every room the sender has a closure for is
    that sequence (the empty one for a missing payload); a clear leaves the
    empty log, whatever the state before; and as long as no input carrying
    strokes follows, the log stays empty and every join to the room that
    completes is sent whiteboard:initial with the empty sequence. *)
Theorem undo_redo_replace_clear_empties (st : state) (sid r : string) :
  is_connected st sid = true → r ∈ listeners_of st sid →
  (∀ strokes,
     (handle (Receive sid (WhiteboardUndo strokes)) st).1 =
       (handle (Receive sid (WhiteboardRedo strokes)) st).1 ∧
     whiteboardData (handle (Receive sid (WhiteboardUndo strokes)) st).1 !! r
       = Some (default [] strokes) ∧
     whiteboardData (handle (Receive sid (WhiteboardRedo strokes)) st).1 !! r
       = Some (default [] strokes)) ∧
  let st1 := (handle (Receive sid WhiteboardClear) st).1 in
  whiteboardData st1 !! r = Some [] ∧
  ∀ tr, Forall (λ i, carries_strokes i = false) tr →
    let st2 := (run_from st1 tr).1 in
    strokes_of st2 r = [] ∧
    ∀ i joiner o, pending st2 !! i = Some (AwaitFind joiner r) →
      (handle (Settle i o) st2).2 !! 1 =
        Some {| em_scope := ToSocket joiner;
                em_event := WhiteboardInitial [];
                em_to := recipients st2 (ToSocket joiner) |}.
Proof.
  intros Hc Hr.
  assert (∀ strokes,
    whiteboardData (handle (Receive sid (WhiteboardUndo strokes)) st).1 !! r
      = Some (default [] strokes)) as Hundo.
  { intros strokes. unfold handle, dispatch. rewrite Hc.
    change (for_each _ (listeners_of st sid) st)
      with (for_each (λ r', on_whiteboard_undo (arrays st) sid r' strokes)
              (listeners_of st sid) st).
    rewrite (replace_loop _ (default [] strokes)) by apply undo_replaces.
    by rewrite decide_True. }
  assert (∀ strokes,
    (handle (Receive sid (WhiteboardUndo strokes)) st).1 =
    (handle (Receive sid (WhiteboardRedo strokes)) st).1) as Hsame.
  { intros strokes. unfold handle, dispatch. rewrite Hc.
    by apply for_each_state_ext. }
  split.
  { intros strokes. split; [done|]. split; [done|]. by rewrite <-Hsame. }
  intros st1.
  assert (whiteboardData st1 !! r = Some []) as Hclear.
  { unfold st1, handle, dispatch. rewrite Hc.
    change (for_each _ (listeners_of st sid) st)
      with (for_each (on_whiteboard_clear sid) (listeners_of st sid) st).
    rewrite (replace_loop _ []) by done. by rewrite decide_True. }
  split; [done|]. intros tr Hquiet st2.
  assert (strokes_of st2 r = []) as Hempty.
  { apply strokes_empty_kept_run; [done|]. unfold strokes_of. by rewrite Hclear. }
  split; [done|]. intros i joiner o Hk.
  simpl. rewrite Hk. rewrite and_then_out. simpl.
  change (strokes_of (with_pending (delete i) st2) r) with (strokes_of st2 r).
  by rewrite Hempty.
Qed.

Lemma undo_redo_replace_clear_empties_witness :
  let st := run drawn_trace in
  let st1 := (handle (Receive "a" WhiteboardClear) st).1 in
  let tr := [ Connection "b"; Receive "b" (JoinRoom (Some "r1") (Some "bob")) ] in
  let st2 := (run_from st1 tr).1 in
  strokes_of st "r1" = [VStr "s0"; VStr "s1"] ∧
  whiteboardData st1 !! "r1" = Some [] ∧
  pending st2 !! 0 = Some (AwaitFind "b" "r1") ∧
  (handle (Settle 0 (Resolved 0)) st2).2 !! 1 =
    Some {| em_scope := ToSocket "b"; em_event := WhiteboardInitial [];
            em_to := recipients st2 (ToSocket "b") |}.
Proof.
  intros st st1 tr st2.
  assert (is_connected st "a" = true) as Hc by (vm_compute; reflexivity).
  assert ("r1" ∈ listeners_of st "a") as Hr.
  { assert (listeners_of st "a" = ["r1"]) as -> by (vm_compute; reflexivity).
    apply list_elem_of_here. }
  assert (Forall (λ i, carries_strokes i = false) tr) as Hq.
  { repeat constructor. }
  assert (pending st2 !! 0 = Some (AwaitFind "b" "r1")) as Hk
    by (vm_compute; reflexivity).
  destruct (undo_redo_replace_clear_empties st "a" "r1" Hc Hr) as (_ & Hclear & Hrest).
  destruct (Hrest tr Hq) as (_ & Hjoin).
  split; [vm_compute; reflexivity|].
  split; [exact Hclear|]. split; [exact Hk|].
  exact (Hjoin 0 "b" (Resolved 0) Hk).
Defined.

(** * Membership lists under join and leave *)

Lemma settle_rooms i o st : rooms (handle (Settle i o) st).1 = rooms st.
Proof.
  simpl. destruct (pending st !! i) as [[sid r|r sender text]|]; try done.
  by destruct o.
Qed.

Lemma without_socket_idemp sid l :
  without_socket sid (without_socket sid l) = without_socket sid l.
Proof.
  unfold without_socket. induction l as [|m l IH]; [done|].
  rewrite filter_cons. case_decide; [|done].
  rewrite filter_cons, decide_True by done. by rewrite IH.
Qed.

Lemma leave_loop sid l st r :
  members (for_each (on_disconnect sid) l st).1 r =
    if decide (r ∈ l) then without_socket sid (members st r) else members st r.
Proof.
  revert st. induction l as [|r' l IH]; intros st.
  - rewrite for_each_nil.
    destruct (decide (r ∈ [])) as [?%not_elem_of_nil|]; done.
  - rewrite for_each_cons, and_then_state, IH, on_disconnect_members.
    destruct (decide (r' = r)) as [->|Hne].
    + rewrite without_socket_idemp, (decide_True (P := r ∈ r :: l)) by (by left).
      by case_decide.
    + destruct (decide (r ∈ l)) as [Hin|Hnin].
      * rewrite decide_True; [done|]. by right.
      * rewrite decide_False; [done|]. rewrite not_elem_of_cons. by split.
Qed.

Lemma members_step st i r :
  members (handle i st).1 r = members_after_input st i r.
Proof.
  destruct i as [sid | sid e | sid | i o].
  - simpl. by destruct (sockets st !! sid).
  - unfold handle, members_after_input.
    destruct (is_connected st sid) eqn:Hc.
    + destruct (dispatch_cases sid e st)
        as [(rid & un & -> & ->)|[(name & es & -> & ->)|[He ->]]].
      * join_cases rid un st.
        -- destruct rid as [r'|]; [|done]. destruct un as [u|]; [|done].
           simpl andb. rewrite bool_decide_eq_false_2; [done|].
           intros (_ & Hr%present_Some & Hu%present_Some).
           destruct H; congruence.
        -- cbn [fst]. rewrite members_after_join. simpl andb.
           destruct (decide (r0 = r)) as [->|Hne].
           ++ rewrite bool_decide_eq_true_2 by done. by rewrite Hp.
           ++ rewrite bool_decide_eq_false_2; [done|]. by intros [? _].
        -- cbn [fst]. simpl andb. case_bool_decide as Hok; [|done].
           destruct Hok as (-> & _). by rewrite Hp.
      * done.
      * unfold members. rewrite closures_keep_rooms. by destruct e.
    + simpl. by repeat case_match.
  - unfold handle, members_after_input.
    destruct (is_connected st sid); [|done]. simpl andb.
    rewrite and_then_state, leave_loop. simpl.
    case_decide; case_bool_decide; done.
  - simpl. destruct (pending st !! i) as [[sid r'|r' sender text]|]; try done.
    by destruct o.
Qed.

Lemma gone_not_connected st sid : gone st sid → is_connected st sid = false.
Proof. intros (sk & Hsk & Hc). unfold is_connected. by rewrite Hsk. Qed.

Lemma sockets_alter_gone (f : socket → socket) s st sid :
  (∀ sk, sock_connected (f sk) = sock_connected sk) →
  gone st sid → gone (with_sockets (alter f s) st) sid.
Proof.
  intros Hf (sk & Hsk & Hc). unfold gone. simpl. rewrite lookup_alter.
  case_decide; subst.
  - rewrite Hsk. simpl. eexists. split; [done|]. by rewrite Hf.
  - by exists sk.
Qed.

Lemma gone_step i st sid : gone st sid → gone (handle i st).1 sid.
Proof.
  intros Hg. pose proof Hg as (sk & Hsk & Hc).
  destruct i as [s | s e | s | i o].
  - simpl. destruct (sockets st !! s) eqn:Hs; [done|]. unfold gone. simpl.
    rewrite lookup_insert_ne; [by exists sk|]. intros ->. congruence.
  - unfold handle. destruct (is_connected st s) eqn:Hcs; [|done].
    destruct (dispatch_cases s e st)
      as [(rid & un & -> & ->)|[(name & es & -> & ->)|[He ->]]].
    + join_cases rid un st.
      * done.
      * by apply (sockets_alter_gone (enter_room r) s).
      * by apply (sockets_alter_gone (enter_room r) s).
    + done.
    + unfold gone. rewrite closures_keep_sockets. by exists sk.
  - unfold handle. destruct (is_connected st s) eqn:Hcs; [|done].
    rewrite and_then_state.
    apply (for_each_preserves (λ st', gone st' sid)).
    + intros r0 st' _. unfold gone. by rewrite on_disconnect_sockets.
    + unfold gone. simpl. rewrite lookup_alter. case_decide; subst.
      * rewrite Hsk. by eexists.
      * by exists sk.
  - simpl. destruct (pending st !! i) as [[s r'|r' sender text]|]; try done.
    + rewrite and_then_state. simpl.
      by apply (sockets_alter_gone (add_listener r') s).
    + by destruct o.
Qed.

Lemma absent_step i st sid r :
  gone st sid →
  (∀ m, m ∈ members st r → socketId m ≠ sid) →
  ∀ m, m ∈ members (handle i st).1 r → socketId m ≠ sid.
Proof.
  intros Hg Habs m. rewrite members_step. unfold members_after_input.
  destruct i as [s | s e | s | i o]; try by auto.
  - destruct e as [rid un| | | | | | | | | | |]; try by auto.
    destruct rid as [r'|]; [|by auto]. destruct un as [u|]; [|by auto].
    destruct (is_connected st s) eqn:Hcs; [|by auto]. simpl andb.
    destruct (_ && _); [|by auto].
    intros [?| ->%list_elem_of_singleton]%elem_of_app; [by auto|].
    simpl. intros ->. apply gone_not_connected in Hg. congruence.
  - destruct (_ && _); [|by auto]. intros [_ ?]%elem_of_without_socket. auto.
Qed.

Lemma absent_forever tr st sid r :
  gone st sid →
  (∀ m, m ∈ members st r → socketId m ≠ sid) →
  gone (run_from st tr).1 sid ∧
  ∀ m, m ∈ members (run_from st tr).1 r → socketId m ≠ sid.
Proof.
  intros Hg Habs. induction tr as [|i tr [IHg IHa]] using rev_ind; [done|].
  rewrite run_from_snoc. simpl. split.
  - by apply gone_step.
  - by apply absent_step.
Qed.

(** ** Entries, closures and queued joins *)

Lemma filter_delete_length {A} (P : A → Prop) `{!∀ x, Decision (P x)}
    (l : list A) (i : nat) (x : A) :
  l !! i = Some x →
  length (filter P l) = (if decide (P x) then 1 else 0) + length (filter P (delete i l)).
Proof.
  revert i. induction l as [|y l IH]; intros [|i]; simpl; try done.
  - intros [= ->]. rewrite filter_cons. by case_decide.
  - intros Hi. rewrite !filter_cons.
    destruct (decide (P y)); simpl; rewrite (IH i Hi); lia.
Qed.

Lemma filter_none_length {A} (P : A → Prop) `{!∀ x, Decision (P x)} (l : list A) :
  (∀ x, x ∈ l → ¬ P x) → length (filter P l) = 0.
Proof.
  induction l as [|y l IH]; intros Hl; [done|].
  rewrite filter_cons, decide_False; [|apply Hl; by left].
  apply IH. intros x Hx. apply Hl. by right.
Qed.

Lemma entries_of_app sid l1 l2 :
  entries_of sid (l1 ++ l2) = entries_of sid l1 + entries_of sid l2.
Proof. unfold entries_of. by rewrite filter_app, length_app. Qed.

Lemma entries_of_without_other sid s l :
  sid ≠ s → entries_of sid (without_socket s l) = entries_of sid l.
Proof.
  intros Hne. unfold entries_of, without_socket.
  induction l as [|m l IH]; [done|]. rewrite !filter_cons.
  destruct (decide (socketId m = sid)) as [Hm|Hm].
  - rewrite decide_True by congruence. rewrite filter_cons, decide_True by done.
    simpl. by rewrite IH.
  - case_decide; [|done]. by rewrite filter_cons, decide_False.
Qed.

Lemma closure_handler_pending_joins a s r0 e st sid r :
  pending_joins (closure_handler a s r0 e st).1 sid r = pending_joins st sid r.
Proof.
  unfold pending_joins.
  destruct (closure_handler_frame a s r0 e st)
    as (_ & _ & _ & _ & [->|(r' & s' & t' & ->)] & _); [done|].
  rewrite filter_app, length_app. simpl. lia.
Qed.

Lemma closures_keep_pending_joins a s e l st sid r :
  pending_joins (for_each (λ r0, closure_handler a s r0 e) l st).1 sid r
    = pending_joins st sid r.
Proof.
  apply (for_each_preserves (λ st', pending_joins st' sid r = pending_joins st sid r)
           (λ r0, closure_handler a s r0 e)); [|done].
  intros r0 st' _ <-. apply closure_handler_pending_joins.
Qed.

Lemma disconnect_loop_sockets s l st :
  sockets (for_each (on_disconnect s) l st).1 = sockets st.
Proof.
  apply (for_each_preserves (λ st', sockets st' = sockets st)); [|done].
  intros r st' _ <-. apply on_disconnect_sockets.
Qed.

Lemma disconnect_loop_pending s l st :
  pending (for_each (on_disconnect s) l st).1 = pending st.
Proof.
  apply (for_each_preserves (λ st', pending st' = pending st)); [|done].
  intros r st' _ <-. apply on_disconnect_pending.
Qed.

Lemma entries_accounted_init : entries_accounted init.
Proof. intros sid r. unfold is_connected. simpl. by rewrite lookup_empty. Qed.

Lemma entries_accounted_step i st :
  inv st → entries_accounted st → entries_accounted (handle i st).1.
Proof.
  intros Hinv HK sid r. destruct i as [s | s e | s | i o].
  - (* connection *)
    simpl. destruct (sockets st !! s) eqn:Hs; [by apply HK|].
    unfold is_connected, listeners_of, members, pending_joins. simpl.
    rewrite lookup_insert. case_decide as Heq; [|by apply HK].
    subst s. intros _. simpl.
    unfold entries_of. rewrite !filter_none_length; [done| |].
    + intros k Hk ->. apply (inv_pending_known _ Hinv) in Hk.
      rewrite Hs in Hk. by destruct Hk.
    + intros m Hm Hsid. apply (inv_entry_known _ Hinv r) in Hm.
      rewrite Hsid, Hs in Hm. by destruct Hm.
  - (* client event *)
    unfold handle. destruct (is_connected st s) eqn:Hcs; [|by apply HK].
    destruct (dispatch_cases s e st)
      as [(rid & un & -> & ->)|[(name & es & -> & ->)|[He ->]]].
    + join_cases rid un st.
      * by apply HK.
      * cbn [fst].
        rewrite is_connected_after_join, members_after_join, listeners_after_join.
        intros Hc. specialize (HK sid r Hc).
        unfold pending_joins, after_join. simpl.
        rewrite filter_app, length_app. simpl. rewrite filter_cons.
        destruct (decide (r0 = r)) as [->|Hne].
        -- rewrite entries_of_app. unfold entries_of at 2. rewrite filter_cons. simpl.
           destruct (decide (s = sid)) as [->|Hs].
           ++ rewrite decide_True by done. simpl. unfold pending_joins in HK. lia.
           ++ rewrite decide_False by congruence. simpl. unfold pending_joins in HK. lia.
        -- rewrite decide_False by congruence. simpl. unfold pending_joins in HK. lia.
      * cbn [fst].
        rewrite is_connected_after_failed_join, listeners_after_failed_join.
        apply HK.
    + apply HK.
    + unfold is_connected, listeners_of, members.
      rewrite closures_keep_sockets, closures_keep_rooms, closures_keep_pending_joins.
      apply HK.
  - (* disconnect *)
    unfold handle. destruct (is_connected st s) eqn:Hcs; [|by apply HK].
    rewrite and_then_state. unfold is_connected, listeners_of, pending_joins.
    rewrite leave_loop, disconnect_loop_sockets, disconnect_loop_pending.
    simpl. rewrite lookup_alter. case_decide as Heq.
    + subst s. by destruct (sockets st !! sid).
    + intros Hc. specialize (HK sid r). unfold is_connected, listeners_of in HK.
      change (members (close_socket s st).1 r) with (members st r).
      case_decide; [rewrite entries_of_without_other by done|]; by apply HK.
  - (* a store operation settles *)
    simpl. destruct (pending st !! i) as [k|] eqn:Hk; [|by apply HK].
    rewrite and_then_state. simpl.
    pose proof (filter_delete_length (λ k, k = AwaitFind sid r) _ _ _ Hk) as Hdel.
    destruct k as [s r0 | r0 sender text].
    + rewrite resume_join_room_eq. cbn [fst].
      rewrite is_connected_add_listener.
      change (is_connected (with_pending (delete i) st) sid) with (is_connected st sid).
      intros Hc. specialize (HK sid r Hc).
      change (members _ r) with (members st r).
      unfold pending_joins in *. simpl.
      destruct (decide (s = sid)) as [->|Hs].
      * rewrite listeners_add_listener.
        2:{ simpl. apply is_connected_true in Hc as (sk & -> & _). by eexists. }
        change (listeners_of (with_pending (delete i) st) sid) with (listeners_of st sid).
        rewrite occurrences_app, occurrences_cons.
        destruct (decide (r0 = r)) as [->|Hr].
        -- rewrite decide_True in Hdel by done. unfold occurrences at 2. simpl. lia.
        -- rewrite decide_False in Hdel by congruence. unfold occurrences at 2.
           simpl. lia.
      * rewrite decide_False in Hdel by congruence.
        unfold listeners_of. simpl. rewrite lookup_alter_ne by done.
        unfold listeners_of in HK. lia.
    + rewrite decide_False in Hdel by done.
      destruct o.
      * rewrite resume_send_message_resolved. cbn [fst]. intros Hc.
        specialize (HK sid r Hc). unfold pending_joins in *. simpl.
        change (members _ r) with (members st r).
        change (listeners_of _ sid) with (listeners_of st sid). lia.
      * rewrite resume_send_message_rejected. cbn [fst]. intros Hc.
        specialize (HK sid r Hc). unfold pending_joins in *. simpl.
        change (members _ r) with (members st r).
        change (listeners_of _ sid) with (listeners_of st sid). lia.
Qed.

Lemma reachable_entries_accounted st : reachable st → entries_accounted st.
Proof.
  apply reachable_induction; [exact entries_accounted_init|].
  intros st' i Hst. apply entries_accounted_step. by apply reachable_inv.
Qed.

Lemma without_socket_no_entries sid l :
  entries_of sid l = 0 → without_socket sid l = l.
Proof.
  unfold entries_of, without_socket. induction l as [|m l IH]; [done|].
  rewrite !filter_cons. destruct (decide (socketId m = sid)) as [Hm|Hm].
  - simpl. lia.
  - intros Hl. rewrite decide_True by done. by rewrite IH.
Qed.

Lemma disconnect_makes_gone st sid :
  is_connected st sid = true → gone (handle (Disconnect sid) st).1 sid.
Proof.
  intros Hc. unfold handle. rewrite Hc, and_then_state.
  apply (for_each_preserves (λ st', gone st' sid)).
  - intros r0 st0 _. unfold gone. by rewrite on_disconnect_sockets.
  - apply is_connected_true in Hc as (sk & Hsk & _).
    unfold gone. simpl. rewrite lookup_alter_eq, Hsk. by eexists.
Qed.

(** The disconnect of a connection none of whose joins to [r] awaits the
    store removes its entries from the list of [r]. *)
Lemma members_after_leave st sid r :
  reachable st → is_connected st sid = true → pending_joins st sid r = 0 →
  members (handle (Disconnect sid) st).1 r = without_socket sid (members st r).
Proof.
  intros Hst Hc Hp. rewrite members_step. unfold members_after_input.
  rewrite Hc. simpl andb. case_bool_decide as Hl; [done|].
  symmetry. apply without_socket_no_entries.
  rewrite (reachable_entries_accounted st Hst sid r Hc), Hp.
  by rewrite occurrences_not_elem.
Qed.

(** C2, as stated, fails.  Connection a joins r1 twice and b once (three
    joins), then a disconnects (one leave): the list then has one entry, not
    two.  A connection that disconnects while its join awaits the store
    leaves its entry in the list.  And a join-room for the room named
    "constructor" appends no entry: after two of them the list is empty. *)
Lemma length_joins_minus_leaves_refuted :
  let tr := twice_joined_trace ++ [Disconnect "a"] in
  count_along (counts_as_join "r1") init tr = 3 ∧
  count_along (counts_as_leave "r1") init tr = 1 ∧
  members (run tr) "r1" = [Member "b" "bob"] ∧
  length (members (run tr) "r1") ≠
    count_along (counts_as_join "r1") init tr -
    count_along (counts_as_leave "r1") init tr ∧
  count_along (counts_as_leave "r1") init interrupted_join_trace = 1 ∧
  is_connected (run interrupted_join_trace) "a" = false ∧
  members (run interrupted_join_trace) "r1" = [Member "a" "alice"] ∧
  count_along (counts_as_join "constructor") init constructor_trace = 2 ∧
  count_along (counts_as_leave "constructor") init constructor_trace = 0 ∧
  members (run constructor_trace) "constructor" = [].
Proof. vm_compute. repeat split; try reflexivity. discriminate. Qed.

(** C2, amended: in every reachable state, a join-room for a room whose
    name is not inherited, with room id and user name present, appends
    exactly one entry to the room's membership list (length plus one); the
    disconnect of a connection none of whose joins to the room still awaits
    the store removes all entries of that connection at once, and no entry
    for it appears in that room's list in any later state; an input that is
    neither a join-room for the room nor a disconnect leaves the list as it
    is. *)
Theorem membership_join_leave (st : state) (r : string) :
  reachable st →
  (∀ sid u, is_connected st sid = true → r ≠ "" → u ≠ "" → inherits r = false →
     let st' := (handle (Receive sid (JoinRoom (Some r) (Some u))) st).1 in
     members st' r = members st r ++ [Member sid u] ∧
     length (members st' r) = S (length (members st r))) ∧
  (∀ sid, is_connected st sid = true → pending_joins st sid r = 0 →
     let st' := (handle (Disconnect sid) st).1 in
     members st' r = without_socket sid (members st r) ∧
     ∀ tr m, m ∈ members (run_from st' tr).1 r → socketId m ≠ sid) ∧
  (∀ i, (∀ sid, i ≠ Disconnect sid) →
        (∀ sid u, i ≠ Receive sid (JoinRoom (Some r) (Some u))) →
        members (handle i st).1 r = members st r).
Proof.
  intros Hst. split; [|split].
  - intros sid u Hc Hr Hu Hplain st'. unfold st'. rewrite members_step.
    unfold members_after_input. rewrite Hc. simpl andb.
    rewrite bool_decide_eq_true_2 by done.
    rewrite not_inherited_pushable by done. simpl andb. cbv iota.
    split; [done|]. rewrite length_app. simpl. lia.
  - intros sid Hc Hp st'.
    assert (members st' r = without_socket sid (members st r)) as Hm
      by (by apply members_after_leave).
    split; [done|]. intros tr.
    apply absent_forever.
    + by apply disconnect_makes_gone.
    + intros m. rewrite Hm. by intros [? _]%elem_of_without_socket.
  - intros i Hleave Hjoin. rewrite members_step. unfold members_after_input.
    destruct i as [sid | sid e | sid | i o]; try done.
    + destruct e as [rid un| | | | | | | | | | |]; try done.
      destruct rid as [r'|]; [|done]. destruct un as [u|]; [|done].
      destruct (is_connected st sid); [|done]. simpl andb.
      case_bool_decide as Hok; [|done]. destruct Hok as (-> & _).
      by destruct (Hjoin sid u).
    + by destruct (Hleave sid).
Qed.

Lemma membership_join_leave_witness :
  let st := run twice_joined_trace in
  let st' := (handle (Disconnect "a") st).1 in
  reachable st ∧ is_connected st "a" = true ∧ pending_joins st "a" "r1" = 0 ∧
  members st "r1" = [Member "a" "alice"; Member "b" "bob"; Member "a" "alice"] ∧
  members st' "r1" = without_socket "a" (members st "r1") ∧
  ∀ tr m, m ∈ members (run_from st' tr).1 "r1" → socketId m ≠ "a".
Proof.
  intros st st'.
  assert (reachable st) as Hst by (by eexists).
  assert (is_connected st "a" = true) as Hc by (vm_compute; reflexivity).
  assert (pending_joins st "a" "r1" = 0) as Hp by (vm_compute; reflexivity).
  split; [exact Hst|]. split; [exact Hc|]. split; [exact Hp|].
  split; [vm_compute; reflexivity|].
  exact (proj1 (proj2 (membership_join_leave st "r1" Hst)) "a" Hc Hp).
Defined.

(** * Joining the same room more than once *)


(** C10 where the code departs from it.  Connection a joined r1 twice and
    r2 once, and sent an undo, whose array is now the log of both rooms.  It has two
    entries in r1's list and two closures for r1; yet its one draw appends
    the stroke to r1's log three times, the closure for r2 pushing into the
    same array.  And after two join-room events for the room named
    "constructor" the list has no entry for the connection and no handler is
    registered: a draw changes nothing. *)
Lemma single_draw_appends_twice_refuted :
  let st := run shared_log_trace in
  let st' := (handle (Receive "a" (WhiteboardDraw (VStr "x"))) st).1 in
  let sc := run constructor_trace in
  entries_of "a" (members st "r1") = 2 ∧
  occurrences "r1" (listeners_of st "a") = 2 ∧
  strokes_of st "r1" = [VStr "s0"] ∧
  strokes_of st' "r1" = [VStr "s0"; VStr "x"; VStr "x"; VStr "x"] ∧
  strokes_of st' "r1" ≠ strokes_of st "r1" ++ [VStr "x"; VStr "x"] ∧
  members sc "constructor" = [] ∧ listeners_of sc "a" = [] ∧
  handle (Receive "a" (WhiteboardDraw (VStr "x"))) sc = (sc, []).
Proof. vm_compute. repeat split; try reflexivity. discriminate. Qed.



(** * Ephemeral room state and its reclamation *)

Lemma dispatch_rooms_kept sid e st r :
  is_Some (rooms st !! r) → is_Some (rooms (dispatch sid e st).1 !! r).
Proof.
  intros Hr.
  destruct (dispatch_cases sid e st)
    as [(rid & un & -> & ->)|[(name & es & -> & ->)|[He ->]]].
  - join_cases rid un st; [done| |done].
    unfold after_join. simpl. rewrite lookup_insert_is_Some'. by right.
  - done.
  - by rewrite closures_keep_rooms.
Qed.

(** Whenever an input makes a membership list disappear, the room's stroke
    log and task board are gone in the resulting state as well. *)
Lemma reclaimed_together i st r :
  is_Some (rooms st !! r) → rooms (handle i st).1 !! r = None →
  whiteboardData (handle i st).1 !! r = None ∧ taskBoards (handle i st).1 !! r = None.
Proof.
  intros Hr. destruct i as [sid | sid e | sid | i o].
  - simpl. destruct (sockets st !! sid); simpl; intros Hn; rewrite Hn in Hr;
      by destruct Hr.
  - unfold handle. destruct (is_connected st sid).
    + intros Hn. apply (dispatch_rooms_kept sid e) in Hr. rewrite Hn in Hr.
      by destruct Hr.
    + simpl. intros Hn. rewrite Hn in Hr. by destruct Hr.
  - unfold handle. destruct (is_connected st sid).
    + rewrite and_then_state. intros Hn.
      assert (is_Some (rooms (for_each (on_disconnect sid) (listeners_of st sid)
                                (close_socket sid st).1).1 !! r) ∨
              whiteboardData (for_each (on_disconnect sid) (listeners_of st sid)
                                (close_socket sid st).1).1 !! r = None ∧
              taskBoards (for_each (on_disconnect sid) (listeners_of st sid)
                                (close_socket sid st).1).1 !! r = None) as [Hs|Hd].
      { apply (for_each_preserves (λ st',
          is_Some (rooms st' !! r) ∨
          whiteboardData st' !! r = None ∧ taskBoards st' !! r = None));
          [|by left].
        intros r0 st' _ [Hs|[Hw Ht]].
        - destruct (rooms (on_disconnect sid r0 st').1 !! r) eqn:Hafter;
            [left; by eexists|right].
          rewrite on_disconnect_whiteboardData, on_disconnect_taskBoards.
          rewrite on_disconnect_rooms in Hafter.
          case_decide as Heq; [subst r0|by rewrite Hafter in Hs; destruct Hs].
          rewrite !decide_True; [done| |];
            (split; [done|]; split; [done|]);
            by rewrite on_disconnect_rooms, decide_True.
        - right. rewrite on_disconnect_whiteboardData, on_disconnect_taskBoards.
          by repeat case_decide. }
      * rewrite Hn in Hs. by destruct Hs.
      * done.
    + simpl. intros Hn. rewrite Hn in Hr. by destruct Hr.
  - rewrite settle_rooms. intros Hn. rewrite Hn in Hr. by destruct Hr.
Qed.

(** ** Runs in which no join is cut short *)














(** * The broadcast router: who receives what *)

Lemma elem_of_room_sockets st r s :
  s ∈ room_sockets st r ↔ ∃ sk, sockets st !! s = Some sk ∧ in_room r s sk = true.
Proof.
  unfold room_sockets. rewrite elem_of_dom. unfold is_Some.
  setoid_rewrite map_lookup_filter_Some. simpl. naive_solver.
Qed.




Lemma for_each_out {A} (I : state → Prop) (Q : emission → Prop)
    (f : A → action) (l : list A) :
  (∀ x st, I st → I (f x st).1 ∧ Forall Q (f x st).2) →
  ∀ st, I st → Forall Q (for_each f l st).2.
Proof.
  intros Hf. induction l as [|x l IH]; intros st HI; [by constructor|].
  rewrite for_each_cons, and_then_out. apply Forall_app. split.
  - by apply Hf.
  - apply IH. by apply Hf.
Qed.









(** A connection that disconnects while its join awaits the store has no
    disconnect listener yet: its entry stays in the membership list, with no
    connection behind it, also after the join completes. *)
Lemma disconnect_while_joining_leaves_entry :
  let st := run [ Connection "a";
                  Receive "a" (JoinRoom (Some "r1") (Some "alice"));
                  Disconnect "a";
                  Settle 0 (Resolved 0) ] in
  members st "r1" = [Member "a" "alice"] ∧ is_connected st "a" = false ∧
  room_sockets st "r1" = ∅.
Proof. vm_compute. repeat split; reflexivity. Qed.
(** * Chat history on join (lines 76-86) *)

(** C4 at a room holding 201 messages: the joiner is sent the 200 oldest
    (stamps 1..200), in ascending order; the most recent 200 are those
    stamped 2..201, and the newest message is not in what is sent. *)
Lemma messages_initial_oldest_200 :
  let st := run long_chat_trace in
  collection st = chat_history 201 ∧
  (run_from st join_r1_trace).2 !! 2 =
    Some {| em_scope := ToSocket "b";
            em_event := MessagesInitial (chat_history 200);
            em_to := {["b"]} |} ∧
  most_recent_ascending 200 "r1" (collection st) = drop 1 (chat_history 201) ∧
  last (chat_history 200) = Some (chat_message 200) ∧
  last (most_recent_ascending 200 "r1" (collection st)) = Some (chat_message 201) ∧
  find_messages "r1" (collection st) ≠ most_recent_ascending 200 "r1" (collection st).
Proof.
  intros st.
  assert (collection st = chat_history 201) as Hc by (vm_compute; reflexivity).
  split; [exact Hc|].
  split; [vm_compute; reflexivity|].
  rewrite Hc.
  split; [vm_compute; reflexivity|].
  split; [vm_compute; reflexivity|].
  split; [vm_compute; reflexivity|].
  vm_compute. discriminate.
Qed.

(** With at most 200 messages in the room the two agree. *)
Lemma find_messages_short (r : string) (docs : list message) :
  (length (filter (λ m, msg_roomId m = r) docs) ≤ 200)%nat →
  find_messages r docs = most_recent_ascending 200 r docs.
Proof.
  unfold find_messages, most_recent_ascending.
  set (l := filter _ docs). intros Hlen.
  assert (length (sort_createdAt_asc l) = length l) as Hsort.
  { unfold sort_createdAt_asc. rewrite <-(length_reverse l).
    induction (reverse l) as [|m l' IH]; [done|]. simpl. rewrite <-IH.
    generalize (foldr insert_by_createdAt [] l'). intros s.
    induction s as [|x s IHs]; [done|]. simpl.
    case_decide; simpl; [done|]. by rewrite IHs. }
  rewrite take_ge by lia.
  replace (length (sort_createdAt_asc l) - 200) with 0 by lia. done.
Qed.

(** When the query fails, the joiner is sent the empty history, then the
    stroke log and the task board as usual, and its listeners are
    registered. *)
Lemma join_completes_on_store_failure st i sid r :
  pending st !! i = Some (AwaitFind sid r) →
  handle (Settle i Rejected) st =
    (with_sockets (alter (add_listener r) sid) (with_pending (delete i) st),
     [ {| em_scope := ToSocket sid; em_event := MessagesInitial [];
          em_to := recipients st (ToSocket sid) |};
       {| em_scope := ToSocket sid; em_event := WhiteboardInitial (strokes_of st r);
          em_to := recipients st (ToSocket sid) |};
       {| em_scope := ToSocket sid; em_event := TasksUpdateOut (board_of st r);
          em_to := recipients st (ToSocket sid) |} ]).
Proof.
  intros Hk. by rewrite (handle_settle_find_eq _ _ sid r), resume_join_room_eq.
Qed.

(** * Signaling relay (lines 154-164) *)

(** C7 at a target that is a room key: no connection has id "r1", yet the
    offer is delivered, to both connections joined to room r1, the sender
    included. *)
Lemma offer_to_room_key_fans_out :
  let st := run two_in_room_trace in
  let sdp := VStr "v=0" in
  sockets st !! "r1" = None ∧
  handle (Receive "a" (Offer (Some "r1") sdp)) st =
    (st, [ {| em_scope := ToRoom "r1"; em_event := OfferOut sdp "a";
              em_to := {["a"; "b"]} |} ]).
Proof. vm_compute. split; reflexivity. Qed.

(** The relay never changes the state, for any target. *)
Lemma relay_keeps_state st sid target payload :
  (handle (Receive sid (Offer target payload)) st).1 = st ∧
  (handle (Receive sid (Answer target payload)) st).1 = st ∧
  (handle (Receive sid (IceCandidate target payload)) st).1 = st.
Proof.
  unfold handle, dispatch. destruct (is_connected st sid); [|done].
  repeat split.
  all: apply (for_each_preserves (λ st', st' = st)
                (λ r, closure_handler (arrays st) sid r _)); [|done].
  all: intros r st' _ ->; simpl; unfold_handlers.
  all: destruct target; [|done]; by destruct (present _).
Qed.

(** What the relay sends carries the sender's id and goes to the transport
    room named by the target; nobody receives it when no connected socket
    has that id or is in a room of that name. *)
Lemma relay_enriches_and_drops st sid roomId t sdp :
  t ≠ "" →
  on_offer sid roomId (Some t) sdp st =
    (st, [ {| em_scope := ToRoom t; em_event := OfferOut sdp sid;
              em_to := room_sockets st t |} ]) ∧
  ((∀ s sk, sockets st !! s = Some sk → in_room t s sk = false) →
   room_sockets st t = ∅).
Proof.
  intros Ht%present_Some. split.
  - unfold on_offer. by rewrite Ht.
  - intros Hnone. apply set_eq. intros s.
    rewrite elem_of_room_sockets, elem_of_empty. split; [|done].
    intros (sk & Hsk & Hin). rewrite (Hnone _ _ Hsk) in Hin. done.
Qed.

(** * Further properties of the handlers *)

(** ** Events sent before a join has completed *)

Lemma listeners_kept_until_settle i st sid :
  (∀ k o, i ≠ Settle k o) →
  listeners_of (handle i st).1 sid = listeners_of st sid.
Proof.
  intros Hi. destruct i as [s | s e | s | k o]; [| | |by destruct (Hi k o)].
  - simpl. destruct (sockets st !! s) eqn:Hs; [done|].
    unfold listeners_of. simpl. rewrite lookup_insert. case_decide; [|done].
    subst. by rewrite Hs.
  - unfold handle. destruct (is_connected st s); [|done].
    destruct (dispatch_cases s e st)
      as [(rid & un & -> & ->)|[(name & es & -> & ->)|[He ->]]].
    + join_cases rid un st; cbn [fst];
        by rewrite ?listeners_after_join, ?listeners_after_failed_join.
    + done.
    + unfold listeners_of. by rewrite closures_keep_sockets.
  - unfold handle. destruct (is_connected st s); [|done].
    rewrite and_then_state. unfold listeners_of.
    rewrite disconnect_loop_sockets. simpl. rewrite lookup_alter.
    case_decide; [|done]. subst. by destruct (sockets st !! sid).
Qed.

(** X3: the listeners for every event but join-room are registered only
    when a join completes.  So for a socket that has completed no join,
    whatever inputs arrive before a store operation settles, an event other
    than join-room changes nothing and emits nothing: a stroke drawn while
    the join awaits the store is neither logged nor echoed. *)
Theorem events_before_join_dropped (st : state) (sid : string)
    (tr : list input) (e : client_event) :
  listeners_of st sid = [] → Forall (λ i, ∀ k o, i ≠ Settle k o) tr →
  is_join_room e = false →
  listeners_of (run_from st tr).1 sid = [] ∧
  handle (Receive sid e) (run_from st tr).1 = ((run_from st tr).1, []).
Proof.
  intros Hl Htr He.
  assert (listeners_of (run_from st tr).1 sid = []) as Hl'.
  { induction tr as [|i tr IH] using rev_ind; [done|].
    rewrite Forall_app, Forall_singleton in Htr. destruct Htr as [Htr Hi].
    rewrite run_from_snoc. cbn [fst].
    rewrite listeners_kept_until_settle by exact Hi. by apply IH. }
  split; [done|]. unfold handle, dispatch.
  destruct (is_connected _ sid); [|done].
  destruct e as [| | | | | | | | | | |name]; try done; try (by rewrite Hl').
  unfold on_no_payload. rewrite Hl'. by destruct name.
Qed.

Lemma events_before_join_dropped_witness :
  let st := run [Connection "a"] in
  let tr := [ Receive "a" (JoinRoom (Some "r1") (Some "alice")); Connection "b" ] in
  members (run_from st tr).1 "r1" = [Member "a" "alice"] ∧
  handle (Receive "a" (WhiteboardDraw (VStr "s1"))) (run_from st tr).1 =
    ((run_from st tr).1, []).
Proof.
  intros st tr. split; [vm_compute; reflexivity|].
  refine (proj2 (events_before_join_dropped st "a" tr (WhiteboardDraw (VStr "s1"))
                   _ _ _)).
  - vm_compute. reflexivity.
  - repeat (apply List.Forall_cons; [discriminate|]). apply List.Forall_nil.
  - reflexivity.
Defined.

(** ** Task board: tasks:get (lines 140-142) *)

Lemma tasks_get_loop sid r l st :
  for_each (λ roomId, on_tasks_get sid roomId (Some r)) l st =
    (st, replicate (length l)
           {| em_scope := ToSocket sid; em_event := TasksUpdateOut (board_of st r);
              em_to := recipients st (ToSocket sid) |}).
Proof.
  induction l as [|x l IH]; [done|].
  rewrite for_each_cons. unfold and_then, on_tasks_get at 1, emit_read, emit.
  cbn beta iota zeta. by rewrite IH.
Qed.

(** What [taskBoards[r] || skeleton] is under a name the store does not hold
    itself: the function of that name for a name of [Object.prototype], and
    what a board that was made the prototype of the store holds under that
    name. *)
Lemma board_of_inherited_name :
  board_of init "toString" = VFunction "toString" ∧
  board_of init "r1" = default_board ∧
  (let st := (handle (Receive "a" (TasksUpdate (Some "__proto__") board1))
                (run joined_A_trace)).1 in
   taskBoards st = ∅ ∧ taskBoardsProto st = Some board1 ∧
   board_of st "todo" = VArr [VStr "write report"]) ∧
  (let st := (handle (Receive "a" (TasksUpdate (Some "__proto__") (VNum 5)))
                (run joined_A_trace)).1 in
   st = run joined_A_trace ∧ board_of st "__proto__" = VObj []).
Proof. vm_compute. repeat split; reflexivity. Qed.

(** X4: tasks:get changes nothing and answers the asking socket alone, once
    per closure of the asker, with what [taskBoards[r] || skeleton] is for
    the payload's room: the board the store holds under that name, or, when
    it holds none, the name is not one every object inherits and no board
    was made the store's prototype, the default skeleton.  After an accepted
    tasks:update for a room other than [__proto__], a tasks:get for that
    room from any connected socket is answered with the board just
    written. *)
Theorem tasks_get_reads_last_update (st : state) (writer reader r : string) (b : value) :
  is_connected st writer = true → listeners_of st writer ≠ [] →
  is_connected st reader = true → r ≠ "" → r ≠ "__proto__" → truthy b = true →
  (∀ r', handle (Receive reader (TasksGet (Some r'))) st =
     (st, replicate (length (listeners_of st reader))
            {| em_scope := ToSocket reader;
               em_event := TasksUpdateOut (board_of st r');
               em_to := {[reader]} |})) ∧
  (∀ r' v, taskBoards st !! r' = Some v → truthy v = true → board_of st r' = v) ∧
  (∀ r', taskBoards st !! r' = None → taskBoardsProto st = None →
         inherits r' = false → board_of st r' = default_board) ∧
  let st1 := (handle (Receive writer (TasksUpdate (Some r) b)) st).1 in
  handle (Receive reader (TasksGet (Some r))) st1 =
    (st1, replicate (length (listeners_of st reader))
            {| em_scope := ToSocket reader; em_event := TasksUpdateOut b;
               em_to := {[reader]} |}).
Proof.
  intros Hw Hl Hr Hne Hown Hb.
  assert (∀ st' r', is_connected st' reader = true →
    handle (Receive reader (TasksGet (Some r'))) st' =
     (st', replicate (length (listeners_of st' reader))
            {| em_scope := ToSocket reader;
               em_event := TasksUpdateOut (board_of st' r');
               em_to := {[reader]} |})) as Hget.
  { intros st' r' Hc. unfold handle, dispatch. rewrite Hc.
    change (for_each _ (listeners_of st' reader) st')
      with (for_each (λ roomId, on_tasks_get reader roomId (Some r'))
              (listeners_of st' reader) st').
    rewrite tasks_get_loop. simpl. by rewrite Hc. }
  split; [intros r'; by apply Hget|].
  split; [intros r' v Hv Ht; unfold board_of, taskBoards_get; by rewrite Hv, Ht|].
  split.
  { intros r' Hnone Hproto Hplain. unfold board_of, taskBoards_get, inherited.
    rewrite Hnone, Hproto, Hplain.
    destruct (String.eqb_spec r' "__proto__") as [->|_]; [done|done]. }
  intros st1.
  assert (st1 = with_taskBoards (<[r := b]>) st) as ->.
  { unfold st1, handle, dispatch. rewrite Hw.
    change (for_each _ (listeners_of st writer) st)
      with (for_each (λ roomId, on_tasks_update writer roomId (Some r) b)
              (listeners_of st writer) st).
    by rewrite tasks_update_loop. }
  rewrite Hget by done.
  unfold board_of, taskBoards_get. simpl. by rewrite lookup_insert_eq, Hb.
Qed.

Lemma tasks_get_reads_last_update_witness :
  let st := run two_in_room_trace in
  let st1 := (handle (Receive "a" (TasksUpdate (Some "r1") board1)) st).1 in
  is_connected st "a" = true ∧ is_connected st "b" = true ∧
  handle (Receive "b" (TasksGet (Some "r1"))) st1 =
    (st1, replicate (length (listeners_of st "b"))
            {| em_scope := ToSocket "b"; em_event := TasksUpdateOut board1;
               em_to := {["b"]} |}).
Proof.
  intros st st1.
  assert (is_connected st "a" = true) as Ha by (vm_compute; reflexivity).
  assert (is_connected st "b" = true) as Hb by (vm_compute; reflexivity).
  assert (listeners_of st "a" ≠ []) as Hl.
  { assert (listeners_of st "a" = ["r1"]) as -> by (vm_compute; reflexivity).
    discriminate. }
  assert ("r1" ≠ "") as Hr by discriminate.
  assert ("r1" ≠ "__proto__") as Hown by discriminate.
  assert (truthy board1 = true) as Ht by reflexivity.
  split; [exact Ha|]. split; [exact Hb|].
  exact (proj2 (proj2 (proj2 (tasks_get_reads_last_update st "a" "b" "r1" board1
                                Ha Hl Hb Hr Hown Ht)))).
Defined.

(** ** Signaling to a socket id *)

Lemma room_sockets_of_socket_id st t :
  (∀ s, ¬ joined st s t) →
  room_sockets st t = if is_connected st t then {[t]} else ∅.
Proof.
  intros Hnobody. apply set_eq. intros s. rewrite elem_of_room_sockets.
  split.
  - intros (sk & Hsk & Hin). unfold in_room in Hin.
    apply andb_true_iff in Hin as [Hc Hin].
    apply orb_true_iff in Hin as [Hid|Hroom].
    + apply bool_decide_eq_true in Hid. subst s.
      unfold is_connected. rewrite Hsk, Hc. by apply elem_of_singleton.
    + apply bool_decide_eq_true in Hroom. destruct (Hnobody s). by exists sk.
  - destruct (is_connected st t) eqn:Hc; [|by intros ?%elem_of_empty].
    intros ->%elem_of_singleton.
    apply is_connected_true in Hc as (sk & Hsk & Hc). exists sk.
    split; [done|]. unfold in_room. rewrite Hc. simpl.
    by rewrite bool_decide_eq_true_2.
Qed.

(** X5: when no connection is joined to a room whose key is the target
    string, an offer, answer or ice-candidate with that target is delivered
    to the connected socket with that id and to nobody else, and to nobody
    at all when that socket is unknown or disconnected; what is delivered
    carries the sender's id as [caller] (offer, answer) or [from]
    (ice-candidate), and the sender need not share a room with the
    target. *)
Theorem relay_unicast (st : state) (sid roomId t : string) (payload : value) :
  t ≠ "" → (∀ s, ¬ joined st s t) →
  let to := if is_connected st t then {[t]} else ∅ in
  on_offer sid roomId (Some t) payload st =
    (st, [ {| em_scope := ToRoom t; em_event := OfferOut payload sid; em_to := to |} ]) ∧
  on_answer sid roomId (Some t) payload st =
    (st, [ {| em_scope := ToRoom t; em_event := AnswerOut payload sid; em_to := to |} ]) ∧
  on_ice_candidate sid roomId (Some t) payload st =
    (st, [ {| em_scope := ToRoom t; em_event := IceCandidateOut payload sid;
              em_to := to |} ]).
Proof.
  intros Ht%present_Some Hnobody to. subst to.
  unfold on_offer, on_answer, on_ice_candidate, emit. rewrite Ht.
  unfold recipients. by rewrite room_sockets_of_socket_id.
Qed.

Lemma relay_unicast_witness :
  let st := run two_in_room_trace in
  (∀ s, ¬ joined st s "b") ∧
  on_offer "a" "r1" (Some "b") (VStr "v=0") st =
    (st, [ {| em_scope := ToRoom "b"; em_event := OfferOut (VStr "v=0") "a";
              em_to := if is_connected st "b" then {["b"]} else ∅ |} ]).
Proof.
  intros st.
  assert (sockets st =
            <["a" := {| sock_connected := true; sock_rooms := {["r1"]};
                        sock_listeners := ["r1"] |}]>
              {[ "b" := {| sock_connected := true; sock_rooms := {["r1"]};
                           sock_listeners := ["r1"] |} ]}) as Hs
    by (vm_compute; reflexivity).
  assert (∀ s, ¬ joined st s "b") as Hnobody.
  { intros s (sk & Hsk & _ & Hin). rewrite Hs in Hsk.
    apply lookup_insert_Some in Hsk as [[_ <-]|[_ Hsk]].
    - simpl in Hin. apply elem_of_singleton in Hin. discriminate.
    - apply lookup_singleton_Some in Hsk as [_ <-].
      simpl in Hin. apply elem_of_singleton in Hin. discriminate. }
  assert ("b" ≠ "") as Hb by discriminate.
  split; [exact Hnobody|].
  exact (proj1 (relay_unicast st "a" "r1" "b" (VStr "v=0") Hb Hnobody)).
Defined.

(** ** Chat: one create per closure *)

Lemma send_message_loop sid r sender text l st :
  r ≠ "" → text ≠ "" →
  for_each (λ roomId, on_send_message sid roomId (Some r) sender (Some text)) l st =
    (with_pending (λ p, p ++ replicate (length l)
                              (AwaitCreate r (or_else sender "Guest") text)) st, []).
Proof.
  intros Hr Ht. revert st. induction l as [|x l IH]; intros st.
  - rewrite for_each_nil. simpl. unfold with_pending. rewrite app_nil_r.
    by destruct st.
  - rewrite for_each_cons. unfold and_then.
    rewrite on_send_message_accepted by done. rewrite IH.
    unfold with_pending. simpl. by rewrite <-app_assoc.
Qed.

(** X8: a send-message with room id and text present queues one create per
    closure of the sender, each for the room named in the payload, whatever
    rooms the closures are for; it changes nothing else and emits nothing
    before the store answers.  A socket that completed two joins thus has
    every message it sends stored twice. *)
Theorem send_message_once_per_closure (st : state) (sid r text : string)
    (sender : option string) :
  is_connected st sid = true → r ≠ "" → text ≠ "" →
  handle (Receive sid (SendMessage (Some r) sender (Some text))) st =
    (with_pending (λ p, p ++ replicate (length (listeners_of st sid))
                              (AwaitCreate r (or_else sender "Guest") text)) st, []).
Proof.
  intros Hc Hr Ht. unfold handle, dispatch. rewrite Hc.
  change (for_each _ (listeners_of st sid) st)
    with (for_each (λ roomId, on_send_message sid roomId (Some r) sender (Some text))
            (listeners_of st sid) st).
  by apply send_message_loop.
Qed.

Lemma send_message_once_per_closure_witness :
  let st := run twice_joined_trace in
  is_connected st "a" = true ∧
  pending (handle (Receive "a" (SendMessage (Some "r9") None (Some "hi"))) st).1 =
    [AwaitCreate "r9" "Guest" "hi"; AwaitCreate "r9" "Guest" "hi"].
Proof.
  intros st.
  assert (is_connected st "a" = true) as Hc by (vm_compute; reflexivity).
  split; [exact Hc|].
  rewrite (send_message_once_per_closure st "a" "r9" "hi" None Hc)
    by discriminate.
  vm_compute. reflexivity.
Defined.

(** ** Whiteboard: rooms do not interfere *)

(** A draw through a closure whose room's log is another array leaves the
    log of [r] as it is. *)
Lemma draw_other_log sid r' x st r :
  arrays_coherent st → shares st r r' = false →
  whiteboardData (on_whiteboard_draw sid r' x st).1 !! r = whiteboardData st !! r.
Proof.
  intros [Hnum Hout Hone] Hsh. unfold shares in Hsh.
  apply orb_false_iff in Hsh as [Hne%bool_decide_eq_false Hsh].
  rewrite on_whiteboard_draw_state, whiteboardData_push_stroke.
  destruct (whiteboardData st !! r') as [l'|] eqn:Hl'.
  - destruct (proj2 (Hnum r')) as [a' Ha']; [by eexists|].
    rewrite Ha'. rewrite Ha' in Hsh.
    destruct (whiteboardData st !! r) as [l|] eqn:Hl; [|done]. simpl.
    destruct (proj2 (Hnum r)) as [a Ha]; [by eexists|].
    rewrite Ha in Hsh. apply bool_decide_eq_false in Hsh.
    rewrite Ha, bool_decide_eq_false_2; [done|]. by intros [= ->].
  - unfold new_log, store_log. simpl. rewrite lookup_insert_eq.
    rewrite !lookup_insert_ne by done.
    destruct (whiteboardData st !! r) as [l|] eqn:Hl; [|done]. simpl.
    rewrite bool_decide_eq_false_2; [done|].
    intros Ha%Hout. lia.
Qed.

Lemma draw_loop_other sid x l st r :
  arrays_coherent st → (∀ r', r' ∈ l → shares st r r' = false) →
  whiteboardData (for_each (λ r', on_whiteboard_draw sid r' x) l st).1 !! r =
    whiteboardData st !! r.
Proof.
  revert st. induction l as [|r' l IH]; intros st Hco Hl; [done|].
  rewrite for_each_cons, and_then_state, IH.
  - apply draw_other_log; [done|]. apply Hl. by left.
  - apply (closure_handler_coherent 0 sid r' (WhiteboardDraw x) st); done.
  - intros r0 Hr0. rewrite shares_after_draw by done. apply Hl. by right.
Qed.

Lemma whiteboard_handler_frame a sid r e st :
  whiteboard_event e = true →
  rooms (closure_handler a sid r e st).1 = rooms st ∧
  taskBoards (closure_handler a sid r e st).1 = taskBoards st ∧
  sockets (closure_handler a sid r e st).1 = sockets st ∧
  collection (closure_handler a sid r e st).1 = collection st ∧
  pending (closure_handler a sid r e st).1 = pending st.
Proof.
  destruct e as [|x|xs|xs| | | | | | | |]; try done; intros _; cbn [closure_handler].
  - rewrite on_whiteboard_draw_state.
    destruct (push_stroke_frame r x (match whiteboardData st !! r with
                                     | Some _ => st | None => new_log r st end))
      as [W ->].
    by destruct (whiteboardData st !! r).
  - by destruct xs.
  - by destruct xs.
Qed.

(** X6: in a reachable state, a whiteboard event (draw, undo, redo, clear)
    leaves the stroke log of a room as it is when the sender has no closure
    for the room and, for a draw, no closure for a room whose log is the
    same array; and it changes neither a membership list, a task board, a
    socket, the message collection nor the queue of awaited store
    operations. *)
Theorem whiteboard_events_stay_in_room (st : state) (sid r : string) (e : client_event) :
  reachable st → whiteboard_event e = true → r ∉ listeners_of st sid →
  (is_draw e = true → ∀ r', r' ∈ listeners_of st sid → shares st r r' = false) →
  let st' := (handle (Receive sid e) st).1 in
  whiteboardData st' !! r = whiteboardData st !! r ∧
  rooms st' = rooms st ∧ taskBoards st' = taskBoards st ∧
  sockets st' = sockets st ∧ collection st' = collection st ∧
  pending st' = pending st.
Proof.
  intros Hst He Hr Hsh st'. subst st'. unfold handle.
  pose proof (reachable_coherent _ Hst) as Hco.
  destruct (is_connected st sid); [|done]. split.
  - destruct e as [| x | xs | xs | | | | | | | |]; try done; unfold dispatch.
    + change (for_each _ (listeners_of st sid) st)
        with (for_each (λ r', on_whiteboard_draw sid r' x) (listeners_of st sid) st).
      apply draw_loop_other; [done|]. by apply Hsh.
    + change (for_each _ (listeners_of st sid) st)
        with (for_each (λ r', on_whiteboard_undo (arrays st) sid r' xs)
                (listeners_of st sid) st).
      rewrite (replace_loop _ (default [] xs)) by (intros; apply undo_replaces).
      by rewrite decide_False.
    + change (for_each _ (listeners_of st sid) st)
        with (for_each (λ r', on_whiteboard_redo (arrays st) sid r' xs)
                (listeners_of st sid) st).
      rewrite (replace_loop _ (default [] xs)) by (intros; apply redo_replaces).
      by rewrite decide_False.
    + change (for_each _ (listeners_of st sid) st)
        with (for_each (on_whiteboard_clear sid) (listeners_of st sid) st).
      rewrite (replace_loop _ []) by done. by rewrite decide_False.
  - assert (dispatch sid e st =
            for_each (λ r0, closure_handler (arrays st) sid r0 e)
              (listeners_of st sid) st) as ->
      by (by destruct e).
    apply (for_each_preserves
             (λ st', rooms st' = rooms st ∧ taskBoards st' = taskBoards st ∧
                     sockets st' = sockets st ∧ collection st' = collection st ∧
                     pending st' = pending st)
             (λ r0, closure_handler (arrays st) sid r0 e)); [|done].
    intros r0 st0 _ (<- & <- & <- & <- & <-). by apply whiteboard_handler_frame.
Qed.

Lemma whiteboard_events_stay_in_room_witness :
  let st := run (joined_A_trace ++
                 [ Connection "b";
                   Receive "b" (JoinRoom (Some "B") (Some "bob"));
                   Settle 0 (Resolved 0);
                   Receive "b" (WhiteboardDraw (VStr "s1")) ]) in
  let st' := (handle (Receive "a" (WhiteboardDraw (VStr "s2"))) st).1 in
  reachable st ∧ ("B" ∉ listeners_of st "a") ∧
  whiteboardData st' !! "A" = Some [VStr "s2"] ∧
  whiteboardData st' !! "B" = Some [VStr "s1"].
Proof.
  intros st st'.
  assert (reachable st) as Hst by (by eexists).
  assert (listeners_of st "a" = ["A"]) as Hl by (vm_compute; reflexivity).
  assert ("B" ∉ listeners_of st "a") as Hr.
  { rewrite Hl. intros Hin. apply list_elem_of_singleton in Hin. discriminate. }
  assert (∀ r', r' ∈ listeners_of st "a" → shares st "B" r' = false) as Hsh.
  { intros r'. rewrite Hl. intros ->%list_elem_of_singleton.
    vm_compute. reflexivity. }
  split; [exact Hst|]. split; [exact Hr|].
  split; [vm_compute; reflexivity|].
  unfold st'.
  rewrite (proj1 (whiteboard_events_stay_in_room st "a" "B" (WhiteboardDraw (VStr "s2"))
                    Hst eq_refl Hr (λ _, Hsh))).
  vm_compute. reflexivity.
Defined.

(** ** Whiteboard: strokes are logged in arrival order *)





(** ** Presence: users:update carries the list as it stands *)

Lemma closure_handler_no_users_update a sid r ev st :
  Forall (λ e, ∀ l, em_event e ≠ UsersUpdate l) (closure_handler a sid r ev st).2.
Proof.
  destruct ev as [rid un|x|xs|xs| |r' sender text|r'|r' b|t sdp|t sdp|t c|name];
    cbn [closure_handler]; unfold_handlers;
    repeat match goal with
    | |- context [match ?o with Some _ => _ | None => _ end] => destruct o
    | |- context [if negb ?a || negb ?b then _ else _] => destruct (negb a || negb b)
    | |- context [if present ?a then _ else _] => destruct (present a)
    end;
    unfold and_then, emit_read, emit, modify, skip, suspend;
    cbn beta iota zeta; cbn [fst snd app];
    try (destruct (whiteboardData st !! r); cbn beta iota zeta; cbn [fst snd app]);
    repeat (apply List.Forall_cons; [by intros ?|]); apply List.Forall_nil.
Qed.

Lemma leave_loop_users_update sid l st e users :
  e ∈ (for_each (on_disconnect sid) l st).2 → em_event e = UsersUpdate users →
  ∃ r, r ∈ l ∧ em_scope e = ToRoom r ∧ users = without_socket sid (members st r).
Proof.
  revert st. induction l as [|r0 l IH]; intros st.
  - rewrite for_each_nil. by intros ?%not_elem_of_nil.
  - rewrite for_each_cons, and_then_out.
    intros [He|He]%elem_of_app Hev.
    + destruct (rooms st !! r0) as [l0|] eqn:Hl0.
      * rewrite (on_disconnect_known _ _ l0) in He by done. simpl in He.
        apply elem_of_cons in He as [->|He].
        -- simpl in Hev. injection Hev as <-. exists r0.
           split; [by left|]. split; [done|]. by rewrite (members_lookup _ _ l0).
        -- apply list_elem_of_singleton in He as ->. done.
      * rewrite on_disconnect_unknown in He by done. by apply not_elem_of_nil in He.
    + destruct (IH _ He Hev) as (r & Hr & Hsc & ->).
      exists r. split; [by right|]. split; [done|].
      rewrite on_disconnect_members. case_decide; [|done].
      subst. by rewrite without_socket_idemp.
Qed.

(** X2: every users:update a step emits is addressed to a whole room and
    carries that room's membership list exactly as it stands when the step
    ends: with the joiner's entry after a join, without the leaver's entries
    after a disconnect. *)
Theorem users_update_carries_current_list (st : state) (i : input)
    (e : emission) (users : list member) :
  e ∈ (handle i st).2 → em_event e = UsersUpdate users →
  ∃ r, em_scope e = ToRoom r ∧ users = members (handle i st).1 r.
Proof.
  destruct i as [sid | sid ev | sid | i o].
  - simpl. destruct (sockets st !! sid); by intros ?%not_elem_of_nil.
  - unfold handle. destruct (is_connected st sid) eqn:Hc;
      [|by intros ?%not_elem_of_nil].
    destruct (dispatch_cases sid ev st)
      as [(rid & un & -> & ->)|[(name & es & -> & ->)|[Hev' ->]]].
    + join_cases rid un st;
        [by intros ?%not_elem_of_nil| |by intros ?%not_elem_of_nil].
      cbn [fst snd]. intros He Hev.
      apply elem_of_cons in He as [->|He].
      * simpl in Hev. injection Hev as <-. exists r. split; [done|].
        by rewrite members_after_join, decide_True.
      * apply list_elem_of_singleton in He as ->. done.
    + by intros ?%not_elem_of_nil.
    + intros He Hev.
      assert (Forall (λ e', ∀ l, em_event e' ≠ UsersUpdate l)
                (for_each (λ r, closure_handler (arrays st) sid r ev)
                   (listeners_of st sid) st).2) as HF.
      { apply (for_each_out (λ _, True)); [|done].
        intros r st' _. split; [done|]. apply closure_handler_no_users_update. }
      rewrite Forall_forall in HF. by destruct (HF e He users).
  - unfold handle. destruct (is_connected st sid) eqn:Hc;
      [|by intros ?%not_elem_of_nil].
    rewrite and_then_out, and_then_state. simpl app.
    intros He Hev.
    destruct (leave_loop_users_update _ _ _ _ _ He Hev) as (r & Hr & Hsc & ->).
    exists r. split; [done|]. by rewrite leave_loop, decide_True.
  - destruct (pending st !! i) as [[sid r|r sender text]|] eqn:Hk.
    + rewrite (handle_settle_find_eq _ _ sid r) by done.
      rewrite resume_join_room_eq. cbn [fst snd]. intros He Hev.
      repeat (apply elem_of_cons in He as [->|He]; [by destruct o|]).
      by apply not_elem_of_nil in He.
    + unfold handle. rewrite Hk. destruct o.
      * rewrite and_then_out, resume_send_message_resolved. simpl.
        intros ->%list_elem_of_singleton. done.
      * rewrite and_then_out, resume_send_message_rejected. simpl.
        by intros ?%not_elem_of_nil.
    + unfold handle. rewrite Hk. by intros ?%not_elem_of_nil.
Qed.

Lemma users_update_carries_current_list_witness :
  let st := run twice_joined_trace in
  let e := {| em_scope := ToRoom "r1"; em_event := UsersUpdate [Member "b" "bob"];
              em_to := {["b"]} |} in
  e ∈ (handle (Disconnect "a") st).2 ∧
  ∃ r, em_scope e = ToRoom r ∧
       [Member "b" "bob"] = members (handle (Disconnect "a") st).1 r.
Proof.
  intros st e.
  assert (e ∈ (handle (Disconnect "a") st).2) as He.
  { assert ((handle (Disconnect "a") st).2 !! 0 = Some e) as Hlook
      by (vm_compute; reflexivity).
    by eapply list_elem_of_lookup_2. }
  split; [exact He|].
  exact (users_update_carries_current_list st (Disconnect "a") e
           [Member "b" "bob"] He eq_refl).
Defined.

(** ** Whose entries an input can touch *)

Lemma entries_without_other sid s l :
  sid ≠ s →
  filter (λ m, socketId m = s) (without_socket sid l) = filter (λ m, socketId m = s) l.
Proof.
  intros Hne. unfold without_socket. induction l as [|m l IH]; [done|].
  rewrite !filter_cons. destruct (decide (socketId m = s)) as [Hm|Hm].
  - rewrite decide_True by congruence. rewrite filter_cons, decide_True by done.
    by rewrite IH.
  - case_decide; [|done]. by rewrite filter_cons, decide_False.
Qed.

(** X12: an input adds or removes membership entries of its own sender
    only: for every other connection, the entries it has in a room's list
    are the same, in the same order, before and after the step.  A
    disconnect in particular never removes another connection's entry. *)
Theorem entries_of_others_untouched (st : state) (i : input) (s r : string) :
  sender_of i ≠ Some s →
  filter (λ m, socketId m = s) (members (handle i st).1 r) =
  filter (λ m, socketId m = s) (members st r).
Proof.
  intros Hs. rewrite members_step. unfold members_after_input.
  destruct i as [sid | sid e | sid | i o]; try done.
  - destruct e as [rid un| | | | | | | | | | |]; try done.
    destruct rid as [r'|]; [|done]. destruct un as [u|]; [|done].
    destruct (_ && _); [|done]. rewrite filter_app, filter_cons.
    rewrite decide_False; [by rewrite app_nil_r|].
    simpl. simpl in Hs. congruence.
  - destruct (_ && _); [|done]. apply entries_without_other.
    simpl in Hs. congruence.
Qed.

Lemma entries_of_others_untouched_witness :
  let st := run twice_joined_trace in
  filter (λ m, socketId m = "b") (members (handle (Disconnect "a") st).1 "r1") =
  filter (λ m, socketId m = "b") (members st "r1").
Proof.
  intros st.
  apply (entries_of_others_untouched st (Disconnect "a") "b" "r1").
  discriminate.
Defined.

(** ** The last member leaves *)

Lemma without_socket_all sid l :
  (∀ m, m ∈ l → socketId m = sid) → without_socket sid l = [].
Proof.
  unfold without_socket. induction l as [|m l IH]; intros Hl; [done|].
  rewrite filter_cons, decide_False.
  - apply IH. intros m' Hm'. apply Hl. by right.
  - intros Hne. apply Hne, Hl. by left.
Qed.

(** X13: when a connection that has a closure for a room disconnects and
    every entry of the room's membership list is its own, the step deletes
    the room's membership list, stroke log and task board. *)
Theorem last_member_leaving_reclaims (st : state) (sid r : string) :
  reachable st → is_connected st sid = true → r ∈ listeners_of st sid →
  (∀ m, m ∈ members st r → socketId m = sid) →
  let st' := (handle (Disconnect sid) st).1 in
  rooms st' !! r = None ∧ whiteboardData st' !! r = None ∧
  taskBoards st' !! r = None.
Proof.
  intros Hst Hc Hl Hown st'.
  pose proof (reachable_inv _ Hst) as Hinv.
  pose proof (reachable_inv _ (reachable_step st (Disconnect sid) Hst)) as Hinv'.
  assert (members st' r = []) as Hm.
  { unfold st'. rewrite members_step. unfold members_after_input.
    rewrite Hc. simpl andb. rewrite bool_decide_eq_true_2 by done.
    by apply without_socket_all. }
  assert (rooms st' !! r = None) as Hnone.
  { destruct (rooms st' !! r) as [l|] eqn:Hr; [|done].
    destruct (inv_nonempty _ Hinv' r l Hr). by rewrite <-(members_lookup _ _ _ Hr). }
  split; [done|]. apply reclaimed_together; [|done].
  destruct (listener_room_exists st sid r Hinv Hc Hl) as (m & Hin & _).
  by eapply elem_members_is_Some.
Qed.

Lemma last_member_leaving_reclaims_witness :
  let st := run (drawn_trace ++ [Receive "a" (TasksUpdate (Some "r1") board1)]) in
  let st' := (handle (Disconnect "a") st).1 in
  whiteboardData st !! "r1" = Some [VStr "s0"; VStr "s1"] ∧
  taskBoards st !! "r1" = Some board1 ∧
  rooms st' !! "r1" = None ∧ whiteboardData st' !! "r1" = None ∧
  taskBoards st' !! "r1" = None.
Proof.
  intros st st'.
  assert (reachable st) as Hst by (by eexists).
  assert (is_connected st "a" = true) as Hc by (vm_compute; reflexivity).
  assert ("r1" ∈ listeners_of st "a") as Hl.
  { assert (listeners_of st "a" = ["r1"]) as -> by (vm_compute; reflexivity).
    apply list_elem_of_here. }
  assert (∀ m, m ∈ members st "r1" → socketId m = "a") as Hown.
  { assert (members st "r1" = [Member "a" "alice"]) as -> by (vm_compute; reflexivity).
    by intros m ->%list_elem_of_singleton. }
  split; [vm_compute; reflexivity|]. split; [vm_compute; reflexivity|].
  exact (last_member_leaving_reclaims st "a" "r1" Hst Hc Hl Hown).
Defined.

(** ** A connection that disconnects before its join completes *)

Lemma entry_of_gone_kept i st sid r m :
  gone st sid → socketId m = sid → m ∈ members st r →
  m ∈ members (handle i st).1 r.
Proof.
  intros Hg Hm Hin. rewrite members_step. unfold members_after_input.
  destruct i as [s | s e | s | i o]; try done.
  - destruct e as [rid un| | | | | | | | | | |]; try done.
    destruct rid as [r'|]; [|done]. destruct un as [u|]; [|done].
    destruct (_ && _); [|done]. apply elem_of_app. by left.
  - destruct (is_connected st s) eqn:Hc; [|done]. simpl andb.
    case_bool_decide; [|done]. apply elem_of_without_socket. split; [|done].
    rewrite Hm. intros ->. apply gone_not_connected in Hg. congruence.
Qed.

(** X14: the disconnect listener is registered only when a join completes,
    so when a connection disconnects while it has an entry in a room's list
    but no closure for that room yet, the entry is not removed by the
    disconnect, and no later input removes it: the room's list keeps an
    entry with no connection behind it, and is never reclaimed. *)
Theorem unfinished_join_entry_stays (st : state) (sid r : string) (m : member) :
  is_connected st sid = true → r ∉ listeners_of st sid →
  m ∈ members st r → socketId m = sid →
  ∀ tr, m ∈ members (run_from (handle (Disconnect sid) st).1 tr).1 r ∧
        is_Some (rooms (run_from (handle (Disconnect sid) st).1 tr).1 !! r) ∧
        is_connected (run_from (handle (Disconnect sid) st).1 tr).1 sid = false.
Proof.
  intros Hc Hl Hin Hm tr.
  set (st1 := (handle (Disconnect sid) st).1).
  assert (gone st1 sid) as Hg1.
  { unfold st1, handle. rewrite Hc, and_then_state.
    apply (for_each_preserves (λ st', gone st' sid)).
    - intros r0 st0 _. unfold gone. by rewrite on_disconnect_sockets.
    - apply is_connected_true in Hc as (sk & Hsk & _).
      unfold gone. simpl. rewrite lookup_alter_eq, Hsk. by eexists. }
  assert (m ∈ members st1 r) as Hin1.
  { unfold st1. rewrite members_step. unfold members_after_input.
    rewrite Hc. simpl andb. by rewrite bool_decide_eq_false_2. }
  assert (gone (run_from st1 tr).1 sid ∧ m ∈ members (run_from st1 tr).1 r)
    as [Hg Hin'].
  { induction tr as [|i tr [IHg IHm]] using rev_ind; [done|].
    rewrite run_from_snoc. simpl. split.
    - by apply gone_step.
    - by apply (entry_of_gone_kept _ _ sid). }
  split; [done|]. split; [by eapply elem_members_is_Some|].
  by apply gone_not_connected.
Qed.

Lemma unfinished_join_entry_stays_witness :
  let st := run [ Connection "a";
                  Receive "a" (JoinRoom (Some "r1") (Some "alice")) ] in
  let m := Member "a" "alice" in
  is_connected st "a" = true ∧ ("r1" ∉ listeners_of st "a") ∧
  m ∈ members st "r1" ∧
  ∀ tr, m ∈ members (run_from (handle (Disconnect "a") st).1 tr).1 "r1" ∧
        is_Some (rooms (run_from (handle (Disconnect "a") st).1 tr).1 !! "r1") ∧
        is_connected (run_from (handle (Disconnect "a") st).1 tr).1 "a" = false.
Proof.
  intros st m.
  assert (is_connected st "a" = true) as Hc by (vm_compute; reflexivity).
  assert ("r1" ∉ listeners_of st "a") as Hl.
  { assert (listeners_of st "a" = []) as -> by (vm_compute; reflexivity).
    apply not_elem_of_nil. }
  assert (m ∈ members st "r1") as Hin.
  { assert (members st "r1" = [m]) as -> by (vm_compute; reflexivity).
    apply list_elem_of_here. }
  split; [exact Hc|]. split; [exact Hl|]. split; [exact Hin|].
  exact (unfinished_join_entry_stays st "a" "r1" m Hc Hl Hin eq_refl).
Defined.

(** ** No way out of a room but to disconnect *)

Lemma joined_alter (f : socket → socket) s st sid r :
  (∀ sk, sock_connected (f sk) = sock_connected sk) →
  (∀ sk, sock_rooms sk ⊆ sock_rooms (f sk)) →
  joined st sid r → joined (with_sockets (alter f s) st) sid r.
Proof.
  intros Hfc Hfr (sk & Hsk & Hc & Hin). unfold joined. simpl.
  rewrite lookup_alter. case_decide; subst.
  - rewrite Hsk. simpl. eexists. split; [done|]. rewrite Hfc.
    split; [done|]. by apply Hfr.
  - by exists sk.
Qed.

(** X15: there is no handler through which a connection leaves a room: a
    connection joined to a room is still joined to it, and still has every
    entry it had in the room's membership list, after any input other than
    its own disconnect. *)
Theorem joined_until_disconnect (st : state) (i : input) (sid r : string) :
  joined st sid r → i ≠ Disconnect sid →
  joined (handle i st).1 sid r ∧
  ∀ m, m ∈ members st r → socketId m = sid → m ∈ members (handle i st).1 r.
Proof.
  intros Hj Hi. pose proof Hj as (sk & Hsk & Hc & Hin). split.
  - destruct i as [s | s e | s | i o].
    + simpl. destruct (sockets st !! s) eqn:Hs; [done|]. unfold joined. simpl.
      rewrite lookup_insert_ne; [by exists sk|]. intros ->. congruence.
    + unfold handle. destruct (is_connected st s); [|done].
      destruct (dispatch_cases s e st)
        as [(rid & un & -> & ->)|[(name & es & -> & ->)|[He ->]]].
      * join_cases rid un st; [by exists sk| |].
        -- apply (joined_alter (enter_room r0) s); [done| |done].
           intros sk'. simpl. apply union_subseteq_r.
        -- unfold after_failed_join.
           apply (joined_alter (enter_room r0) s
                    (with_escaped (λ l, l ++ [UnhandledRejection s]) st));
             [done| |by exists sk].
           intros sk'. simpl. apply union_subseteq_r.
      * by exists sk.
      * unfold joined. rewrite closures_keep_sockets. by exists sk.
    + unfold handle. destruct (is_connected st s); [|done].
      rewrite and_then_state. unfold joined.
      rewrite disconnect_loop_sockets. simpl.
      rewrite lookup_alter_ne; [by exists sk|]. intros ->. by destruct Hi.
    + simpl. destruct (pending st !! i) as [[s r'|r' sender text]|]; try done.
      * rewrite and_then_state. simpl.
        by apply (joined_alter (add_listener r') s).
      * by destruct o.
  - intros m Hm Hms. rewrite members_step. unfold members_after_input.
    destruct i as [s | s e | s | i o]; try done.
    + destruct e as [rid un| | | | | | | | | | |]; try done.
      destruct rid as [r'|]; [|done]. destruct un as [u|]; [|done].
      destruct (_ && _); [|done]. apply elem_of_app. by left.
    + destruct (_ && _); [|done]. apply elem_of_without_socket.
      split; [|done]. rewrite Hms. intros ->. by destruct Hi.
Qed.

Lemma joined_until_disconnect_witness :
  let st := run two_in_room_trace in
  joined st "a" "r1" ∧
  joined (handle (Disconnect "b") st).1 "a" "r1".
Proof.
  intros st.
  assert (joined st "a" "r1") as Hj.
  { assert (sockets st !! "a" =
              Some {| sock_connected := true; sock_rooms := {["r1"]};
                      sock_listeners := ["r1"] |}) as Hs
      by (vm_compute; reflexivity).
    eexists. split; [exact Hs|]. split; [reflexivity|].
    simpl. by apply elem_of_singleton. }
  split; [exact Hj|].
  refine (proj1 (joined_until_disconnect st (Disconnect "b") "a" "r1" Hj _)).
  discriminate.
Defined.

(** ** The message collection *)

Lemma or_else_nonempty o d : d ≠ "" → or_else o d ≠ "".
Proof.
  intros Hd. destruct o as [s|]; simpl; [|done].
  destruct (String.eqb_spec s ""); done.
Qed.

Lemma closure_handler_store_well_formed a sid r e st :
  store_well_formed st → store_well_formed (closure_handler a sid r e st).1.
Proof.
  intros [Hcol Hpen].
  destruct (closure_handler_frame a sid r e st) as (_ & _ & Hc & _ & _ & _).
  split; [by rewrite Hc|]. clear Hc.
  destruct (whiteboard_event e) eqn:Hw.
  { by destruct (whiteboard_handler_frame a sid r e st Hw) as (_ & _ & _ & _ & ->). }
  destruct e as [rid un|x|xs|xs| |r' sender text|r'|r' b|t sdp|t sdp|t c|name];
    try done; cbn [closure_handler].
  - destruct (decide (present r' = true ∧ present text = true)) as [[H1 H2]|Hno].
    + destruct r' as [r1|], text as [t1|]; try done.
      apply present_Some in H1, H2. rewrite on_send_message_accepted by done.
      simpl. intros r2 s2 t2.
      intros [Hin|Hin%list_elem_of_singleton]%elem_of_app; [by eauto|].
      injection Hin as -> -> ->. split; [done|]. split; [|done].
      by apply or_else_nonempty.
    + rewrite on_send_message_rejected; [done|].
      destruct (present r'), (present text); auto. by destruct Hno.
  - unfold on_tasks_update. destruct r' as [r1|]; [|done].
    destruct (negb _ || negb _); [done|].
    unfold and_then, modify, emit. cbn beta iota zeta. cbn [fst].
    by destruct (taskBoards_set_frame r1 b st) as (T & P & ->).
  - unfold on_offer. destruct t; [|done]. by destruct (present _).
  - unfold on_answer. destruct t; [|done]. by destruct (present _).
  - unfold on_ice_candidate. destruct t; [|done]. by destruct (present _).
Qed.

Lemma disconnect_loop_collection s l st :
  collection (for_each (on_disconnect s) l st).1 = collection st.
Proof.
  apply (for_each_preserves (λ st', collection st' = collection st)); [|done].
  intros r st' _ <-. apply on_disconnect_collection.
Qed.

Lemma handle_store_well_formed i st :
  store_well_formed st → store_well_formed (handle i st).1.
Proof.
  intros Hwf. destruct i as [sid | sid e | sid | i o].
  - simpl. by destruct (sockets st !! sid).
  - unfold handle. destruct (is_connected st sid); [|done].
    destruct (dispatch_cases sid e st)
      as [(rid & un & -> & ->)|[(name & es & -> & ->)|[He ->]]].
    + join_cases rid un st; [done| |done].
      destruct Hwf as [Hcol Hpen]. split; [done|]. simpl. intros r2 s2 t2.
      intros [Hin|Hin%list_elem_of_singleton]%elem_of_app; [by eauto|done].
    + done.
    + apply (for_each_preserves store_well_formed
               (λ r0, closure_handler (arrays st) sid r0 e)); [|done].
      intros r0 st' _. apply closure_handler_store_well_formed.
  - unfold handle. destruct (is_connected st sid); [|done].
    rewrite and_then_state. destruct Hwf as [Hcol Hpen].
    split; [by rewrite disconnect_loop_collection|].
    by rewrite disconnect_loop_pending.
  - simpl. destruct (pending st !! i) as [k|] eqn:Hk; [|done].
    rewrite and_then_state. simpl. destruct Hwf as [Hcol Hpen].
    assert (∀ r s t, AwaitCreate r s t ∈ delete i (pending st) →
                     r ≠ "" ∧ s ≠ "" ∧ t ≠ "") as Hpen'.
    { intros r s t Hin%list_elem_of_delete_inv. eauto. }
    destruct k as [sid r | r sender text]; [done|].
    destruct o as [stamp|]; [|done].
    rewrite resume_send_message_resolved. split; [|done]. simpl.
    apply Forall_app. split; [done|]. apply Forall_singleton.
    apply (Hpen r sender text). by eapply list_elem_of_lookup_2.
Qed.

(** X9: the server never hands the store a document the [Message] schema
    would refuse: in every reachable state each stored message, and each
    create still awaited, has a non-empty room id, a non-empty sender (the
    client's, or "Guest") and a non-empty text. *)
Theorem stored_messages_well_formed (st : state) :
  reachable st → store_well_formed st.
Proof.
  apply reachable_induction.
  - split; [constructor|]. simpl. by intros r s t ?%not_elem_of_nil.
  - intros st' i _. apply handle_store_well_formed.
Qed.

Lemma stored_messages_well_formed_witness :
  let st := run (one_sender_trace ++ [Settle 0 (Resolved 5)]) in
  collection st = [Message "r1" "Guest" "hello" 5] ∧ store_well_formed st.
Proof.
  intros st. split; [vm_compute; reflexivity|].
  apply stored_messages_well_formed. by eexists.
Defined.

Lemma handle_collection i st :
  collection (handle i st).1 = collection st ∨
  ∃ r sender text stamp,
    AwaitCreate r sender text ∈ pending st ∧
    collection (handle i st).1 = collection st ++ [Message r sender text stamp].
Proof.
  destruct i as [sid | sid e | sid | i o].
  - left. simpl. by destruct (sockets st !! sid).
  - left. unfold handle. destruct (is_connected st sid); [|done].
    destruct (dispatch_cases sid e st)
      as [(rid & un & -> & ->)|[(name & es & -> & ->)|[He ->]]].
    + by join_cases rid un st.
    + done.
    + apply closures_keep_collection.
  - left. unfold handle. destruct (is_connected st sid); [|done].
    rewrite and_then_state. by rewrite disconnect_loop_collection.
  - simpl. destruct (pending st !! i) as [[sid r | r sender text]|] eqn:Hk;
      [by left| |by left].
    destruct o as [stamp|]; [|by left]. right.
    exists r, sender, text, stamp. split; [by eapply list_elem_of_lookup_2|done].
Qed.

(** X10: the message collection is append-only: no input removes or changes
    a stored message; a step stores at most one message, and only one whose
    create was awaited, so the collection before any run is a prefix of the
    collection after it. *)
Theorem collection_append_only (st : state) :
  (∀ i, collection (handle i st).1 = collection st ∨
        ∃ r sender text stamp,
          AwaitCreate r sender text ∈ pending st ∧
          collection (handle i st).1 = collection st ++ [Message r sender text stamp]) ∧
  ∀ tr, collection st `prefix_of` collection (run_from st tr).1.
Proof.
  split; [intros i; apply handle_collection|].
  intros tr. induction tr as [|i tr IH] using rev_ind; [done|].
  rewrite run_from_snoc. simpl.
  destruct (handle_collection i (run_from st tr).1) as [->|(r & s & t & n & _ & ->)];
    [done|]. by apply prefix_app_r.
Qed.

(** ** The history query (lines 77-80) *)

Lemma insert_by_createdAt_perm m l : insert_by_createdAt m l ≡ₚ m :: l.
Proof.
  induction l as [|x l IH]; [done|]. simpl. case_decide; [done|].
  rewrite IH. apply Permutation_swap.
Qed.

Lemma insert_by_createdAt_sorted m l :
  StronglySorted created_before l →
  StronglySorted created_before (insert_by_createdAt m l).
Proof.
  induction l as [|x l IH]; intros Hs.
  - simpl. by repeat constructor.
  - apply StronglySorted_inv in Hs as [Hl Hx]. simpl. case_decide as Hlt.
    + constructor; [by constructor|]. constructor.
      * unfold created_before. lia.
      * eapply Forall_impl; [exact Hx|]. unfold created_before. intros y. lia.
    + constructor; [by apply IH|].
      rewrite insert_by_createdAt_perm. constructor; [|done].
      unfold created_before. lia.
Qed.

Lemma sort_createdAt_asc_perm l : sort_createdAt_asc l ≡ₚ l.
Proof.
  unfold sort_createdAt_asc. rewrite <-(reverse_Permutation l) at 2.
  induction (reverse l) as [|m l' IH]; [done|]. simpl.
  by rewrite insert_by_createdAt_perm, IH.
Qed.

Lemma sort_createdAt_asc_sorted l :
  StronglySorted created_before (sort_createdAt_asc l).
Proof.
  unfold sort_createdAt_asc. induction (reverse l) as [|m l' IH]; simpl.
  - constructor.
  - by apply insert_by_createdAt_sorted.
Qed.

(** X11: the history sent on join holds only messages of the joined room,
    at most 200 of them, in ascending order of creation time, and they are
    the oldest of the room: together with the messages left out they make
    up the room's messages, and none that is left out was created before
    one that is sent. *)
Theorem find_messages_oldest_of_room (r : string) (docs : list message) :
  let found := find_messages r docs in
  (∀ m, m ∈ found → m ∈ docs ∧ msg_roomId m = r) ∧
  (length found ≤ 200)%nat ∧
  StronglySorted created_before found ∧
  ∃ rest, found ++ rest ≡ₚ filter (λ m, msg_roomId m = r) docs ∧
          ∀ a b, a ∈ found → b ∈ rest → created_before a b.
Proof.
  intros found. unfold found, find_messages.
  set (sorted := sort_createdAt_asc (filter (λ m, msg_roomId m = r) docs)).
  assert (StronglySorted created_before (take 200 sorted ++ drop 200 sorted)) as Hs.
  { rewrite take_drop. apply sort_createdAt_asc_sorted. }
  split; [|split; [|split]].
  - intros m Hm%subseteq_take. unfold sorted in Hm.
    rewrite sort_createdAt_asc_perm in Hm.
    apply list_elem_of_filter in Hm as [??]. done.
  - rewrite length_take. lia.
  - by apply StronglySorted_app_1_l in Hs.
  - exists (drop 200 sorted). split.
    + rewrite take_drop. apply sort_createdAt_asc_perm.
    + intros a b Ha Hb. by eapply StronglySorted_app_1_elem_of.
Qed.

Lemma find_messages_oldest_of_room_witness :
  let docs := [ Message "r1" "alice" "third" 30; Message "r2" "bob" "other" 5;
                Message "r1" "bob" "first" 10; Message "r1" "alice" "second" 20 ] in
  find_messages "r1" docs =
    [ Message "r1" "bob" "first" 10; Message "r1" "alice" "second" 20;
      Message "r1" "alice" "third" 30 ] ∧
  StronglySorted created_before (find_messages "r1" docs).
Proof.
  intros docs. split; [vm_compute; reflexivity|].
  exact (proj1 (proj2 (proj2 (find_messages_oldest_of_room "r1" docs)))).
Defined.

(** * Properties of the authentication routes *)

Lemma findOne_None_filter name users :
  findOne name users = None → filter (λ x, user_username x = name) users = [].
Proof. unfold findOne. by destruct (filter _ users). Qed.

Lemma findOne_app_new name users usr :
  findOne name users = None → user_username usr = name →
  findOne name (users ++ [usr]) = Some usr.
Proof.
  intros Hnone Hname. unfold findOne.
  rewrite filter_app, (findOne_None_filter _ _ Hnone).
  simpl. rewrite filter_cons, decide_True by done. done.
Qed.

Lemma or_else_empty_default s : or_else (Some s) "" = s.
Proof. simpl. by destruct (String.eqb_spec s ""). Qed.

Lemma signup_present secret u p :
  u ≠ "" → p ≠ "" →
  signup secret (Some u) (Some p) =
    AwaitUserFindOne u (λ existing,
      match existing with
      | Failed => server_error
      | Fulfilled (Some _) => bad_request "User exists"
      | Fulfilled None =>
          AwaitBcryptHash p 10 (λ hash,
            match hash with
            | Failed => server_error
            | Fulfilled h =>
                AwaitUserCreate u h (λ created,
                  match created with
                  | Failed => server_error
                  | Fulfilled usr => authenticated secret usr
                  end)
            end)
      end).
Proof.
  intros Hu%present_Some Hp%present_Some. unfold signup. by rewrite Hu, Hp.
Qed.

Lemma login_present secret u p :
  u ≠ "" → p ≠ "" →
  login secret (Some u) (Some p) =
    AwaitUserFindOne u (λ found,
      match found with
      | Failed => server_error
      | Fulfilled None => bad_request "Invalid credentials"
      | Fulfilled (Some usr) =>
          AwaitBcryptCompare p (or_else (user_passwordHash usr) "") (λ ok,
            match ok with
            | Failed => server_error
            | Fulfilled false => bad_request "Invalid credentials"
            | Fulfilled true => authenticated secret usr
            end)
      end).
Proof.
  intros Hu%present_Some Hp%present_Some. unfold login. by rewrite Hu, Hp.
Qed.

Lemma findOne_None_not_elem name users :
  findOne name users = None → name ∉ user_username <$> users.
Proof.
  intros Hnone%findOne_None_filter Hin.
  apply list_elem_of_fmap in Hin as (x & -> & Hx).
  assert (x ∈ filter (λ y, user_username y = user_username x) users) as Hf
    by (by apply list_elem_of_filter).
  rewrite Hnone in Hf. by apply not_elem_of_nil in Hf.
Qed.

(** X16: served one after the other, signups keep user names unique.  A
    signup leaves the user collection as it is when a field is missing
    (400 "Missing fields"), when some user has the name (400 "User exists")
    and when an awaited operation rejects; otherwise it appends exactly one
    user, under a name no user had, and answers 200 for that user.  So if no
    two users share a name before a signup, none do after it. *)
Theorem signup_keeps_names_unique (B : bcrypt) (id : nat) (fail_at : option nat)
    (secret : string) (username password : option string) (users : list user) :
  NoDup (user_username <$> users) →
  let out := serve B id fail_at (signup secret username password) users in
  NoDup (user_username <$> out.2) ∧
  (out.2 = users ∨
   ∃ u p, username = Some u ∧ password = Some p ∧ findOne u users = None ∧
          let created := {| user_id := id; user_username := u;
                            user_passwordHash := Some (bcrypt_hash B p 10) |} in
          out = (granted secret created, users ++ [created])) ∧
  (present username = false ∨ present password = false →
   out = (refused "Missing fields", users)) ∧
  (∀ u usr, username = Some u → present username = true →
            present password = true → findOne u users = Some usr →
            fail_at = None → out = (refused "User exists", users)).
Proof.
  intros Hnd out.
  assert (present username = false ∨ present password = false →
          out = (refused "Missing fields", users)) as Hmiss.
  { intros Hm. unfold out, signup. destruct username, password;
      try (by destruct fail_at as [[|n]|]).
    destruct Hm as [-> | ->]; rewrite ?orb_true_r; by destruct fail_at as [[|n]|]. }
  destruct (present username) eqn:Hu; [|
    rewrite Hmiss by auto; simpl; repeat split; auto; intros; congruence ].
  destruct (present password) eqn:Hp; [|
    rewrite Hmiss by auto; simpl; repeat split; auto; intros; congruence ].
  destruct username as [u|]; [|done]. destruct password as [p|]; [|done].
  apply present_Some in Hu, Hp.
  assert (NoDup (user_username <$> out.2) ∧
          (out.2 = users ∨
           findOne u users = None ∧
           out = (granted secret (User id u (Some (bcrypt_hash B p 10))),
                  users ++ [User id u (Some (bcrypt_hash B p 10))]))) as [Hnd' Hcase].
  { unfold out. rewrite signup_present by done.
    destruct (findOne u users) as [usr|] eqn:Hfind.
    - destruct fail_at as [[|n]|]; simpl; rewrite ?Hfind; simpl; auto.
    - assert (NoDup (user_username <$>
                       users ++ [User id u (Some (bcrypt_hash B p 10))])) as Hnew.
      { rewrite fmap_app. apply NoDup_app. split; [done|]. split.
        - intros x Hx ->%list_elem_of_singleton.
          by apply (findOne_None_not_elem _ _ Hfind).
        - apply NoDup_singleton. }
      destruct fail_at as [[|[|[|n]]]|]; simpl; rewrite ?Hfind; simpl; auto. }
  split; [done|]. split; [|split].
  - destruct Hcase as [?|[Hfree Hout]]; [by left|]. right. by exists u, p.
  - intros [?|?]; congruence.
  - intros u' usr [= <-] _ _ Hfound ->. unfold out.
    rewrite signup_present by done. simpl. by rewrite Hfound.
Qed.

Lemma signup_keeps_names_unique_witness :
  let users := [User 1 "alice" (Some "$2b$secret")] in
  NoDup (user_username <$> users) ∧
  NoDup (user_username <$>
           (serve toy_bcrypt 7 None
              (signup "devsecret" (Some "bob") (Some "pw")) users).2) ∧
  serve toy_bcrypt 7 None (signup "devsecret" (Some "alice") (Some "other")) users =
    (refused "User exists", users).
Proof.
  intros users.
  assert (NoDup (user_username <$> users)) as Hnd.
  { apply NoDup_singleton. }
  split; [exact Hnd|]. split.
  - exact (proj1 (signup_keeps_names_unique toy_bcrypt 7 None "devsecret"
                    (Some "bob") (Some "pw") users Hnd)).
  - exact (proj2 (proj2 (proj2 (signup_keeps_names_unique toy_bcrypt 7 None
                    "devsecret" (Some "alice") (Some "other") users Hnd)))
             "alice" (User 1 "alice" (Some "$2b$secret"))
             eq_refl eq_refl eq_refl eq_refl eq_refl).
Defined.

(** A login with name and password present, when no store operation fails:
    refused when no user has the name or bcrypt rejects the password,
    granted otherwise; the collection is as it was. *)
Lemma login_outcomes (B : bcrypt) (id : nat) (secret u p : string)
    (users : list user) :
  u ≠ "" → p ≠ "" →
  serve B id None (login secret (Some u) (Some p)) users =
    (match findOne u users with
     | None => refused "Invalid credentials"
     | Some usr =>
         if bcrypt_compare B p (or_else (user_passwordHash usr) "")
         then granted secret usr
         else refused "Invalid credentials"
     end, users).
Proof.
  intros Hu Hp. rewrite login_present by done. simpl.
  destruct (findOne u users) as [usr|]; [|done]. simpl.
  by destruct (bcrypt_compare B p _).
Qed.

(** X18: a signup for a free name stores one new user, with the bcrypt hash
    of the password (10 rounds) and not the password, and answers 200 with
    the new user's id and name; when bcrypt accepts a password against its
    own hash, a login with the same name and password on the resulting
    collection gets the same answer, and a login with a password bcrypt
    rejects against that hash is refused. *)
Theorem signup_then_login (B : bcrypt) (id id' : nat) (secret u p : string)
    (users : list user) :
  u ≠ "" → p ≠ "" → findOne u users = None →
  bcrypt_compare B p (bcrypt_hash B p 10) = true →
  let created := {| user_id := id; user_username := u;
                    user_passwordHash := Some (bcrypt_hash B p 10) |} in
  serve B id None (signup secret (Some u) (Some p)) users =
    (granted secret created, users ++ [created]) ∧
  serve B id' None (login secret (Some u) (Some p)) (users ++ [created]) =
    (granted secret created, users ++ [created]) ∧
  ∀ p', p' ≠ "" → bcrypt_compare B p' (bcrypt_hash B p 10) = false →
    serve B id' None (login secret (Some u) (Some p')) (users ++ [created]) =
      (refused "Invalid credentials", users ++ [created]).
Proof.
  intros Hu Hp Hfree Hok created.
  assert (findOne u (users ++ [created]) = Some created) as Hnew
    by (by apply findOne_app_new).
  split; [|split].
  - rewrite signup_present by done. simpl. by rewrite Hfree.
  - rewrite login_outcomes, Hnew by done.
    change (user_passwordHash created) with (Some (bcrypt_hash B p 10)).
    by rewrite or_else_empty_default, Hok.
  - intros p' Hp' Hbad. rewrite login_outcomes, Hnew by done.
    change (user_passwordHash created) with (Some (bcrypt_hash B p 10)).
    by rewrite or_else_empty_default, Hbad.
Qed.

Lemma signup_then_login_witness :
  let created := User 7 "alice" (Some "$2b$secret") in
  serve toy_bcrypt 7 None (signup "devsecret" (Some "alice") (Some "secret")) [] =
    (granted "devsecret" created, [created]) ∧
  serve toy_bcrypt 8 None (login "devsecret" (Some "alice") (Some "secret")) [created] =
    (granted "devsecret" created, [created]).
Proof.
  intros created.
  destruct (signup_then_login toy_bcrypt 7 8 "devsecret" "alice" "secret" [])
    as (Hsignup & Hlogin & _); try discriminate; try reflexivity.
  split; [exact Hsignup | exact Hlogin].
Defined.

(** X19: when an awaited operation of a signup or login rejects, the request
    is answered 500 "Server error" and the user collection is as before;
    since the create is the last operation a signup awaits, a failed signup
    never leaves an account behind.  A rejection scheduled for an operation
    the route does not reach changes nothing. *)
Theorem auth_failure_leaves_no_account (B : bcrypt) (id n : nat)
    (secret u p : string) (users : list user) :
  u ≠ "" → p ≠ "" →
  (serve B id (Some n) (signup secret (Some u) (Some p)) users = (failed_500, users) ∨
   serve B id (Some n) (signup secret (Some u) (Some p)) users =
     serve B id None (signup secret (Some u) (Some p)) users) ∧
  (serve B id (Some n) (login secret (Some u) (Some p)) users = (failed_500, users) ∨
   serve B id (Some n) (login secret (Some u) (Some p)) users =
     serve B id None (login secret (Some u) (Some p)) users) ∧
  (findOne u users = None → n < 3 →
   serve B id (Some n) (signup secret (Some u) (Some p)) users = (failed_500, users)).
Proof.
  intros Hu Hp. rewrite signup_present, login_present by done.
  split; [|split].
  - destruct n as [|[|[|n]]]; simpl; [by left| | |];
      (destruct (findOne u users); simpl; [by right|]); by (left + right).
  - destruct n as [|[|n]]; simpl; [by left| |];
      (destruct (findOne u users); simpl; [|by right]);
      try (by left); destruct (bcrypt_compare B p _); by right.
  - intros Hfree Hn. destruct n as [|[|[|n]]]; simpl; rewrite ?Hfree; simpl;
      try done. lia.
Qed.

Lemma auth_failure_leaves_no_account_witness :
  serve toy_bcrypt 7 (Some 2) (signup "devsecret" (Some "alice") (Some "secret")) [] =
    (failed_500, []).
Proof.
  refine (proj2 (proj2 (auth_failure_leaves_no_account toy_bcrypt 7 2
                          "devsecret" "alice" "secret" [] _ _)) _ _);
    try discriminate; try reflexivity. lia.
Defined.

